(** * EAGLE: explicit alternative genome likelihood evaluator

    A shallow embedding of the core of [src/eagle.c]: the alternative
    sequence builder [construct_altseq], the read model ([calc_prob],
    [calc_prob_distrib]), the combination enumeration ([combinations],
    [powerset]), the evaluator [evaluate_variants], the grouper and worker
    loop of [process_variants], and the option handling of [main].

    Conventions of the model.
    - C [int] and [size_t] values are [Z] (resp. [nat]); the positions and
      lengths handled here stay far from the 32-bit bounds. An [int] that
      [sscanf]'s [%d] stores is [store_int] of the number read (clamped to
      [long], then wrapped to 32 bits), and an [int] stored in a [char] is
      wrapped to a signed byte ([to_char]).
    - Undefined behaviour is written out where the code has it: an array
      read out of bounds gives a harmless value, said at the definition,
      and the write past [var_set] in the splitting makes [hypothesis_sets]
      [None]. Theorems about a run carry the hypotheses that keep it
      defined ([bases_ok]: reads and reference of A, C, G, T, N; sets of at
      most 118 variants; [hypothesis_sets] not [None]).
    - C [double] values are real numbers ([R]); [log] and [exp] are the
      Standard Library's [ln] and [exp].
    - Character arrays are [list ascii]; C strings read from the VCF are
      [string].
    - A [Vector] of [Variant *] is a list of indices into the global variant
      list: the pointers of the C code, so that two equal VCF records stay
      distinct, as they are in the program.
    - The BAM reader, the FASTA index and [qsort] are external collaborators
      (htslib, libc): they are section variables. *)

From Stdlib Require Import ZArith String Ascii Reals Lra Lia Permutation QArith FunctionalExtensionality List.
From stdpp Require Import base list gmap strings.

(* ------------------------------------------------------------------ *)
(** ** Data model (eagle.h) *)

Record Variant := mkVariant {
  chr : string;
  pos : Z;          (* 1-based *)
  ref : string;
  alt : string
}.

(** [s[0]] of a C string; the empty string reads its terminating NUL. *)
Definition first_char (s : string) : ascii :=
  match s with EmptyString => zero | String c _ => c end.

Definition is_dash (s : string) : bool := Ascii.eqb (first_char s) "-"%char.

(* ------------------------------------------------------------------ *)
(** ** AltBuilder: [construct_altseq] *)

(** [for (j = 0; j < var_alt_length; ++j) altseq[j+pos] = var_alt[j];]
    (an index past the end is out of bounds in C; stdpp's [insert] leaves
    the list unchanged there). *)
Fixpoint overwrite_at (altseq : list ascii) (p : nat) (var_alt : list ascii) : list ascii :=
  match var_alt with
  | [] => altseq
  | a :: rest => overwrite_at (<[p := a]> altseq) (S p) rest
  end.

(** The effective position and alleles of one variant:
    a ["-"] reference is a pure insertion after [pos], a ["-"] alternative a
    pure deletion. *)
Definition effective_variant (curr : Variant) (offset : Z) : Z * list ascii * list ascii :=
  let p := (pos curr - 1 + offset)%Z in
  if is_dash (ref curr) then ((p + 1)%Z, [], list_ascii_of_string (alt curr))
  else if is_dash (alt curr) then (p, list_ascii_of_string (ref curr), [])
  else (p, list_ascii_of_string (ref curr), list_ascii_of_string (alt curr)).

Fixpoint construct_altseq_loop (altseq : list ascii) (offset : Z) (var_combo : list Variant)
  : list ascii :=
  match var_combo with
  | [] => altseq
  | curr :: rest =>
      let '(p, var_ref, var_alt) := effective_variant curr offset in
      let delta := (Z.of_nat (length var_alt) - Z.of_nat (length var_ref))%Z in
      let np := Z.to_nat p in
      let altseq' :=
        if Z.eqb delta 0 then overwrite_at altseq np var_alt
        else take np altseq ++ var_alt ++ drop (np + length var_ref) altseq in
      construct_altseq_loop altseq' (offset + delta)%Z rest
  end.

(** [altseq = strdup(refseq); offset = 0; ...] *)
Definition construct_altseq (refseq : list ascii) (var_combo : list Variant) : list ascii :=
  construct_altseq_loop refseq 0 var_combo.

(* ------------------------------------------------------------------ *)
(** ** LogMath *)

Local Open Scope R_scope.

Definition M_1_LOG10E : R := ln 10.   (* 1.0/M_LOG10E *)
Definition M_1_LN10 : R := / ln 10.   (* 1.0/M_LN10 *)
Definition ALPHA : R := 13 / 10.
Definition OMEGA : R := / 10000.
Definition REFPRIOR : R := ln (1 / 2).
Definition LG3 : R := ln 3.
Definition LG50 : R := ln (1 / 2).
Definition LG10 : R := ln (1 / 10).
Definition LG90 : R := ln (9 / 10).
Definition LGALPHA : R := ln ALPHA.
Definition LGOMEGA : R := ln OMEGA.
Definition LG1_OMEGA : R := ln (1 - OMEGA).

(** [double s = 0; while (--size >= 0) s += a[size];] *)
Definition sum (a : list R) : R := fold_right (fun x s => s + x) 0 a.

Definition log_add_exp (a b : R) : R :=
  let max_exp := if Rgt_dec a b then a else b in
  ln (exp (a - max_exp) + exp (b - max_exp)) + max_exp.

Definition log_sum_exp (a : list R) : R :=
  match a with
  | [] => 0  (* never called on an empty array *)
  | a0 :: rest =>
      let max_exp := fold_left (fun m x => if Rgt_dec x m then x else m) rest a0 in
      let s := fold_left (fun s x => s + exp (x - max_exp)) a 0 in
      ln s + max_exp
  end.

(** *** [log_add_exp] on IEEE doubles with their infinities

    The doubles of [log_add_exp] with [-INFINITY], [INFINITY] and NaN added:
    finite values are real numbers, computed exactly; [exp(-inf) = 0],
    [log(0) = -inf], [log] of a negative number is NaN, [inf - inf] is NaN,
    and a comparison with NaN is false. *)
Inductive xreal := XFin (r : R) | XNegInf | XPosInf | XNaN.

Definition xsub (a b : xreal) : xreal :=
  match a, b with
  | XNaN, _ | _, XNaN => XNaN
  | XFin x, XFin y => XFin (x - y)
  | XFin _, XNegInf | XPosInf, XFin _ | XPosInf, XNegInf => XPosInf
  | XFin _, XPosInf | XNegInf, XFin _ | XNegInf, XPosInf => XNegInf
  | XNegInf, XNegInf | XPosInf, XPosInf => XNaN
  end.

Definition xadd (a b : xreal) : xreal :=
  match a, b with
  | XNaN, _ | _, XNaN => XNaN
  | XFin x, XFin y => XFin (x + y)
  | XFin _, XNegInf | XNegInf, XFin _ | XNegInf, XNegInf => XNegInf
  | XFin _, XPosInf | XPosInf, XFin _ | XPosInf, XPosInf => XPosInf
  | XNegInf, XPosInf | XPosInf, XNegInf => XNaN
  end.

Definition xexp (a : xreal) : xreal :=
  match a with
  | XFin x => XFin (exp x)
  | XNegInf => XFin 0
  | XPosInf => XPosInf
  | XNaN => XNaN
  end.

Definition xln (a : xreal) : xreal :=
  match a with
  | XFin x => if Rlt_dec 0 x then XFin (ln x) else if Req_EM_T x 0 then XNegInf else XNaN
  | XPosInf => XPosInf
  | XNegInf | XNaN => XNaN
  end.

(** [a > b] *)
Definition xgt (a b : xreal) : bool :=
  match a, b with
  | XNaN, _ | _, XNaN => false
  | XFin x, XFin y => if Rgt_dec x y then true else false
  | XPosInf, XPosInf => false
  | XPosInf, _ => true
  | XFin _, XNegInf => true
  | XFin _, XPosInf => false
  | XNegInf, _ => false
  end.

(** [log_add_exp] over these values. *)
Definition xlog_add_exp (a b : xreal) : xreal :=
  let max_exp := if xgt a b then a else b in
  xadd (xln (xadd (xexp (xsub a max_exp)) (xexp (xsub b max_exp)))) max_exp.

(* ------------------------------------------------------------------ *)
(** ** ReadModel *)

(** The bases of the sequences the program expects: A, C, G, T, N. *)
Definition is_acgtn (c : ascii) : bool :=
  existsb (Ascii.eqb c) ["A"; "C"; "G"; "T"; "N"]%char.

(** [seqnt_map[c - 'A']] as [main] fills the table:
    [memset(seqnt_map, 4, sizeof seqnt_map)] puts [0x04040404] in each of its
    26 [int] entries, then A, T, G, C, N get 0 .. 4. [None] when [c - 'A']
    falls outside the 26 entries (a read outside the array, undefined
    behaviour), e.g. for the ['='] of a BAM sequence. *)
Definition seqnt_map (c : ascii) : option Z :=
  let i := (Z.of_nat (nat_of_ascii c) - 65)%Z in
  if ((0 <=? i) && (i <? 26))%Z then
    Some (if Ascii.eqb c "A" then 0
          else if Ascii.eqb c "T" then 1
          else if Ascii.eqb c "G" then 2
          else if Ascii.eqb c "C" then 3
          else if Ascii.eqb c "N" then 4
          else 67372036)%Z   (* 0x04040404 *)
  else None.

(** The column that [matrix[5 * b + seqnt_map[c - 'A']]] addresses in row
    [b]. [None] when the table read is out of bounds, or when the entry is
    the fill [0x04040404]: the access then lands 67372036 entries past the
    start of row [b], outside the matrix of any read of at most 13474407
    bases. Both are undefined behaviour in C. *)
Definition matrix_col (c : ascii) : option nat :=
  match seqnt_map c with
  | Some v => if (v <? 5)%Z then Some (Z.to_nat v) else None
  | None => None
  end.

(** [compl_map]: A<->T, C<->G, N->N, 0 for every other letter. *)
Definition compl_map (c : ascii) : ascii :=
  if Ascii.eqb c "A" then "T"%char
  else if Ascii.eqb c "T" then "A"%char
  else if Ascii.eqb c "C" then "G"%char
  else if Ascii.eqb c "G" then "C"%char
  else if Ascii.eqb c "N" then "N"%char
  else zero.

(** The probability matrix [matrix[5 * b + i]], stored as rows of 5. *)
Definition Matrix := list (list R).

Definition mat_get (matrix : Matrix) (row col : nat) : R := nth col (nth row matrix []) 0.

(** [matrix[5 * b + seqnt_map[seq[b] - 'A']]] for a base [c] of the sequence;
    for a base without a column (see [matrix_col]) the C read is out of
    bounds, and the model reads 0 there. *)
Definition mat_entry (matrix : Matrix) (row : nat) (c : ascii) : R :=
  match matrix_col c with Some col => mat_get matrix row col | None => 0 end.

(** [for (i = 0; i < 5; ++i) matrix[5 * b + i] = no_match[b];
     matrix[5 * b + seqnt_map[seq[b] - 'A']] = is_match[b];] row by row. For a
    base without a column the second write lands outside the row (undefined
    behaviour); the model leaves the row as the first loop wrote it. *)
Definition set_prob_matrix (qseq : list ascii) (read_length : nat) (is_match no_match : list R)
  : Matrix :=
  map (fun b =>
         let row := replicate 5 (nth b no_match 0) in
         match matrix_col (nth b qseq zero) with
         | Some col => <[col := nth b is_match 0]> row
         | None => row
         end)
      (seq 0 read_length).

(** [reverse] and [reverse_compl] *)
Definition reverse (a : list R) : list R := rev a.
Definition reverse_compl (a : list ascii) : list ascii := map compl_map (rev a).

(** The body of [calc_prob]'s loop, from base [b] with [k] iterations left. *)
Fixpoint calc_prob_loop (matrix : Matrix) (seq : list ascii) (seq_length pos : Z)
    (baseline : R) (b : Z) (k : nat) (probability : R) : R :=
  match k with
  | O => probability
  | S k' =>
      if (b <? 0)%Z then calc_prob_loop matrix seq seq_length pos baseline (b + 1)%Z k' probability
      else if (b >=? seq_length)%Z then probability
      else
        let probability' :=
          probability + mat_entry matrix (Z.to_nat (b - pos)) (nth (Z.to_nat b) seq zero) in
        if Rlt_dec probability' (baseline - 10) then probability'
        else calc_prob_loop matrix seq seq_length pos baseline (b + 1)%Z k' probability'
  end.

(** [for (b = pos; b < pos + read_length; ++b)] *)
Definition calc_prob (matrix : Matrix) (read_length : Z) (seq : list ascii) (seq_length pos : Z)
    (baseline : R) : R :=
  calc_prob_loop matrix seq seq_length pos baseline pos (Z.to_nat read_length) 0.

Fixpoint calc_prob_distrib_loop (matrix : Matrix) (read_length : Z) (seq : list ascii)
    (seq_length : Z) (i : Z) (k : nat) (probability baseline : R) : R :=
  match k with
  | O => probability
  | S k' =>
      if (i + read_length <? 0)%Z then
        calc_prob_distrib_loop matrix read_length seq seq_length (i + 1)%Z k' probability baseline
      else if (i >=? seq_length)%Z then probability
      else
        let p := calc_prob matrix read_length seq seq_length i baseline in
        let probability' :=
          if Req_EM_T probability 0 then p else log_add_exp probability p in
        let baseline' := if Rgt_dec probability' baseline then probability' else baseline in
        calc_prob_distrib_loop matrix read_length seq seq_length (i + 1)%Z k' probability' baseline'
  end.

(** [for (i = pos - read_length; i < pos + read_length; ++i)], seeded with the
    baseline [calc_prob(..., pos, -1000)]. *)
Definition calc_prob_distrib (matrix : Matrix) (read_length : Z) (seq : list ascii)
    (seq_length pos : Z) : R :=
  let baseline := calc_prob matrix read_length seq seq_length pos (-1000) in
  calc_prob_distrib_loop matrix read_length seq seq_length (pos - read_length)%Z
    (Z.to_nat ((pos + read_length) - (pos - read_length))) 0 baseline.

Local Close Scope R_scope.

(* ------------------------------------------------------------------ *)
(** ** Combination enumeration: [combinations] and [powerset] *)

Module Combos.

(** The C array [int c[k]] as a function of its index; [upd] is [c[i] = v].
    The write to [c[-1]] that [combinations] performs after its last
    combination lands outside [0..k-1] and is harmless here. *)
Definition upd (c : Z -> Z) (i v : Z) : Z -> Z := fun j => if Z.eqb j i then v else c j.

(** [while ((i >= 0 && i < k) && (c[i] >= n - k + 1 + i)) { --i; ++c[i]; }] *)
Fixpoint carry (n k : Z) (fuel : nat) (c : Z -> Z) (i : Z) : (Z -> Z) * Z :=
  match fuel with
  | O => (c, i)
  | S f =>
      if (0 <=? i) && (i <? k) && (n - k + 1 + i <=? c i) then
        carry n k f (upd c (i - 1) (c (i - 1) + 1)) (i - 1)
      else (c, i)
  end%Z.

(** [for (i = i + 1; i < k; ++i) c[i] = c[i - 1] + 1;] *)
Fixpoint reset (k : Z) (fuel : nat) (c : Z -> Z) (i : Z) : Z -> Z :=
  match fuel with
  | O => c
  | S f => if (i <? k)%Z then reset k f (upd c i (c (i - 1) + 1))%Z (i + 1)%Z else c
  end.

(** One step of the loop of [combinations] after the current combination
    has been recorded; [None] is the [break]. *)
Definition next_comb (n k : Z) (c : Z -> Z) : option (Z -> Z) :=
  let c1 := upd c (k - 1) (c (k - 1) + 1)%Z in
  let '(c2, i) := carry n k (S (Z.to_nat k)) c1 (k - 1)%Z in
  if (n - k <? c2 0)%Z then None else Some (reset k (Z.to_nat k) c2 (i + 1)%Z).

(** The combination [c[0..k-1]] that the loop body records. *)
Definition comb (k : Z) (c : Z -> Z) : list Z := map c (map Z.of_nat (seq 0 (Z.to_nat k))).

Fixpoint combinations_loop (n k : Z) (fuel : nat) (c : Z -> Z) : list (list Z) :=
  match fuel with
  | O => []
  | S f =>
      comb k c ::
      match next_comb n k c with
      | None => []
      | Some c' => combinations_loop n k f c'
      end
  end.

(** [combinations(&combo, k, n, ncombos)]: the combinations of the
    iterations, in order (one [++( *ncombos)] each); at most [2^n] of them.
    What each iteration appends to [combo] is [token] below. *)
Definition combinations (k n : Z) : list (list Z) :=
  combinations_loop n k (Z.to_nat (2 ^ n)) (fun i => i).

(** [for (k = 2; k <= n - 1; ++k) { combinations(...); if (ncombos - n - 1 >= maxh) break; }] *)
Fixpoint powerset_loop (maxh n k : Z) (fuel : nat) (acc : list (list Z)) : list (list Z) :=
  match fuel with
  | O => acc
  | S f =>
      if (k <=? n - 1)%Z then
        let acc' := acc ++ combinations k n in
        if (maxh <=? Z.of_nat (length acc') - n - 1)%Z then acc'
        else powerset_loop maxh n (k + 1)%Z f acc'
      else acc
  end.

(** [powerset(n, &ncombos)] with the global [maxh]; [ncombos] is the
    length of the result. *)
Definition powerset (maxh n : Z) : list (list Z) :=
  let combo := combinations 1 n in
  if (1 <? n)%Z then powerset_loop maxh n 2 (Z.to_nat n) (combo ++ combinations n n)
  else combo.

Definition ncombos (maxh n : Z) : Z := Z.of_nat (length (powerset maxh n)).

(** [(char) v]: [char] is a signed 8-bit type, and the conversion keeps [v]
    modulo 256 (as gcc does). *)
Definition to_char (v : Z) : Z := ((v + 128) mod 256 - 128)%Z.

(** The array [token] of one iteration, from its combination [c[0..k-1]]:
    [token[i] = c[i] + '\t' + 1] for [i < k] and [token[k] = '\t'] (the
    terminating [token[k + 1] = '\0'] left out). Characters are their codes. *)
Definition token (cb : list Z) : list Z := map (fun x => to_char (x + 9 + 1)) cb ++ [9%Z].

(** What [strcat] copies of a character array: the characters before its
    first NUL. *)
Fixpoint c_str (s : list Z) : list Z :=
  match s with
  | [] => []
  | x :: r => if (x =? 0)%Z then [] else x :: c_str r
  end.

(** The string [combo] that [powerset] returns: one
    [strcat( *output, token)] per iteration, in order. *)
Definition combo_string (maxh n : Z) : list Z :=
  concat (map (fun cb => c_str (token cb)) (powerset maxh n)).

(** *** Reference enumeration *)

(** The k-subsets of [lo, lo + cnt) as increasing lists, in lexicographic
    order: those containing [lo] first, then those that do not. *)
Fixpoint lex_from (k : nat) (lo : Z) (cnt : nat) : list (list Z) :=
  match k with
  | O => [[]]
  | S k' =>
      match cnt with
      | O => []
      | S cnt' => map (cons lo) (lex_from k' (lo + 1)%Z cnt') ++ lex_from k (lo + 1)%Z cnt'
      end
  end.

Fixpoint binom (n k : nat) : nat :=
  match n, k with
  | _, O => 1
  | O, S _ => 0
  | S n', S k' => binom n' k' + binom n' k
  end.

(** The intermediate sizes [powerset] adds for [n] variants: 2, 3, ... in
    order, each one whole, stopping after the first size at which the number
    of intermediate combinations so far reaches [maxh], or after [n-1]. *)
Fixpoint middle_sizes_from (maxh : Z) (n k : nat) (fuel : nat) (acc : Z) : list nat :=
  match fuel with
  | O => []
  | S f =>
      if (k <=? n - 1)%nat then
        let acc' := (acc + Z.of_nat (binom n k))%Z in
        if (maxh <=? acc')%Z then [k] else k :: middle_sizes_from maxh n (S k) f acc'
      else []
  end.

Definition middle_sizes (maxh : Z) (n : nat) : list nat := middle_sizes_from maxh n 2 n 0.

(** *** Lexicographic successor, the reference for [next_comb] *)

(** [[a; a+1; ...; a+m-1]] *)
Definition ramp (a : Z) (m : nat) : list Z := map (fun t => (a + Z.of_nat t)%Z) (seq 0 m).

(** The lexicographic successor of an increasing list of [0..n-1]:
    advance the rightmost entry that can still move and lay the entries
    after it out consecutively. *)
Fixpoint succ (n : Z) (l : list Z) : option (list Z) :=
  match l with
  | [] => None
  | x :: rest =>
      match succ n rest with
      | Some rest' => Some (x :: rest')
      | None => if (x + Z.of_nat (length l) <? n)%Z then Some (ramp (x + 1) (length l)) else None
      end
  end.

(** The index of the rightmost entry that can still move. *)
Fixpoint last_free (n : Z) (l : list Z) : option nat :=
  match l with
  | [] => None
  | x :: rest =>
      match last_free n rest with
      | Some p => Some (S p)
      | None => if (x + Z.of_nat (length l) <? n)%Z then Some 0%nat else None
      end
  end.

(** [links_from f x l e]: [x :: l] is the chain of [f]-successors starting
    at [x], and [f] maps its last element to [e]. *)
Fixpoint links_from {A} (f : A -> option A) (x : A) (l : list A) (e : option A) : Prop :=
  match l with
  | [] => f x = e
  | y :: l' => f x = Some y /\ links_from f y l' e
  end.

(** Strictly increasing lists. *)
Fixpoint incr (l : list Z) : Prop :=
  match l with
  | x :: ((y :: _) as t) => (x < y)%Z /\ incr t
  | _ => True
  end.

(** The state [c] with the entries [i..k-1] incremented, as [carry] leaves it. *)
Definition incr_from (c : Z -> Z) (i k : Z) : Z -> Z :=
  fun j => if (i <=? j)%Z && (j <? k)%Z then (c j + 1)%Z else c j.

End Combos.

(* ------------------------------------------------------------------ *)
(** ** Scanning helpers shared by [sscanf] and [strtol] *)

Module Scan.

Definition is_space (c : ascii) : bool :=
  let n := nat_of_ascii c in (n =? 32)%nat || ((9 <=? n)%nat && (n <=? 13)%nat).

Fixpoint skip_spaces (s : list ascii) : list ascii :=
  match s with
  | c :: s' => if is_space c then skip_spaces s' else s
  | [] => []
  end.

(** The value of a digit in bases up to 36: [0-9], then [a-z] or [A-Z]. *)
Definition digit_value (c : ascii) : option Z :=
  let n := Z.of_nat (nat_of_ascii c) in
  if (48 <=? n)%Z && (n <=? 57)%Z then Some (n - 48)%Z
  else if (97 <=? n)%Z && (n <=? 122)%Z then Some (n - 87)%Z
  else if (65 <=? n)%Z && (n <=? 90)%Z then Some (n - 55)%Z
  else None.

Definition is_digit_in (base : Z) (c : ascii) : bool :=
  match digit_value c with Some d => (d <? base)%Z | None => false end.

(** The longest prefix of digits of [base]: its value and the rest. *)
Fixpoint scan_digits (base : Z) (s : list ascii) (acc : Z) : Z * list ascii :=
  match s with
  | c :: s' =>
      match digit_value c with
      | Some d => if (d <? base)%Z then scan_digits base s' (acc * base + d)%Z else (acc, s)
      | None => (acc, s)
      end
  | [] => (acc, [])
  end.

(** The longest prefix of characters not satisfying [stop], and the rest. *)
Fixpoint span_until (stop : ascii -> bool) (s : list ascii) : list ascii * list ascii :=
  match s with
  | [] => ([], [])
  | c :: s' => if stop c then ([], s) else let '(t, r) := span_until stop s' in (c :: t, r)
  end.

Definition is_comma (c : ascii) : bool := Ascii.eqb c ",".
Definition is_semicolon (c : ascii) : bool := Ascii.eqb c ";".

(** [%d] of [sscanf]: white space, an optional sign, then at least one
    decimal digit. *)
Definition scan_int (s : list ascii) : option (Z * list ascii) :=
  let s1 := skip_spaces s in
  let '(neg, s2) :=
    match s1 with
    | c :: t => if Ascii.eqb c "-" then (true, t) else if Ascii.eqb c "+" then (false, t) else (false, s1)
    | [] => (false, s1)
    end in
  match s2 with
  | c :: _ =>
      if is_digit_in 10 c then
        let '(v, rest) := scan_digits 10 s2 0 in Some (if neg then (- v)%Z else v, rest)
      else None
  | [] => None
  end.

(** What [%d] stores in its [int]: glibc converts the digits with
    [strtol], clamped to [long], and the result is converted to [int]
    (modulo 2^32). *)
Definition store_int (v : Z) : Z :=
  ((Z.max (- 2 ^ 63) (Z.min (2 ^ 63 - 1) v) + 2 ^ 31) mod 2 ^ 32 - 2 ^ 31)%Z.

End Scan.

(* ------------------------------------------------------------------ *)
(** ** Evaluator: [evaluate_variants] *)

Module Evaluator.
Import Combos Scan.

(** A BAM record as [fetch_reads] copies it. [r_qual] holds the stored
    [qual[i] / -10]; the CIGAR arrays only feed the debug trace and
    [inferred_length] ([bam_cigar2qlen]); [r_multimap] is the XA tag as
    [bam_aux_get] returns it, type byte ['Z'] included. *)
Record Read := mkRead {
  r_name : string;
  r_chr : string;
  r_pos : Z;
  r_length : Z;
  r_qseq : list ascii;
  r_qual : list R;
  r_inferred_length : Z;
  r_flag : string;
  r_multimap : option string
}.

(** The static globals read by [evaluate_variants] and [powerset]. *)
Record Globals := mkGlobals {
  g_maxh : Z;
  g_mvh : Z;
  g_hetbias : R;
  g_pao : Z
}.

(** One output line, as [print_variant] formats it:
    chr, pos, ref, alt, read_count, has_alt_count, prob, odds and the set
    descriptor [[pos,ref,alt;...]] (empty for a set of one variant).
    [l_var] is the [Variant *] the line is printed from. *)
Record Line := mkLine {
  l_var : nat;
  l_chr : string;
  l_pos : Z;
  l_ref : string;
  l_alt : string;
  l_read_count : Z;
  l_has_alt_count : Z;
  l_prob : R;
  l_odds : R;
  l_set : list (Z * string * string)
}.

Definition dummy_variant : Variant := mkVariant EmptyString 0 EmptyString EmptyString.

(** [sscanf(s, "%63[^,]%n", token, &n)]: one to 63 characters other than a comma. *)
Definition scan_token (s : list ascii) : option (list ascii * list ascii) :=
  let tok := take 63 (fst (span_until is_comma s)) in
  match tok with
  | [] => None
  | _ => Some (tok, drop (length tok) s)
  end.

(** [for (s = flag; sscanf(s, "%63[^,]%n", token, &n) == 1; s += n + 1)
      { ...; if ( *(s + n) != ',') break; }] *)
Fixpoint flag_tokens (s : list ascii) (fuel : nat) : list (list ascii) :=
  match fuel with
  | O => []
  | S f =>
      match scan_token s with
      | None => []
      | Some (tok, rest) =>
          match rest with
          | c :: rest' => if is_comma c then tok :: flag_tokens rest' f else [tok]
          | [] => [tok]
          end
      end
  end.

(** [is_unmap], [is_reverse], [is_secondary] from one token. *)
Definition flag_step (fl : bool * bool * bool) (tok : list ascii) : bool * bool * bool :=
  let '(u, r, s) := fl in
  let t := string_of_list_ascii tok in
  if String.eqb "UNMAP" t then (true, r, s)
  else if String.eqb "REVERSE" t then (u, true, s)
  else if String.eqb "SECONDARY" t || String.eqb "SUPPLEMENTARY" t then (u, r, true)
  else fl.

Definition read_flags (r : Read) : bool * bool * bool :=
  let s := list_ascii_of_string (r_flag r) in
  fold_left flag_step (flag_tokens s (S (length s))) (false, false, false).

(** One step of [sscanf(s, "%63[^,],%d,%*[^;]%n", xa_chr, &xa_pos, &n) == 2]:
    the chromosome, the position and the text at [s + n]. When the CIGAR
    field is missing the C call still returns 2 but leaves [n] unwritten; the
    model stops the loop there. *)
Definition scan_xa (s : list ascii) : option (list ascii * Z * list ascii) :=
  let '(name, r1) := span_until is_comma s in
  if ((length name =? 0)%nat || (63 <? length name)%nat)%bool then None
  else
    match r1 with
    | c :: r2 =>
        if is_comma c then
          match scan_int r2 with
          | Some (v, c' :: r4) =>
              if is_comma c' then
                let '(cigar, r5) := span_until is_semicolon r4 in
                match cigar with [] => None | _ => Some (name, store_int v, r5) end
              else None
          | _ => None
          end
        else None
    | [] => None
    end.

(** [for (s = multimap + 1; sscanf(...) == 2; s += n + 1)
      { if ( *(s + n) != ';') break; ... }] *)
Fixpoint xa_entries (s : list ascii) (fuel : nat) : list (list ascii * Z) :=
  match fuel with
  | O => []
  | S f =>
      match scan_xa s with
      | None => []
      | Some (name, v, rest) =>
          match rest with
          | c :: rest' => if is_semicolon c then (name, v) :: xa_entries rest' f else []
          | [] => []
          end
      end
  end.

Definition read_xa (m : string) : list (list ascii * Z) :=
  let s := tl (list_ascii_of_string m) in xa_entries s (S (length s)).

(** [sscanf(s1, "%[^\t]%n", token, &n1)] on the string [combo]: the longest
    prefix without a tab and the rest. *)
Fixpoint span_tab (s : list Z) : list Z * list Z :=
  match s with
  | [] => ([], [])
  | x :: r => if (x =? 9)%Z then ([], s) else let '(t, r') := span_tab r in (x :: t, r')
  end.

(** [for (s1 = combo; sscanf(s1, "%[^\t]%n", token, &n1) == 1 && seti < ncombos; s1 += n1 + 1)
      { var_combo[seti] = ...; for (s2 = token; *s2 != '\0'; ++s2) vector_add(..., var_set[*s2 - '\t' - 1]);
        ++seti; if ( *(s1 + n1) != '\t') break; }]:
    the index lists read back, [left] being [ncombos - seti]. [sscanf]
    returns 0 at a tab and [EOF] at the end of the string. *)
Fixpoint parse_combo (s : list Z) (left : nat) (fuel : nat) : list (list Z) :=
  match fuel with
  | O => []
  | S f =>
      match span_tab s with
      | ([], _) => []
      | (tok, rest) =>
          match left with
          | O => []
          | S left' =>
              map (fun x => x - 9 - 1)%Z tok ::
              match rest with
              | x :: rest' => if (x =? 9)%Z then parse_combo rest' left' f else []
              | [] => []
              end
          end
      end
  end.

(** The combinations [evaluate_variants] reads back from
    [combo = powerset(n, &ncombos)], as indices into [var_set]. *)
Definition combo_indices (maxh : Z) (n : nat) : list (list Z) :=
  let s := combo_string maxh (Z.of_nat n) in
  parse_combo s (Z.to_nat (ncombos maxh (Z.of_nat n))) (S (length s)).

(** [find_variant]: binary search on [pos], matching chr, ref, alt and pos. *)
Definition variant_eqb (v w : Variant) : bool :=
  String.eqb (chr v) (chr w) && String.eqb (ref v) (ref w) && String.eqb (alt v) (alt w) &&
  (pos v =? pos w)%Z.

Fixpoint find_variant_loop (a : list Variant) (v : Variant) (i j : Z) (fuel : nat) : Z :=
  match fuel with
  | O => (-1)%Z
  | S f =>
      if (i <=? j)%Z then
        let n := Z.quot (i + j) 2 in
        let curr := nth (Z.to_nat n) a dummy_variant in
        if variant_eqb v curr then n
        else if (pos curr <? pos v)%Z then find_variant_loop a v (n + 1)%Z j f
        else find_variant_loop a v i (n - 1)%Z f
      else (-1)%Z
  end.

Definition find_variant (a : list Variant) (v : Variant) : Z :=
  find_variant_loop a v 0 (Z.of_nat (length a) - 1)%Z (S (length a)).

(** [*altseq_length] as [construct_altseq] leaves it. *)
Definition variant_delta (curr : Variant) : Z :=
  let '(_, var_ref, var_alt) := effective_variant curr 0 in
  (Z.of_nat (length var_alt) - Z.of_nat (length var_ref))%Z.

Definition construct_altseq_length (refseq_length : Z) (var_combo : list Variant) : Z :=
  fold_left (fun l v => (l + variant_delta v)%Z) var_combo refseq_length.

Local Open Scope R_scope.

(** [if (read->qual[i] == 0) read->qual[i] = -0.01;] The C code writes the
    array back; the rewrite is idempotent, so every combination sees the
    same values. *)
Definition qual_fix (q : R) : R := if Req_EM_T q 0 then - (1 / 100) else q.

Definition read_is_match (r : Read) : list R :=
  map (fun q => ln (1 - exp (qual_fix q * M_1_LOG10E))) (r_qual r).

Definition read_no_match (r : Read) : list R :=
  map (fun q => qual_fix q * M_1_LOG10E - LG3) (r_qual r).

(** The "elsewhere" probability of a read. *)
Definition elsewhere_of (r : Read) : R :=
  let is_match := read_is_match r in
  let no_match := read_no_match r in
  let delta := zip_with Rminus no_match is_match in
  let a := sum is_match in
  log_add_exp a (a + log_sum_exp delta) - LGALPHA * IZR (r_length r - r_inferred_length r).

Definition fupd (f : nat -> R) (i : nat) (x : R) : nat -> R :=
  fun j => if Nat.eqb j i then x else f j.

(** The accumulators of the combination loop: [ref] and the arrays
    [pout], [prgu] persist across combinations; [alt[seti]], [het[seti]],
    [ref_count[seti]] and [alt_count[seti]] are those of the current one. *)
Record ReadState := mkReadState {
  st_ref : R;
  st_alt : R;
  st_het : R;
  st_ref_count : Z;
  st_alt_count : Z;
  st_pout : nat -> R;
  st_prgu : nat -> R
}.

Section Evaluate.

Variable g : Globals.
Variable fetch_reads : string -> Z -> Z -> list Read.
Variable fetch_refseq : string -> list ascii * Z.

(** The multi-map loop over the XA entries of one read; it threads
    [pout[readi]], [prgu[readi]] and [prgv]. *)
Fixpoint xa_loop (r : Read) (is_reverse : bool) (is_match no_match : list R) (matrix : Matrix)
    (seti : nat) (elsewhere : R) (pos0 : Z) (altseq : list ascii) (altseq_length : Z)
    (entries : list (list ascii * Z)) (pout prgu prgv : R) : R * R * R :=
  match entries with
  | [] => (pout, prgu, prgv)
  | (xa_chr, xa_pos) :: rest =>
      let '(xa_refseq, xa_refseq_length) := fetch_refseq (string_of_list_ascii xa_chr) in
      let L := r_length r in
      let p_matrix :=
        if ((xa_pos <? 0)%Z && negb is_reverse || (0 <? xa_pos)%Z && is_reverse)%bool
        then set_prob_matrix (reverse_compl (r_qseq r)) (Z.to_nat L)
               (reverse is_match) (reverse no_match)
        else matrix in
      let xa_pos' := (Z.abs xa_pos - 1)%Z in
      let readprobability := calc_prob_distrib p_matrix L xa_refseq xa_refseq_length xa_pos' in
      let pout' := if Nat.eqb seti 0 then log_add_exp pout elsewhere else pout in
      let prgu' := if Nat.eqb seti 0 then log_add_exp prgu readprobability else prgu in
      let readprobability' :=
        if String.eqb (string_of_list_ascii xa_chr) (r_chr r) && (Z.abs (xa_pos' - pos0) <? 50)%Z
        then calc_prob_distrib p_matrix L altseq altseq_length xa_pos'
        else readprobability in
      xa_loop r is_reverse is_match no_match matrix seti elsewhere pos0 altseq altseq_length
        rest pout' prgu' (log_add_exp prgv readprobability')
  end.

(** The body of [for (readi = 0; readi < nreads; ++readi)] in combination [seti]. *)
Definition read_step (refseq : list ascii) (refseq_length : Z) (alt_prior het_prior : R)
    (seti : nat) (pos0 : Z) (altseq : list ascii) (altseq_length : Z)
    (readi : nat) (r : Read) (st : ReadState) : ReadState :=
  let '(is_unmap, is_reverse, is_secondary) := read_flags r in
  if is_unmap then st
  else if (negb (g_pao g =? 0)%Z && is_secondary)%bool then st
  else
    let L := r_length r in
    let is_match := read_is_match r in
    let no_match := read_no_match r in
    let matrix := set_prob_matrix (r_qseq r) (Z.to_nat L) is_match no_match in
    let elsewhere := if Nat.eqb seti 0 then elsewhere_of r else 0 in
    let pout0 := if Nat.eqb seti 0 then elsewhere else st_pout st readi in
    let prgu0 :=
      if Nat.eqb seti 0 then calc_prob_distrib matrix L refseq refseq_length (r_pos r)
      else st_prgu st readi in
    let prgv0 := calc_prob_distrib matrix L altseq altseq_length (r_pos r) in
    let '(pout1, prgu1, prgv1) :=
      match r_multimap r with
      | Some m =>
          if (g_pao g =? 0)%Z
          then xa_loop r is_reverse is_match no_match matrix seti elsewhere pos0 altseq
                 altseq_length (read_xa m) pout0 prgu0 prgv0
          else (pout0, prgu0, prgv0)
      | None => (pout0, prgu0, prgv0)
      end in
    let prgu2 := if Nat.eqb seti 0 then log_add_exp (LGOMEGA - LG1_OMEGA + pout1) prgu1 else prgu1 in
    let prgv2 := log_add_exp (LGOMEGA - LG1_OMEGA + pout1) prgv1 in
    let phet := log_add_exp (LG50 + prgv2) (LG50 + prgu2) in
    let phet10 := log_add_exp (LG10 + prgv2) (LG90 + prgu2) in
    let phet90 := log_add_exp (LG90 + prgv2) (LG10 + prgu2) in
    let phet' := if Rgt_dec phet10 phet then phet10 else phet in
    let phet'' := if Rgt_dec phet90 phet' then phet90 else phet' in
    let is_alt := if Rgt_dec prgv2 prgu2 then if Rgt_dec (prgv2 - prgu2) (69 / 100) then true else false
                  else false in
    let is_ref := if Rgt_dec prgu2 prgv2 then if Rgt_dec (prgu2 - prgv2) (69 / 100) then true else false
                  else false in
    mkReadState
      (if Nat.eqb seti 0 then st_ref st + (prgu2 + REFPRIOR) else st_ref st)
      (st_alt st + (prgv2 + alt_prior))
      (st_het st + (phet'' + het_prior))
      (if is_alt then st_ref_count st else if is_ref then (st_ref_count st + 1)%Z else st_ref_count st)
      (if is_alt then (st_alt_count st + 1)%Z else st_alt_count st)
      (if Nat.eqb seti 0 then fupd (st_pout st) readi pout1 else st_pout st)
      (if Nat.eqb seti 0 then fupd (st_prgu st) readi prgu2 else st_prgu st).

Fixpoint reads_loop (refseq : list ascii) (refseq_length : Z) (alt_prior het_prior : R)
    (seti : nat) (pos0 : Z) (altseq : list ascii) (altseq_length : Z)
    (reads : list Read) (readi : nat) (st : ReadState) : ReadState :=
  match reads with
  | [] => st
  | r :: rest =>
      reads_loop refseq refseq_length alt_prior het_prior seti pos0 altseq altseq_length rest (S readi)
        (read_step refseq refseq_length alt_prior het_prior seti pos0 altseq altseq_length readi r st)
  end.

(** [for (seti = 0; seti < ncombos; ++seti)]: returns [ref] and, per
    combination, [(alt[seti], het[seti], ref_count[seti], alt_count[seti])]. *)
Fixpoint combos_loop (refseq : list ascii) (refseq_length : Z) (alt_prior het_prior : R)
    (reads : list Read) (var_combo : list (list Variant)) (seti : nat)
    (ref : R) (pout prgu : nat -> R) : R * list (R * R * Z * Z) :=
  match var_combo with
  | [] => (ref, [])
  | combo :: rest =>
      let altseq := construct_altseq refseq combo in
      let altseq_length := construct_altseq_length refseq_length combo in
      let pos0 := pos (nth 0 combo dummy_variant) in
      let st := reads_loop refseq refseq_length alt_prior het_prior seti pos0 altseq altseq_length
                  reads 0 (mkReadState ref 0 0 0 0 pout prgu) in
      let '(ref', accs) :=
        combos_loop refseq refseq_length alt_prior het_prior reads rest (S seti)
          (st_ref st) (st_pout st) (st_prgu st) in
      (ref', (st_alt st, st_het st, st_ref_count st, st_alt_count st) :: accs)
  end.

(** The prior terms: undivided for one variant or under [--mvh]. *)
Definition priors (nvariants : nat) (ncombos : Z) : R * R :=
  let hetbias := g_hetbias g in
  if (Nat.eqb nvariants 1 || negb (g_mvh g =? 0)%Z)%bool
  then (ln (1 / 2 * (1 - hetbias)), ln (1 / 2 * hetbias))
  else (ln (1 / 2 * (1 - hetbias) / IZR ncombos), ln (1 / 2 * hetbias / IZR ncombos)).

(** [total = ref; for (seti ...) total = log_add_exp(ref, log_add_exp(alt[seti], het[seti]));] *)
Definition marginal_total (ref : R) (accs : list (R * R * Z * Z)) : R :=
  fold_left (fun total acc => let '(a, h, _, _) := acc in log_add_exp ref (log_add_exp a h)) accs ref.

Definition max_count (counts : list Z) : Z :=
  fold_left (fun m c => if (c >? m)%Z then c else m) counts 0%Z.

(** [has_alt], [not_alt] and [has_alt_count] of one variant. *)
Definition variant_marginals (ref : R) (var_combo : list (list Variant))
    (accs : list (R * R * Z * Z)) (v : Variant) : R * R * Z :=
  fold_left
    (fun st ca =>
       let '(has_alt, not_alt, has_alt_count) := st in
       let '(combo, (a, h, _, ac)) := ca in
       if negb (find_variant combo v =? -1)%Z then
         (if Req_EM_T has_alt 0 then log_add_exp a h else log_add_exp has_alt (log_add_exp a h),
          not_alt,
          if (ac >? has_alt_count)%Z then ac else has_alt_count)
       else (has_alt, log_add_exp not_alt (log_add_exp a h), has_alt_count))
    (combine var_combo accs) (0, ref, 0%Z).

Definition set_descriptor (var_set : list Variant) : list (Z * string * string) :=
  if (1 <? length var_set)%nat then map (fun v => (pos v, ref v, alt v)) var_set else [].

Definition print_variant (ptr : nat) (var_set : list Variant) (v : Variant)
    (read_count has_alt_count : Z) (total has_alt not_alt : R) : Line :=
  mkLine ptr (chr v) (pos v) (ref v) (alt v) read_count has_alt_count
    ((has_alt - total) * M_1_LN10) ((has_alt - not_alt) * M_1_LN10) (set_descriptor var_set).

(** The array [var_combo]: the combinations read back from [combo], as
    lists of the set's variants. An index outside [0 .. nvariants - 1] is a
    read outside [var_set] in C (undefined behaviour); the model takes entry
    [Z.to_nat k] or the dummy there. When fewer combinations are read back
    than [ncombos], the C loops read entries of [var_combo] never written
    (undefined behaviour); the model runs over those read back. *)
Definition eval_combos (var_set : list Variant) : list (list Variant) :=
  map (map (fun k => nth (Z.to_nat k) var_set dummy_variant))
      (combo_indices (g_maxh g) (length var_set)).

(** [evaluate_variants] on a set given as pointers (indices) into [varlist];
    [None] is the [NULL] returned when the region has no reads. The region
    string is ["chr:(pos1 - 1)-(posn - 1)"]. *)
Definition evaluate_variants (varlist : list Variant) (set : list nat) : option (list Line) :=
  let var_set := map (fun k => nth k varlist dummy_variant) set in
  let nvariants := length var_set in
  let v0 := nth 0 var_set dummy_variant in
  let vn := nth (nvariants - 1) var_set dummy_variant in
  match fetch_reads (chr v0) (pos v0 - 1)%Z (pos vn - 1)%Z with
  | [] => None
  | reads =>
      let var_combo := eval_combos var_set in
      let ncombos := ncombos (g_maxh g) (Z.of_nat nvariants) in
      let '(refseq, refseq_length) := fetch_refseq (chr v0) in
      let '(alt_prior, het_prior) := priors nvariants ncombos in
      let '(ref, accs) :=
        combos_loop refseq refseq_length alt_prior het_prior reads var_combo 0 0
          (fun _ => 0) (fun _ => 0) in
      let total := marginal_total ref accs in
      let read_count :=
        (max_count (map (fun acc => let '(_, _, rc, _) := acc in rc) accs) +
         max_count (map (fun acc => let '(_, _, _, ac) := acc in ac) accs))%Z in
      Some (map (fun pv =>
                   let '(ptr, v) := pv in
                   let '(has_alt, not_alt, has_alt_count) := variant_marginals ref var_combo accs v in
                   print_variant ptr var_set v read_count has_alt_count total has_alt not_alt)
                (combine set var_set))
  end.

(** The reads [evaluate_variants] fetches for a set: those of its region. *)
Definition region_reads (varlist : list Variant) (set : list nat) : list Read :=
  let var_set := map (fun k => nth k varlist dummy_variant) set in
  let v0 := nth 0 var_set dummy_variant in
  let vn := nth (length var_set - 1) var_set dummy_variant in
  fetch_reads (chr v0) (pos v0 - 1)%Z (pos vn - 1)%Z.

Definition has_reads (varlist : list Variant) (set : list nat) : bool :=
  match region_reads varlist set with [] => false | _ => true end.

End Evaluate.

(** Reference notions for the primary-alignment-only mode ([--pao]): the
    reads the read loop skips ([continue] on [is_unmap], and on
    [pao && is_secondary]), a read without its XA tag, and the reads that
    remain of a fetch. *)
Definition is_skipped (g : Globals) (r : Read) : bool :=
  let '(is_unmap, _, is_secondary) := read_flags r in
  (is_unmap || negb (g_pao g =? 0)%Z && is_secondary)%bool.

Definition strip_xa (r : Read) : Read :=
  mkRead (r_name r) (r_chr r) (r_pos r) (r_length r) (r_qseq r) (r_qual r)
         (r_inferred_length r) (r_flag r) None.

Definition primary_view (g : Globals) (reads : list Read) : list Read :=
  map strip_xa (List.filter (fun r => negb (is_skipped g r)) reads).

(** The per-combination part of a read-loop state. *)
Definition state_proj (st : ReadState) : R * R * R * Z * Z :=
  (st_ref st, st_alt st, st_het st, st_ref_count st, st_alt_count st).

(** The arrays [pout], [prgu] of two runs agree on the reads kept from
    [reads] (entry [i] of the first run against entry [j] of the second). *)
Fixpoint arrays_agree (g : Globals) (p1 u1 p2 u2 : nat -> R) (reads : list Read) (i j : nat) : Prop :=
  match reads with
  | [] => True
  | r :: rest =>
      if is_skipped g r then arrays_agree g p1 u1 p2 u2 rest (S i) j
      else (p1 i = p2 j /\ u1 i = u2 j) /\ arrays_agree g p1 u1 p2 u2 rest (S i) (S j)
  end.

Local Close Scope R_scope.

(** The inputs on which every base that [set_prob_matrix] and [calc_prob]
    look up in [seqnt_map] has a matrix column ([matrix_col]): the fetched
    reads and the reference sequences are made of A, C, G, T, N and have
    the lengths their records give, and the alternative alleles that
    [construct_altseq] writes into the alternative sequence are made of
    these letters too. *)
Definition bases_ok (fetch_reads : string -> Z -> Z -> list Read)
    (fetch_refseq : string -> list ascii * Z) (varlist : list Variant) : Prop :=
  (forall c b e r, In r (fetch_reads c b e) ->
     Forall (fun x => is_acgtn x = true) (r_qseq r) /\
     length (r_qseq r) = Z.to_nat (r_length r) /\ length (r_qual r) = length (r_qseq r)) /\
  (forall c, Forall (fun x => is_acgtn x = true) (fst (fetch_refseq c)) /\
     Z.of_nat (length (fst (fetch_refseq c))) = snd (fetch_refseq c)) /\
  Forall (fun v => (is_dash (alt v) = true /\ is_dash (ref v) = false) \/
                   Forall (fun x => is_acgtn x = true) (list_ascii_of_string (alt v))) varlist.

End Evaluator.

(* ------------------------------------------------------------------ *)
(** ** Grouper and worker pool: [process_variants], [pool] *)

Module Grouper.
Import Evaluator.

Definition var_at (varlist : list Variant) (k : nat) : Variant := nth k varlist dummy_variant.

(** [while (distlim > 0 && j < nvariants && strcmp(varlist[j]->chr, varlist[j - 1]->chr) == 0
            && abs(varlist[j]->pos - varlist[j - 1]->pos) <= distlim) vector_add(curr, varlist[j++]);]
    returns the indices added and the final [j]. *)
Fixpoint group_extend (varlist : list Variant) (distlim : Z) (j : nat) (fuel : nat) : list nat * nat :=
  match fuel with
  | O => ([], j)
  | S f =>
      if ((0 <? distlim)%Z && (j <? length varlist)%nat &&
          String.eqb (chr (var_at varlist j)) (chr (var_at varlist (j - 1))) &&
          (Z.abs (pos (var_at varlist j) - pos (var_at varlist (j - 1))) <=? distlim)%Z)%bool
      then let '(l, j') := group_extend varlist distlim (S j) f in (j :: l, j')
      else ([], j)
  end.

(** [while (i < nvariants) { curr = [varlist[i]]; j = i + 1; ...; i = j; var_set[nsets++] = curr; }] *)
Fixpoint group_sets (varlist : list Variant) (distlim : Z) (i : nat) (fuel : nat) : list (list nat) :=
  match fuel with
  | O => []
  | S f =>
      if (i <? length varlist)%nat then
        let '(ext, j) := group_extend varlist distlim (S i) (length varlist) in
        (i :: ext) :: group_sets varlist distlim j f
      else []
  end.

(** The inner loop [for (j = 0; j < var_set[i]->size - 1; ++j)] on one set:
    at two neighbours with the same [pos], [dup = vector_dup(set)] loses
    entry [j + 1] and the set itself loses entry [j]. Returns the set as the
    loop leaves it and the duplicates in creation order. *)
Fixpoint split_scan (varlist : list Variant) (j : nat) (fuel : nat) (set : list nat)
  : list nat * list (list nat) :=
  match fuel with
  | O => (set, [])
  | S f =>
      if (S j <? length set)%nat then
        if (pos (var_at varlist (nth j set 0%nat)) =? pos (var_at varlist (nth (S j) set 0%nat)))%Z then
          let dup := delete (S j) set in
          let '(set', dups) := split_scan varlist (S j) f (delete j set) in
          (set', dup :: dups)
        else split_scan varlist (S j) f set
      else (set, [])
  end.

Definition split_set (varlist : list Variant) (set : list nat) : list nat * list (list nat) :=
  if (length set =? 1)%nat then (set, []) else split_scan varlist 0 (length set) set.

(** One pass of [while (flag)]: the sets updated in place, followed by the
    duplicates stored at [var_set[nsets + n++]]; and [flag]. *)
Definition split_pass (varlist : list Variant) (sets : list (list nat)) : list (list nat) * bool :=
  let results := map (split_set varlist) sets in
  (map fst results ++ concat (map snd results),
   existsb (fun r => match snd r with [] => false | _ => true end) results).

Fixpoint split_loop (varlist : list Variant) (fuel : nat) (sets : list (list nat)) : list (list nat) :=
  match fuel with
  | O => sets
  | S f => let '(sets', flag) := split_pass varlist sets in if flag then split_loop varlist f sets' else sets'
  end.

(** The sets grouping and splitting compute when every set they create is
    stored: the result of [process_variants]'s loops as long as they stay
    within [var_set] (see [hypothesis_sets]). *)
Definition split_sets (varlist : list Variant) (distlim : Z) : list (list nat) :=
  split_loop varlist (S (length varlist)) (group_sets varlist distlim 0 (length varlist)).

(** [while (flag)] on the array [var_set] of [cap = nvariants * 2] slots: a
    pass stores its duplicates at [var_set[nsets + n++]], so it writes past
    the array, a heap overflow, as soon as [nsets + n] exceeds [cap]: [None]. *)
Fixpoint split_loop_in (cap : nat) (varlist : list Variant) (fuel : nat) (sets : list (list nat))
  : option (list (list nat)) :=
  match fuel with
  | O => Some sets
  | S f =>
      let '(sets', flag) := split_pass varlist sets in
      if (cap <? length sets')%nat then None
      else if flag then split_loop_in cap varlist f sets' else Some sets'
  end.

(** The hypothesis sets of [process_variants]; [None] when the splitting
    writes past [var_set]. The grouping stores at most [nvariants] sets and
    stays within it. *)
Definition hypothesis_sets (varlist : list Variant) (distlim : Z) : option (list (list nat)) :=
  split_loop_in (2 * length varlist) varlist (S (length varlist))
    (group_sets varlist distlim 0 (length varlist)).

(** Reference predicates for the grouper's properties. *)

(** [R] holds between every two neighbours of [l]. *)
Fixpoint chain {A} (R : A -> A -> Prop) (l : list A) : Prop :=
  match l with
  | x :: ((y :: _) as t) => R x y /\ chain R t
  | _ => True
  end.

(** The order [qsort] with [nat_sort_var] leaves the variants in: two
    neighbours on the same chromosome come by position. *)
Definition sorted_input (varlist : list Variant) : Prop :=
  forall k, (S k < length varlist)%nat ->
  chr (var_at varlist k) = chr (var_at varlist (S k)) ->
  (pos (var_at varlist k) <= pos (var_at varlist (S k)))%Z.

(** Two neighbours of a set at the same position. *)
Fixpoint has_eq_adj (varlist : list Variant) (s : list nat) : bool :=
  match s with
  | x :: ((y :: _) as t) => (pos (var_at varlist x) =? pos (var_at varlist y))%Z || has_eq_adj varlist t
  | _ => false
  end.

(** Two entries of a set that the grouper may place side by side: same
    chromosome, positions at most [distlim] apart and in order. *)
Definition near (varlist : list Variant) (distlim : Z) (a b : nat) : Prop :=
  chr (var_at varlist a) = chr (var_at varlist b) /\
  (Z.abs (pos (var_at varlist b) - pos (var_at varlist a)) <= distlim)%Z /\
  (pos (var_at varlist a) <= pos (var_at varlist b))%Z.

(** The invariant of the sets through grouping and splitting: non-empty,
    neighbours [near], and a subsequence of [0 .. nvariants - 1]. *)
Definition good_set (varlist : list Variant) (distlim : Z) (s : list nat) : Prop :=
  s <> [] /\ chain (near varlist distlim) s /\ s `sublist_of` seq 0 (length varlist).

(** The size of the largest set that still has two neighbours at the same position. *)
Definition split_measure (varlist : list Variant) (sets : list (list nat)) : nat :=
  list_max (map (fun s => if has_eq_adj varlist s then length s else 0%nat) sets).

Section Pipeline.

Variable g : Globals.
Variable fetch_reads : string -> Z -> Z -> list Read.
Variable fetch_refseq : string -> list ascii * Z.

(** The non-[NULL] results of [evaluate_variants] over the sets, in queue
    order; [None] when the splitting overflows [var_set]. *)
Definition evaluated_sets (varlist : list Variant) (distlim : Z) : option (list (list Line)) :=
  option_map (omap (evaluate_variants g fetch_reads fetch_refseq varlist))
    (hypothesis_sets varlist distlim).

(** The [results] vector as the workers fill it (in an order fixed by the
    thread schedule) and as [qsort] reorders it: any permutation. The data
    lines printed are their concatenation. A run whose splitting overflows
    [var_set] has no defined output. *)
Definition process_output (varlist : list Variant) (distlim : Z) (out : list (list Line)) : Prop :=
  exists outs, evaluated_sets varlist distlim = Some outs /\ Permutation out outs.

End Pipeline.

End Grouper.

(* ------------------------------------------------------------------ *)
(** ** Command line: [parse_num] and [main]'s option handling *)

Module CommandLine.
Import Scan.

Definition LONG_MAX : Z := (2 ^ 63 - 1)%Z.
Definition LONG_MIN : Z := (- 2 ^ 63)%Z.

(** [strtol(str, &end, 0)]: [None] when no digit is converted ([end == str]),
    otherwise the value clamped to [long] and the text at [end]. Base 0:
    a ["0x"] prefix followed by a hex digit is hexadecimal, a leading ['0']
    octal, anything else decimal. *)
Definition strtol0 (str : list ascii) : option (Z * list ascii) :=
  let s1 := skip_spaces str in
  let '(neg, s2) :=
    match s1 with
    | c :: t => if Ascii.eqb c "-" then (true, t) else if Ascii.eqb c "+" then (false, t) else (false, s1)
    | [] => (false, s1)
    end in
  let '(base, s3) :=
    match s2 with
    | z :: x :: d :: _ =>
        if (Ascii.eqb z "0" && (Ascii.eqb x "x" || Ascii.eqb x "X") && is_digit_in 16 d)%bool
        then (16%Z, drop 2 s2)
        else if Ascii.eqb z "0" then (8%Z, s2) else (10%Z, s2)
    | z :: _ => if Ascii.eqb z "0" then (8%Z, s2) else (10%Z, s2)
    | [] => (10%Z, s2)
    end in
  match s3 with
  | c :: _ =>
      if is_digit_in base c then
        let '(v, rest) := scan_digits base s3 0 in
        let v' := if neg then (- v)%Z else v in
        Some (Z.max LONG_MIN (Z.min LONG_MAX v'), rest)
      else None
  | [] => None
  end.

(** [int num = strtol(...)]: [long] to [int], modulo 2^32 (gcc). *)
Definition to_int (v : Z) : Z := ((v + 2 ^ 31) mod 2 ^ 32 - 2 ^ 31)%Z.

Inductive parsed := PNum (v : Z) | PErr | PUndef.

(** [parse_num]. [PErr] is [exit_err] on leftover text. A long option is
    declared [optional_argument], so [--hetbias 1] leaves [optarg] [NULL]:
    [strtol(NULL, ...)] is undefined ([PUndef]). *)
Definition parse_num (optarg : option string) : parsed :=
  match optarg with
  | None => PUndef
  | Some s =>
      match strtol0 (list_ascii_of_string s) with
      | None => PNum 0
      | Some (v, []) => PNum (to_int v)
      | Some (_, _ :: _) => PErr
      end
  end.

Inductive long_flag := FMvh | FPao | FDebug.

(** What [getopt_long] hands to the [switch]: an option character with its
    [optarg] (['?'] for an unknown option), or 0 after storing 1 through the
    [flag] pointer of [--mvh], [--pao] or [--debug]. *)
Inductive getopt_item :=
| Opt (c : ascii) (optarg : option string)
| Flag (f : long_flag).

Record Options := mkOptions {
  vcf_file : option string;
  bam_file : option string;
  fa_file : option string;
  out_file : option string;
  numproc : Z;
  distlim : Z;
  maxh : Z;
  mvh : Z;
  hetbias : Q;
  pao : Z;
  debug : Z
}.

Inductive outcome :=
| Run (o : Options)
| Usage       (* exit_usage *)
| ExitErr     (* exit_err *)
| Undefined.  (* strtol(NULL, ...) *)

Definition default_options : Options :=
  mkOptions None None None None 1 10 1024 0 (1 # 2) 0 0.

Definition set_file (c : ascii) (arg : option string) (o : Options) : Options :=
  let '(mkOptions v a r out t n m mv b pa d) := o in
  if Ascii.eqb c "v" then mkOptions arg a r out t n m mv b pa d
  else if Ascii.eqb c "a" then mkOptions v arg r out t n m mv b pa d
  else if Ascii.eqb c "r" then mkOptions v a arg out t n m mv b pa d
  else mkOptions v a r arg t n m mv b pa d.

Definition set_num (c : ascii) (x : Z) (o : Options) : Options :=
  let '(mkOptions v a r out t n m mv b pa d) := o in
  if Ascii.eqb c "t" then mkOptions v a r out x n m mv b pa d
  else if Ascii.eqb c "n" then mkOptions v a r out t x m mv b pa d
  else if Ascii.eqb c "b" then mkOptions v a r out t n m mv (inject_Z x) pa d
  else mkOptions v a r out t n x mv b pa d.

Definition set_flag (f : long_flag) (o : Options) : Options :=
  let '(mkOptions v a r out t n m mv b pa d) := o in
  match f with
  | FMvh => mkOptions v a r out t n m 1 b pa d
  | FPao => mkOptions v a r out t n m mv b 1 d
  | FDebug => mkOptions v a r out t n m mv b pa 1
  end.

Definition is_one_of (c : ascii) (cs : list ascii) : bool := existsb (Ascii.eqb c) cs.

(** One case of the [switch (opt)]. *)
Definition apply_option (o : Options) (it : getopt_item) : outcome :=
  match it with
  | Flag f => Run (set_flag f o)
  | Opt c arg =>
      if is_one_of c ["v"; "a"; "r"; "o"]%char then Run (set_file c arg o)
      else if is_one_of c ["t"; "n"; "b"; "m"]%char then
        match parse_num arg with
        | PNum x => Run (set_num c x o)
        | PErr => ExitErr
        | PUndef => Undefined
        end
      else Usage
  end.

Fixpoint parse_options (o : Options) (items : list getopt_item) : outcome :=
  match items with
  | [] => Run o
  | it :: rest =>
      match apply_option o it with
      | Run o' => parse_options o' rest
      | r => r
      end
  end.

(** The checks and clamps after the option loop. *)
Definition finish_options (o : Options) : outcome :=
  let '(mkOptions v a r out t n m mv b pa d) := o in
  match v, a, r with
  | None, _, _ => Usage
  | _, None, _ => Usage
  | _, _, None => Usage
  | Some _, Some _, Some _ =>
      Run (mkOptions v a r out
             (if (t <? 1)%Z then 1%Z else t)
             (if (n <? 0)%Z then 0%Z else n)
             (if (m <? 0)%Z then 1024%Z else m)
             mv
             (if (negb (Qle_bool 0 b) || negb (Qle_bool b 1))%bool then 1 # 2 else b)
             pa d)
  end.

Definition main_options (items : list getopt_item) : outcome :=
  match parse_options default_options items with
  | Run o => finish_options o
  | r => r
  end.

(** [o] with [hetbias] cleared, to compare runs that differ only there. *)
Definition erase_hetbias (o : Options) : Options :=
  let '(mkOptions v a r out t n m mv _ pa d) := o in mkOptions v a r out t n m mv 0 pa d.

Definition erase_outcome (r : outcome) : outcome :=
  match r with Run o => Run (erase_hetbias o) | r => r end.

End CommandLine.

(* ------------------------------------------------------------------ *)
(** ** Columns of the probability matrix *)

Module Tables.

(** The column of the complementary base: the columns of A, T, G, C, N are
    0 .. 4 ([seqnt_map]), and A-T, G-C, N-N pair up. *)
Definition compl_col (c : nat) : nat :=
  match c with 0 => 1 | 1 => 0 | 2 => 3 | 3 => 2 | _ => c end%nat.

End Tables.

(* ------------------------------------------------------------------ *)
(** ** Vectors: [vector_init], [vector_add], [vector_del], [vector_pop],
    [vector_dup] *)

Module Containers.

(** A [Vector]: [size], [capacity] and the cells of [data]; a cell holds a
    pointer, [None] being [NULL]. Cells that were never written are never
    read by these functions; the model leaves them [NULL]. *)
Record Vector (A : Type) := mkVector {
  v_size : nat;
  v_capacity : nat;
  v_data : nat -> option A
}.
Arguments mkVector {A} _ _ _.
Arguments v_size {A} _.
Arguments v_capacity {A} _.
Arguments v_data {A} _ _.

Section Vectors.

Context {A : Type}.

Definition vector_init (initial_size : nat) : Vector A :=
  mkVector 0 initial_size (fun _ => None).

(** [if (a->size >= a->capacity) { a->capacity *= 2; realloc(...); }
      a->data[a->size++] = entry;] *)
Definition vector_add (a : Vector A) (entry : A) : Vector A :=
  let capacity := if (v_capacity a <=? v_size a)%nat then (2 * v_capacity a)%nat else v_capacity a in
  mkVector (S (v_size a)) capacity
    (fun k => if Nat.eqb k (v_size a) then Some entry else v_data a k).

(** [a->data[i] = NULL; if (i == --a->size) return;] then the copy into a
    fresh array: [data[1..]] when [i == 0 && size > 0], otherwise
    [data[0..i)] and [data[i+1..size+1)]. *)
Definition vector_del (a : Vector A) (i : nat) : Vector A :=
  let d0 := fun k => if Nat.eqb k i then None else v_data a k in
  let size := (v_size a - 1)%nat in
  if Nat.eqb i size then mkVector size (v_capacity a) d0
  else if (Nat.eqb i 0 && (0 <? size)%nat)%bool then
    mkVector size (v_capacity a) (fun k => if (k <? size)%nat then d0 (S k) else None)
  else
    mkVector size (v_capacity a)
      (fun k => if (k <? i)%nat then d0 k else if (k <? size)%nat then d0 (S k) else None).

(** [if (a->size <= 0) return NULL; entry = a->data[--a->size];
      a->data[a->size] = NULL; return entry;] *)
Definition vector_pop (a : Vector A) : Vector A * option A :=
  match v_size a with
  | O => (a, None)
  | S n => (mkVector n (v_capacity a) (fun k => if Nat.eqb k n then None else v_data a k), v_data a n)
  end.

(** [vector_create(a->capacity, a->type)] and the [memcpy] of [size] cells. *)
Definition vector_dup (a : Vector A) : Vector A :=
  mkVector (v_size a) (v_capacity a) (fun k => if (k <? v_size a)%nat then v_data a k else None).

(** The cells [data[0 .. size)]. *)
Definition contents (a : Vector A) : list (option A) := map (v_data a) (seq 0 (v_size a)).

End Vectors.

End Containers.

(* ------------------------------------------------------------------ *)
(** ** Reference cache: [fetch_refseq] *)

Module RefCache.

Record Fasta := mkFasta {
  f_name : string;
  f_seq : list ascii;
  f_seq_length : Z
}.

(** [toupper] in the C locale. *)
Definition toupper (c : ascii) : ascii :=
  let n := nat_of_ascii c in
  if ((97 <=? n)%nat && (n <=? 122)%nat)%bool then ascii_of_nat (n - 32) else c.

Section Cache.

(** [fai_load], [faidx_has_seq] and [fai_fetch] of htslib: the sequence of a
    name, [None] when the index has no such sequence (or does not load). *)
Variable fai_fetch : string -> option (list ascii).

(** The [Fasta] built on a miss: the name, the upper-cased sequence and
    the length [fai_fetch] reports. *)
Definition load_fasta (name : string) (seq : list ascii) : Fasta :=
  mkFasta name (map toupper seq) (Z.of_nat (length seq)).

(** [fetch_refseq(name, fa_file)] on the hash [refseq_hash] (a map from the
    sequence name to the bucket [Vector] of [Fasta]); [None] is [exit_err].
    The mutex makes each call atomic. *)
Definition fetch_refseq (refseq_hash : gmap string (list Fasta)) (name : string)
  : option (Fasta * gmap string (list Fasta)) :=
  match refseq_hash !! name with
  | Some node =>
      match List.find (fun f => String.eqb (f_name f) name) node with
      | Some f => Some (f, refseq_hash)
      | None => None
      end
  | None =>
      match fai_fetch name with
      | None => None
      | Some seq =>
          let f := load_fasta name seq in
          (* [kh_put] reports the key [absent]: [vector_init] then [vector_add] *)
          Some (f, <[name := [f]]> refseq_hash)
      end
  end.

(** A run of calls, one after the other, from a given hash. *)
Fixpoint fetch_all (refseq_hash : gmap string (list Fasta)) (names : list string)
  : option (list Fasta) :=
  match names with
  | [] => Some []
  | name :: rest =>
      match fetch_refseq refseq_hash name with
      | None => None
      | Some (f, h) => option_map (cons f) (fetch_all h rest)
      end
  end.

End Cache.

End RefCache.

(* ------------------------------------------------------------------ *)
(** ** Reference notions for the text formats: fields joined by a
    separator, and the value of a numeral *)

Module RefText.
Import Scan.

Definition join_with (sep : ascii) (ts : list (list ascii)) : list ascii :=
  match ts with
  | [] => []
  | t :: rest => t ++ concat (map (fun u => sep :: u) rest)
  end.

(** An optional sign written before a numeral: none, ['-'] or ['+']. *)
Definition sign_text (sg : option bool) : list ascii :=
  match sg with None => [] | Some true => ["-"%char] | Some false => ["+"%char] end.

Definition apply_sign (sg : option bool) (v : Z) : Z :=
  match sg with Some true => (- v)%Z | _ => v end.

(** One entry [name,<sign><digits>,<rest>;] of an XA tag. *)
Definition xa_text (e : list ascii * option bool * list ascii * list ascii) : list ascii :=
  let '(name, sg, ds, rest) := e in name ++ ","%char :: sign_text sg ++ ds ++ ","%char :: rest ++ [";"%char].

(** The base of an integer literal of C: octal after a leading ['0'],
    decimal otherwise. *)
Definition literal_base (ds : list ascii) : Z :=
  match ds with c :: _ => if Ascii.eqb c "0" then 8 else 10 | [] => 10 end.

(** The value of the digits [ds] in [base]. *)
Definition numeral (base : Z) (ds : list ascii) : Z :=
  fold_left (fun acc c => (acc * base + match digit_value c with Some d => d | None => 0 end)%Z) ds 0%Z.

End RefText.

(* ------------------------------------------------------------------ *)
(** ** VCF reader: [read_vcf] *)

Module VcfReader.
Import Scan.

(** [line[strspn(line, " \t\v\r\n")] == '\0']: the line holds only these. *)
Definition is_blank_char (c : ascii) : bool :=
  existsb (Ascii.eqb c) [" "; "009"; "011"; "013"; "010"]%char.

(** [%s]: white space skipped, then one or more other characters. *)
Definition scan_string (s : list ascii) : option (list ascii * list ascii) :=
  match span_until is_space (skip_spaces s) with
  | ([], _) => None
  | (w, rest) => Some (w, rest)
  end.

Definition is_tab_or_space (c : ascii) : bool := Ascii.eqb c "009" || Ascii.eqb c " ".

(** [sscanf(line, "%s %d %*[^\t ] %s %s", chr, &pos, ref, alt)] with its
    four conversions done; [None] when it returns less than 4. *)
Definition scan_vcf_fields (line : list ascii) : option (list ascii * Z * list ascii * list ascii) :=
  match scan_string line with
  | None => None
  | Some (c, r1) =>
      match scan_int r1 with
      | None => None
      | Some (p, r2) =>
          match span_until is_tab_or_space (skip_spaces r2) with
          | ([], _) => None
          | (_, r3) =>
              match scan_string r3 with
              | None => None
              | Some (rf, r4) =>
                  match scan_string r4 with
                  | None => None
                  | Some (al, _) => Some (c, store_int p, rf, al)
                  end
              end
          end
      end
  end.

Definition is_comma_or_space (c : ascii) : bool := is_comma c || Ascii.eqb c " ".

(** [sscanf(s, "%[^, ]%n", token, &n) == 1 || sscanf(s, "%[-]%n", token, &n) == 1] *)
Definition vcf_token (s : list ascii) : option (list ascii * list ascii) :=
  match span_until is_comma_or_space s with
  | ([], _) =>
      match span_until (fun c => negb (Ascii.eqb c "-")) s with
      | ([], _) => None
      | (t, rest) => Some (t, rest)
      end
  | (t, rest) => Some (t, rest)
  end.

(** [for (s = field; <vcf_token>; s += n + 1) { ...; if ( *(s + n) != ',') break; }] *)
Fixpoint vcf_tokens (s : list ascii) (fuel : nat) : list (list ascii) :=
  match fuel with
  | O => []
  | S f =>
      match vcf_token s with
      | None => []
      | Some (t, rest) =>
          match rest with
          | c :: rest' => if is_comma c then t :: vcf_tokens rest' f else [t]
          | [] => [t]
          end
      end
  end.

Definition field_tokens (s : list ascii) : list (list ascii) := vcf_tokens s (S (length s)).

(** What one line of the file gives: skipped (blank or ['#']), the
    [exit_err] of a line with fewer than four fields, or the variants it adds,
    one per reference token and alternative token, reference-major. *)
Inductive vcf_line := VSkip | VBad | VRecs (vs : list Variant).

Definition vcf_record (line : list ascii) : vcf_line :=
  match scan_vcf_fields line with
  | None => VBad
  | Some (c, p, rf, al) =>
      VRecs (concat (map (fun r =>
               map (fun a => mkVariant (string_of_list_ascii c) p (string_of_list_ascii r)
                                       (string_of_list_ascii a))
                   (field_tokens al))
             (field_tokens rf)))
  end.

Definition read_vcf_line (line : list ascii) : vcf_line :=
  if forallb is_blank_char line then VSkip
  else match line with
       | c :: _ => if Ascii.eqb c "#" then VSkip else vcf_record line
       | [] => VSkip
       end.

(** The [getline] loop of [read_vcf] over the lines of the file (each a C
    string), before the [qsort]; [None] is [exit_err]. *)
Fixpoint read_vcf_lines (lines : list (list ascii)) : option (list Variant) :=
  match lines with
  | [] => Some []
  | l :: rest =>
      match read_vcf_line l with
      | VSkip => read_vcf_lines rest
      | VBad => None
      | VRecs vs => option_map (app vs) (read_vcf_lines rest)
      end
  end.

End VcfReader.

(* ------------------------------------------------------------------ *)
(** ** Sample inputs *)

Module Samples.
Import Evaluator.

Definition g0 : Globals := mkGlobals 1024 0 (1 / 2)%R 0.

(** One mapped read, forward strand, no XA tag. *)
Definition r0 : Read :=
  mkRead "r1" "chr1" 99 1 ["A"%char] [30%R] 1 "0" None.

Definition fs0 (_ : string) : list ascii * Z := ([], 0%Z).

(** Two variants at chr1:100, one at chr1:105, one on chr2, sorted. *)
Definition vl0 : list Variant :=
  [mkVariant "chr1" 100 "A" "G"; mkVariant "chr1" 100 "A" "T";
   mkVariant "chr1" 105 "C" "T"; mkVariant "chr2" 5 "C" "T"].

(** [--pao] set. *)
Definition g1 : Globals := mkGlobals 1024 0 (1 / 2)%R 1.

(** A secondary alignment, and a primary one with an XA tag. *)
Definition r_sec : Read :=
  mkRead "r2" "chr1" 99 1 ["A"%char] [30%R] 1 "SECONDARY" None.

Definition r_xa : Read :=
  mkRead "r1" "chr1" 99 1 ["A"%char] [30%R] 1 "0" (Some "Zchr2,+500,1M,0;"%string).

(** A single variant. *)
Definition vl1 : list Variant := [mkVariant "chr1" 100 "A" "G"].

(** [--mvh] set. *)
Definition gm : Globals := mkGlobals 1024 1 (1 / 2)%R 0.

(** Three variants within a few bases. *)
Definition vl3 : list Variant :=
  [mkVariant "chr1" 100 "A" "G"; mkVariant "chr1" 102 "C" "T"; mkVariant "chr1" 104 "G" "A"].

End Samples.

(* ------------------------------------------------------------------ *)
(** ** Natural sort: [nat_sort_cmp] and its callers [nat_sort_str],
    [nat_sort_var] *)

Module NatSort.
Import Scan CommandLine.

(** The C-locale classes of [<ctype.h>]. A [char] above 127 is negative
    on the target, and glibc's tables put it in no class. *)
Definition c_isalpha (c : ascii) : bool :=
  let n := nat_of_ascii c in ((65 <=? n) && (n <=? 90)) || ((97 <=? n) && (n <=? 122)).

Definition c_ispunct (c : ascii) : bool :=
  let n := nat_of_ascii c in
  ((33 <=? n) && (n <=? 47)) || ((58 <=? n) && (n <=? 64)) ||
  ((91 <=? n) && (n <=? 96)) || ((123 <=? n) && (n <=? 126)).

Definition c_tolower (c : ascii) : ascii :=
  let n := nat_of_ascii c in if (65 <=? n) && (n <=? 90) then ascii_of_nat (n + 32) else c.

(** [(x > y) - (x < y)]. *)
Definition cmp3 (x y : Z) : Z :=
  if (x >? y)%Z then 1%Z else if (x <? y)%Z then (-1)%Z else 0%Z.

(** [strcmp] on the bytes as [unsigned char]. Only the sign of its result
    is specified, and the model returns that sign. *)
Fixpoint c_strcmp (s1 s2 : list ascii) : Z :=
  match s1, s2 with
  | [], [] => 0%Z
  | [], _ :: _ => (-1)%Z
  | _ :: _, [] => 1%Z
  | c1 :: t1, c2 :: t2 =>
      let k := cmp3 (Z.of_nat (nat_of_ascii c1)) (Z.of_nat (nat_of_ascii c2)) in
      if (k =? 0)%Z then c_strcmp t1 t2 else k
  end.

(** [strcasecmp(s1, s2) == 0]. *)
Definition strcasecmp_eq (s1 s2 : string) : bool :=
  bool_decide (map c_tolower (list_ascii_of_string s1) = map c_tolower (list_ascii_of_string s2)).

(** [sscanf(s, "%d%n", &i, &n)] with an [int i]: the value glibc stores
    ([strtol]'s clamp to [long], then the conversion to [int]) and the text
    after the [n] characters read; [None] when nothing is converted (a
    result of 0 or [EOF]). *)
Definition scan_d (s : list ascii) : option (Z * list ascii) :=
  match scan_int s with
  | Some (v, rest) => Some (to_int (Z.max LONG_MIN (Z.min LONG_MAX v)), rest)
  | None => None
  end.

(** [sscanf(s, "%*[^0123456789]%d%n", &i, &n)]: a non-empty run of
    non-digits, then [%d]. *)
Definition scan_d_after_nondigits (s : list ascii) : option (Z * list ascii) :=
  match s with
  | c :: _ => if is_digit_in 10 c then None else scan_d (snd (span_until (is_digit_in 10) s))
  | [] => None
  end.

(** [t = sscanf(s, "%d%n", ...); if (t == 0) t = sscanf(s, "%*[^0123456789]%d%n", ...);]
    with [t >= 1] as [Some]. When the first call gives [EOF] (only white
    space left) the second is skipped; it would convert nothing either. *)
Definition scan_number (s : list ascii) : option (Z * list ascii) :=
  match scan_d s with
  | Some r => Some r
  | None => scan_d_after_nondigits s
  end.

(** The [while (cmp == 0 && *s1 != '\0' && *s2 != '\0')] loop of
    [nat_sort_cmp] on the strings after [s1] and [s2] (C strings without
    their NUL), one iteration per unit of [fuel]; [None] when the fuel runs
    out. The [tolower] writes go to private copies that are read no more. *)
Fixpoint cmp_loop (fuel : nat) (cmp : Z) (s1 s2 : list ascii) : option Z :=
  match fuel with
  | O => None
  | S f =>
      match cmp, s1, s2 with
      | Z0, c1 :: t1, c2 :: t2 =>
          if is_space c1 && is_space c2 then cmp_loop f 0%Z t1 t2
          else if (c_isalpha c1 && c_isalpha c2) || (c_ispunct c1 && c_ispunct c2) then
            cmp_loop f (cmp3 (Z.of_nat (nat_of_ascii (c_tolower c1)))
                             (Z.of_nat (nat_of_ascii (c_tolower c2)))) t1 t2
          else
            match scan_number s1, scan_number s2 with
            | Some (i1, r1), Some (i2, r2) =>
                let c := cmp3 i1 i2 in
                if (c =? 0)%Z then cmp_loop f c r1 r2 else cmp_loop f c s1 s2
            | _, _ => cmp_loop f (c_strcmp s1 s2) s1 s2
            end
      | _, _, _ => Some cmp
      end
  end.

(** [nat_sort_str(a, b)], that is [nat_sort_cmp(a, b, VOID_T)] on two
    strings, the [qsort] order of the result lines in [process_variants]. *)
Definition nat_sort_str (fuel : nat) (a b : string) : option Z :=
  cmp_loop fuel 0%Z (list_ascii_of_string a) (list_ascii_of_string b).

(** [nat_sort_var(a, b)], that is [nat_sort_cmp(a, b, VARIANT_T)], the
    [qsort] order of [read_vcf]: variants whose chromosomes are equal up to
    case are ordered by position, others by the loop on the names. *)
Definition nat_sort_var (fuel : nat) (c1 c2 : Variant) : option Z :=
  if strcasecmp_eq (chr c1) (chr c2) then Some (cmp3 (pos c1) (pos c2))
  else cmp_loop fuel 0%Z (list_ascii_of_string (chr c1)) (list_ascii_of_string (chr c2)).

End NatSort.

(** Witness inputs for the properties of the text formats, the options,
    the vectors, the grouper and the reference cache. *)
Module MoreSamples.
Import Evaluator CommandLine Containers RefCache.

(** A read of one base, with a quality of -3 stored. *)
Definition r_lowq : Read := mkRead "r3" "chr1" 99 1 ["A"%char] [(-3)%R] 1 "0" None.

(** A reverse-strand secondary alignment. *)
Definition r_flags : Read :=
  mkRead "r4" "chr1" 99 1 ["A"%char] [(-3)%R] 1 "PAIRED,REVERSE,SECONDARY" None.

(** [-v in.vcf -a in.bam -r ref.fa -t 0 -m -5 --mvh]. *)
Definition ex_items : list getopt_item :=
  [Opt "v" (Some "in.vcf"); Opt "a" (Some "in.bam"); Opt "r" (Some "ref.fa");
   Opt "t" (Some "0"); Opt "m" (Some "-5"); Flag FMvh].

(** A vector of three entries. *)
Definition v3 : Vector nat :=
  vector_add (vector_add (vector_add (vector_init 8) 10) 11) 12.

(** Five variants at one position. *)
Definition vl_same : list Variant :=
  map (fun a => mkVariant "chr1" 100 "A" a) ["C"; "G"; "T"; "N"; "AC"]%string.

(** An index holding one sequence, [chr1]. *)
Definition fai0 (name : string) : option (list ascii) :=
  if String.eqb name "chr1" then Some (list_ascii_of_string "acgtN") else None.

End MoreSamples.

(** Auxiliary notions of the proofs below. *)
Module Notions.
Import Scan Evaluator Grouper CommandLine RefCache.

(** A flag token [sscanf] reads whole: 1 to 63 characters, no comma. *)
Definition flag_ok (t : list ascii) : Prop :=
  t <> [] /\ (length t <= 63)%nat /\ Forall (fun c => is_comma c = false) t.

Definition is_unmap_tok (t : list ascii) : bool := String.eqb "UNMAP" (string_of_list_ascii t).
Definition is_reverse_tok (t : list ascii) : bool := String.eqb "REVERSE" (string_of_list_ascii t).
Definition is_secondary_tok (t : list ascii) : bool :=
  String.eqb "SECONDARY" (string_of_list_ascii t) || String.eqb "SUPPLEMENTARY" (string_of_list_ascii t).

(** An XA entry [read_xa] reads whole. *)
Definition xa_ok (e : list ascii * option bool * list ascii * list ascii) : Prop :=
  let '(name, sg, ds, rest) := e in
  name <> [] /\ (length name <= 63)%nat /\ Forall (fun c => is_comma c = false) name /\
  ds <> [] /\ Forall (fun c => is_digit_in 10 c = true) ds /\
  rest <> [] /\ Forall (fun c => is_semicolon c = false) rest.

(** A VCF list token: non-empty, no white space, no comma. *)
Definition tok_ok (t : list ascii) : Prop :=
  t <> [] /\ Forall (fun c => is_space c = false /\ is_comma c = false) t.

(** The long flags are 0 or 1. *)
Definition flags_ok (o : Options) : Prop :=
  (mvh o = 0 \/ mvh o = 1)%Z /\ (pao o = 0 \/ pao o = 1)%Z /\ (debug o = 0 \/ debug o = 1)%Z.

(** The sum of [2 ^ (size - 1)] over sets. *)
Definition weight (sets : list (list nat)) : nat :=
  list_sum (map (fun s => 2 ^ (length s - 1)) sets).

(** A non-empty set of variants all at position [p]. *)
Definition at_p (varlist : list Variant) (p : Z) (s : list nat) : Prop :=
  s <> [] /\ Forall (fun i => pos (var_at varlist i) = p) s.

(** Every entry of the hash is what [fai_fetch] gives for its name. *)
Definition cache_ok (fai_fetch : string -> option (list ascii)) (h : gmap string (list Fasta)) : Prop :=
  forall k fs, h !! k = Some fs -> exists seq, fai_fetch k = Some seq /\ fs = [load_fasta k seq].

End Notions.

(* ================================================================== *)
(** * Properties *)

Module CombosFacts.
Import Combos.

Lemma links_from_app {A} (f : A -> option A) x l1 y l2 e :
  links_from f x (l1 ++ y :: l2) e <-> links_from f x l1 (Some y) /\ links_from f y l2 e.
Proof.
  revert x. induction l1 as [|z l1 IH]; intros x; simpl.
  - tauto.
  - rewrite IH. tauto.
Qed.

Lemma length_ramp a m : length (ramp a m) = m.
Proof. unfold ramp. by rewrite length_map, length_seq. Qed.

Lemma ramp_S a m : ramp a (S m) = a :: ramp (a + 1)%Z m.
Proof.
  unfold ramp. simpl. f_equal; [lia|].
  rewrite <- seq_shift, map_map. apply map_ext. intros t. lia.
Qed.

Lemma lex_from_nil k lo cnt : (cnt < k)%nat -> lex_from k lo cnt = [].
Proof.
  revert k lo. induction cnt as [|cnt IH]; intros [|k] lo Hlt; simpl; try lia; auto.
  rewrite !IH by lia. reflexivity.
Qed.

Lemma lex_from_head k lo cnt : (k <= cnt)%nat -> exists L, lex_from k lo cnt = ramp lo k :: L.
Proof.
  revert k lo. induction cnt as [|cnt IH]; intros [|k] lo Hle; simpl; try lia.
  - eexists. reflexivity.
  - eexists. reflexivity.
  - destruct (IH k (lo + 1)%Z) as [L HL]; [lia|]. rewrite HL, ramp_S. simpl.
    eexists. reflexivity.
Qed.

Lemma lex_from_lengths k lo cnt : Forall (fun z => length z = k) (lex_from k lo cnt).
Proof.
  revert k lo. induction cnt as [|cnt IH]; intros [|k] lo; simpl; auto.
  apply Forall_app. split; [|apply IH].
  apply Forall_map. eapply Forall_impl; [apply IH|]. simpl. auto.
Qed.

Lemma links_from_cons n lo a A e m :
  links_from (succ n) a A e -> Forall (fun z => length z = m) (a :: A) ->
  links_from (succ n) (lo :: a) (map (cons lo) A)
    (match e with
     | Some z => Some (lo :: z)
     | None => if (lo + Z.of_nat (S m) <? n)%Z then Some (ramp (lo + 1) (S m)) else None
     end).
Proof.
  revert a. induction A as [|b A IH]; intros a Hl Hlen; simpl in *.
  - rewrite Hl. inversion Hlen as [|? ? Ha _]. rewrite Ha. destruct e; reflexivity.
  - destruct Hl as [Hab Hl]. rewrite Hab. split; [reflexivity|].
    apply IH; [exact Hl|]. inversion Hlen; auto.
Qed.

Lemma lex_from_links k lo cnt x L :
  lex_from k lo cnt = x :: L -> links_from (succ (lo + Z.of_nat cnt)) x L None.
Proof.
  revert k lo x L. induction cnt as [|cnt IH]; intros [|k] lo x L Hlex; simpl in Hlex.
  - injection Hlex as <- <-. reflexivity.
  - discriminate.
  - injection Hlex as <- <-. reflexivity.
  - destruct (decide (k <= cnt)%nat) as [Hk|Hk].
    2:{ rewrite !lex_from_nil in Hlex by lia. discriminate. }
    destruct (lex_from_head k (lo + 1)%Z cnt Hk) as [A HA].
    rewrite HA in Hlex. simpl in Hlex. injection Hlex as <- HL.
    pose proof (IH k (lo + 1)%Z _ _ HA) as HlA.
    pose proof (lex_from_lengths k (lo + 1)%Z cnt) as Hlen. rewrite HA in Hlen.
    replace (lo + 1 + Z.of_nat cnt)%Z with (lo + Z.of_nat (S cnt))%Z in HlA by lia.
    pose proof (links_from_cons (lo + Z.of_nat (S cnt)) lo _ _ None k HlA Hlen) as Hc.
    destruct (decide (S k <= cnt)%nat) as [Hk'|Hk'].
    + destruct (lex_from_head (S k) (lo + 1)%Z cnt Hk') as [B HB].
      rewrite HB in HL. subst L.
      apply links_from_app. split.
      * replace (lo + Z.of_nat (S k) <? lo + Z.of_nat (S cnt))%Z with true in Hc
          by (symmetry; apply Z.ltb_lt; lia).
        exact Hc.
      * pose proof (IH (S k) (lo + 1)%Z _ _ HB) as HlB.
        replace (lo + 1 + Z.of_nat cnt)%Z with (lo + Z.of_nat (S cnt))%Z in HlB by lia.
        exact HlB.
    + rewrite lex_from_nil in HL by lia. rewrite app_nil_r in HL. subst L.
      replace (lo + Z.of_nat (S k) <? lo + Z.of_nat (S cnt))%Z with false in Hc
        by (symmetry; apply Z.ltb_ge; lia).
      exact Hc.
Qed.


Lemma last_free_none n l :
  last_free n l = None ->
  forall j, (j < length l)%nat -> (n <= nth j l 0 + Z.of_nat (length l - j))%Z.
Proof.
  induction l as [|x rest IH]; simpl; intros H j Hj; [lia|].
  destruct (last_free n rest) eqn:E; [discriminate|].
  destruct (x + Z.of_nat (S (length rest)) <? n)%Z eqn:E2; [discriminate|].
  apply Z.ltb_ge in E2.
  destruct j as [|j]; simpl; [lia|].
  apply IH; [reflexivity|lia].
Qed.

Lemma last_free_some n l p :
  last_free n l = Some p ->
  (p < length l)%nat /\ (nth p l 0 + Z.of_nat (length l - p) < n)%Z /\
  forall j, (p < j < length l)%nat -> (n <= nth j l 0 + Z.of_nat (length l - j))%Z.
Proof.
  revert p. induction l as [|x rest IH]; simpl; intros p H; [discriminate|].
  destruct (last_free n rest) as [q|] eqn:E.
  - injection H as <-. destruct (IH q eq_refl) as (H1 & H2 & H3).
    split; [lia|]. split; [exact H2|].
    intros [|j] Hj; simpl; [lia|]. apply H3. lia.
  - destruct (x + Z.of_nat (S (length rest)) <? n)%Z eqn:E2; [|discriminate].
    injection H as <-. apply Z.ltb_lt in E2. simpl.
    split; [lia|]. split; [lia|].
    intros [|j] Hj; simpl; [lia|]. eapply last_free_none; [exact E|lia].
Qed.

Lemma succ_last_free n l :
  succ n l = match last_free n l with
             | None => None
             | Some p => Some (take p l ++ ramp (nth p l 0 + 1)%Z (length l - p))
             end.
Proof.
  induction l as [|x rest IH]; simpl; [reflexivity|].
  rewrite IH. destruct (last_free n rest) as [q|]; [reflexivity|].
  destruct (x + Z.of_nat (S (length rest)) <? n)%Z; reflexivity.
Qed.

Lemma upd_incr_from c i K :
  (i < K)%Z -> upd (incr_from c (i + 1) K) i (incr_from c (i + 1) K i + 1)%Z = incr_from c i K.
Proof.
  intros Hi. extensionality j. unfold upd, incr_from.
  destruct (Z.eqb_spec j i) as [->|Hj].
  - replace ((i + 1 <=? i)%Z) with false by (symmetry; apply Z.leb_gt; lia).
    replace ((i <=? i)%Z && (i <? K)%Z) with true by (symmetry; apply andb_true_iff; split; [apply Z.leb_le|apply Z.ltb_lt]; lia).
    reflexivity.
  - destruct (i + 1 <=? j)%Z eqn:E1; destruct (i <=? j)%Z eqn:E2;
      try (apply Z.leb_le in E1); try (apply Z.leb_gt in E1);
      try (apply Z.leb_le in E2); try (apply Z.leb_gt in E2); simpl; try reflexivity; lia.
Qed.

Lemma carry_spec n K c P :
  (-1 <= P < K)%Z ->
  ((0 <= P)%Z -> (c P + (K - P) < n)%Z) ->
  (forall j, (P < j < K)%Z -> (n <= c j + (K - j))%Z) ->
  forall fuel i, (P <= i < K)%Z -> (Z.to_nat (i - P) < fuel)%nat ->
  carry n K fuel (incr_from c i K) i = (incr_from c P K, P).
Proof.
  intros HP Hfree Hmaxed fuel. induction fuel as [|f IH]; intros i Hi Hfuel; [lia|].
  simpl. destruct (Z.eq_dec i P) as [->|Hne].
  - destruct ((0 <=? P)%Z && (P <? K)%Z && (n - K + 1 + P <=? incr_from c P K P)%Z) eqn:E;
      [|reflexivity].
    exfalso. apply andb_true_iff in E as [E E3]. apply andb_true_iff in E as [E1 E2].
    apply Z.leb_le in E1, E3. unfold incr_from in E3.
    rewrite (proj2 (Z.leb_le P P) (Z.le_refl P)), (proj2 (Z.ltb_lt P K) (proj2 HP)) in E3.
    simpl in E3. specialize (Hfree E1). lia.
  - assert (Hc : ((0 <=? i)%Z && (i <? K)%Z && (n - K + 1 + i <=? incr_from c i K i)%Z) = true).
    { unfold incr_from.
      rewrite (proj2 (Z.leb_le i i) (Z.le_refl i)), (proj2 (Z.ltb_lt i K) (proj2 Hi)). simpl.
      rewrite (proj2 (Z.leb_le 0 i)) by lia. simpl.
      apply Z.leb_le. specialize (Hmaxed i). lia. }
    rewrite Hc.
    pose proof (upd_incr_from c (i - 1) K) as Hu.
    replace (i - 1 + 1)%Z with i in Hu by lia.
    rewrite Hu by lia.
    apply IH; lia.
Qed.

Lemma reset_spec K fuel :
  forall t i, (Z.to_nat (K - i) <= fuel)%nat ->
  reset K fuel t i = (fun j => if (i <=? j)%Z && (j <? K)%Z then (t (i - 1) + (j - i + 1))%Z else t j).
Proof.
  induction fuel as [|f IH]; intros t i Hf; simpl.
  - extensionality j. destruct (i <=? j)%Z eqn:E1; destruct (j <? K)%Z eqn:E2; simpl; try reflexivity.
    apply Z.leb_le in E1. apply Z.ltb_lt in E2. lia.
  - destruct (i <? K)%Z eqn:EK.
    + rewrite IH by lia. extensionality j. unfold upd.
      replace (i + 1 - 1)%Z with i by lia. rewrite Z.eqb_refl.
      apply Z.ltb_lt in EK.
      destruct (Z.eqb_spec j i) as [->|Hj].
      * replace (i + 1 <=? i)%Z with false by (symmetry; apply Z.leb_gt; lia).
        rewrite (proj2 (Z.leb_le i i) (Z.le_refl i)), (proj2 (Z.ltb_lt i K) EK). simpl. lia.
      * destruct (i + 1 <=? j)%Z eqn:E1; destruct (i <=? j)%Z eqn:E2; destruct (j <? K)%Z eqn:E3;
          try (apply Z.leb_le in E1); try (apply Z.leb_gt in E1);
          try (apply Z.leb_le in E2); try (apply Z.leb_gt in E2); simpl; try lia.
    + extensionality j. apply Z.ltb_ge in EK.
      destruct (i <=? j)%Z eqn:E1; destruct (j <? K)%Z eqn:E2; simpl; try reflexivity.
      apply Z.leb_le in E1. apply Z.ltb_lt in E2. lia.
Qed.

Lemma token_of_nat m c : comb (Z.of_nat m) c = map (fun j => c (Z.of_nat j)) (seq 0 m).
Proof. unfold comb. rewrite Nat2Z.id, map_map. reflexivity. Qed.

Lemma nth_token m c j : (j < m)%nat -> nth j (comb (Z.of_nat m) c) 0%Z = c (Z.of_nat j).
Proof.
  intros Hj. rewrite token_of_nat.
  rewrite (nth_indep _ _ (c (Z.of_nat 0))) by (rewrite length_map, length_seq; lia).
  rewrite (map_nth (fun j => c (Z.of_nat j))), seq_nth by lia. reflexivity.
Qed.

Lemma length_token m c : length (comb (Z.of_nat m) c) = m.
Proof. by rewrite token_of_nat, length_map, length_seq. Qed.

Lemma incr_seq c m : forall s,
  incr (map (fun j => c (Z.of_nat j)) (seq s m)) ->
  forall j : nat, (s <= j)%nat -> (j + 1 < s + m)%nat -> (c (Z.of_nat j) < c (Z.of_nat j + 1))%Z.
Proof.
  induction m as [|m IH]; intros s Hi j Hs Hj; [lia|].
  destruct m as [|m]; [lia|].
  simpl in Hi. destruct Hi as [H1 H2].
  destruct (decide (j = s)) as [->|Hne].
  - replace (Z.of_nat s + 1)%Z with (Z.of_nat (S s)) by lia. exact H1.
  - apply (IH (S s)); [exact H2|lia|lia].
Qed.

Lemma incr_token m c :
  incr (comb (Z.of_nat m) c) -> forall j, (0 <= j)%Z -> (j + 1 < Z.of_nat m)%Z -> (c j < c (j + 1))%Z.
Proof.
  rewrite token_of_nat. intros Hi j Hj0 Hj.
  pose proof (incr_seq c m 0 Hi (Z.to_nat j)) as H.
  rewrite Z2Nat.id in H by lia. apply H; lia.
Qed.

Lemma incr_mono c K :
  (forall j, (0 <= j)%Z -> (j + 1 < K)%Z -> (c j < c (j + 1))%Z) ->
  forall q : nat, (Z.of_nat q < K)%Z -> (c 0 + Z.of_nat q <= c (Z.of_nat q))%Z.
Proof.
  intros Hm q. induction q as [|q IH]; intros Hq; [change (Z.of_nat 0) with 0%Z; lia|].
  specialize (IH ltac:(lia)). specialize (Hm (Z.of_nat q) ltac:(lia) ltac:(lia)).
  replace (Z.of_nat (S q)) with (Z.of_nat q + 1)%Z by lia. lia.
Qed.

Lemma map_seq_ext {B} (f g : nat -> B) l : forall s1 s2,
  (forall t, (t < l)%nat -> f (s1 + t)%nat = g (s2 + t)%nat) -> map f (seq s1 l) = map g (seq s2 l).
Proof.
  induction l as [|l IH]; intros s1 s2 H; simpl; [reflexivity|].
  f_equal.
  - specialize (H 0%nat ltac:(lia)). rewrite !Nat.add_0_r in H. exact H.
  - apply IH. intros t Ht. specialize (H (S t) ltac:(lia)).
    replace (S s1 + t)%nat with (s1 + S t)%nat by lia.
    replace (S s2 + t)%nat with (s2 + S t)%nat by lia. exact H.
Qed.

Lemma upd_last_incr_from c K : upd c (K - 1) (c (K - 1) + 1)%Z = incr_from c (K - 1) K.
Proof.
  extensionality j. unfold upd, incr_from.
  destruct (Z.eqb_spec j (K - 1)) as [->|Hj].
  - replace ((K - 1 <=? K - 1)%Z && (K - 1 <? K)%Z) with true
      by (symmetry; apply andb_true_iff; split; [apply Z.leb_le|apply Z.ltb_lt]; lia).
    reflexivity.
  - destruct (K - 1 <=? j)%Z eqn:E1; destruct (j <? K)%Z eqn:E2; simpl; try reflexivity.
    apply Z.leb_le in E1. apply Z.ltb_lt in E2. lia.
Qed.

Lemma next_comb_succ n m c :
  (1 <= m)%nat -> incr (comb (Z.of_nat m) c) ->
  option_map (comb (Z.of_nat m)) (next_comb n (Z.of_nat m) c) = succ n (comb (Z.of_nat m) c).
Proof.
  intros Hm Hinc. pose proof (incr_token m c Hinc) as Hmono.
  rewrite succ_last_free. unfold next_comb. rewrite upd_last_incr_from.
  destruct (last_free n (comb (Z.of_nat m) c)) as [p|] eqn:E.
  - destruct (last_free_some _ _ _ E) as (Hp & Hfree & Hmax).
    rewrite length_token in Hp.
    rewrite length_token in Hfree.
    rewrite nth_token in Hfree by lia.
    assert (Hfree' : (0 <= Z.of_nat p)%Z -> (c (Z.of_nat p) + (Z.of_nat m - Z.of_nat p) < n)%Z).
    { intros _. rewrite Nat2Z.inj_sub in Hfree by lia. lia. }
    assert (Hmax' : forall j, (Z.of_nat p < j < Z.of_nat m)%Z -> (n <= c j + (Z.of_nat m - j))%Z).
    { intros j Hj. specialize (Hmax (Z.to_nat j) ltac:(rewrite length_token; lia)).
      rewrite length_token, nth_token, Z2Nat.id in Hmax by lia.
      rewrite Nat2Z.inj_sub in Hmax by lia. lia. }
    rewrite (carry_spec n (Z.of_nat m) c (Z.of_nat p) ltac:(lia) Hfree' Hmax') by lia.
    cbn beta iota.
    replace (n - Z.of_nat m <? incr_from c (Z.of_nat p) (Z.of_nat m) 0)%Z with false.
    2:{ symmetry. apply Z.ltb_ge. unfold incr_from.
        rewrite Nat2Z.inj_sub in Hfree by lia.
        rewrite (proj2 (Z.ltb_lt 0 (Z.of_nat m))) by lia.
        destruct (decide (p = 0%nat)) as [->|Hp0].
        - change (Z.of_nat 0) with 0%Z in *. simpl. lia.
        - pose proof (incr_mono c (Z.of_nat m) Hmono p ltac:(lia)).
          rewrite (proj2 (Z.leb_gt (Z.of_nat p) 0)) by lia. simpl. lia. }
    simpl. f_equal.
    rewrite reset_spec by lia.
    rewrite nth_token by lia. rewrite length_token.
    rewrite !token_of_nat.
    replace m with (p + (m - p))%nat at 1 2 by lia.
    rewrite seq_app, !map_app.
    rewrite take_app_length' by (rewrite length_map, length_seq; lia).
    f_equal.
    + apply map_seq_ext. intros t Ht. simpl. unfold incr_from.
      destruct (Z.of_nat p + 1 <=? Z.of_nat t)%Z eqn:E1; [apply Z.leb_le in E1; lia|].
      destruct (Z.of_nat p <=? Z.of_nat t)%Z eqn:E2; [apply Z.leb_le in E2; lia|].
      reflexivity.
    + unfold ramp. apply map_seq_ext. intros t Ht. simpl. unfold incr_from.
      replace (Z.of_nat p + 1 - 1)%Z with (Z.of_nat p) by lia.
      rewrite (proj2 (Z.leb_le (Z.of_nat p) (Z.of_nat p)) (Z.le_refl _)).
      rewrite (proj2 (Z.ltb_lt (Z.of_nat p) (Z.of_nat m))) by lia. simpl.
      destruct t as [|t].
      * replace (Z.of_nat p + 1 <=? Z.of_nat (p + 0))%Z with false by (symmetry; apply Z.leb_gt; lia).
        rewrite Nat.add_0_r.
        rewrite (proj2 (Z.leb_le (Z.of_nat p) (Z.of_nat p)) (Z.le_refl _)).
        rewrite (proj2 (Z.ltb_lt (Z.of_nat p) (Z.of_nat m))) by lia. simpl. lia.
      * rewrite (proj2 (Z.leb_le (Z.of_nat p + 1) (Z.of_nat (p + S t)))) by lia.
        rewrite (proj2 (Z.ltb_lt (Z.of_nat (p + S t)) (Z.of_nat m))) by lia. simpl. lia.
  - pose proof (last_free_none _ _ E) as Hnone. rewrite length_token in Hnone.
    assert (Hmax' : forall j, (-1 < j < Z.of_nat m)%Z -> (n <= c j + (Z.of_nat m - j))%Z).
    { intros j Hj. specialize (Hnone (Z.to_nat j) ltac:(lia)).
      rewrite nth_token, Z2Nat.id in Hnone by lia.
      rewrite Nat2Z.inj_sub in Hnone by lia. lia. }
    rewrite (carry_spec n (Z.of_nat m) c (-1) ltac:(lia) ltac:(lia) Hmax') by lia.
    cbn beta iota.
    replace (n - Z.of_nat m <? incr_from c (-1) (Z.of_nat m) 0)%Z with true; [reflexivity|].
    symmetry. apply Z.ltb_lt. unfold incr_from.
    rewrite (proj2 (Z.leb_le (-1) 0)) by lia. rewrite (proj2 (Z.ltb_lt 0 (Z.of_nat m))) by lia. simpl.
    specialize (Hnone 0%nat ltac:(lia)). rewrite nth_token in Hnone by lia. change (Z.of_nat 0) with 0%Z in Hnone. rewrite Nat.sub_0_r in Hnone.
    lia.
Qed.


Lemma lex_from_ge k lo cnt : Forall (Forall (fun x => (lo <= x)%Z)) (lex_from k lo cnt).
Proof.
  revert k lo. induction cnt as [|cnt IH]; intros [|k] lo; simpl; auto.
  apply Forall_app. split.
  - apply Forall_map. eapply Forall_impl; [apply IH|]. intros a Ha. simpl.
    constructor; [lia|]. eapply Forall_impl; [exact Ha|]. simpl. lia.
  - eapply Forall_impl; [apply IH|]. intros a Ha. eapply Forall_impl; [exact Ha|]. simpl. lia.
Qed.

Lemma lex_from_incr k lo cnt : Forall incr (lex_from k lo cnt).
Proof.
  revert k lo. induction cnt as [|cnt IH]; intros [|k] lo; simpl; try (repeat constructor; fail).
  apply Forall_app. split; [|apply IH].
  apply Forall_map. pose proof (IH k (lo + 1)%Z) as H1. pose proof (lex_from_ge k (lo + 1)%Z cnt) as H2.
  assert (H : Forall (fun a => incr a /\ Forall (fun x => (lo + 1 <= x)%Z) a) (lex_from k (lo + 1) cnt)) by (apply Forall_and; auto).
  eapply Forall_impl; [exact H|].
  intros [|x a] [Hi Hg]; simpl; auto.
  inversion Hg; subst. split; [lia|exact Hi].
Qed.

Lemma length_lex_from k lo cnt : length (lex_from k lo cnt) = binom cnt k.
Proof.
  revert k lo. induction cnt as [|cnt IH]; intros [|k] lo; simpl; auto.
  rewrite length_app, length_map, !IH. reflexivity.
Qed.

Lemma binom_le_pow n k : (binom n k <= 2 ^ n)%nat.
Proof.
  revert k. induction n as [|n IH]; intros [|k]; simpl; try lia.
  - pose proof (Nat.pow_nonzero 2 n). lia.
  - specialize (IH k) as H1. pose proof (IH (S k)) as H2. lia.
Qed.

Lemma combinations_loop_links n m :
  forall L x c fuel,
  comb (Z.of_nat m) c = x ->
  links_from (succ n) x L None ->
  Forall incr (x :: L) ->
  (length L < fuel)%nat -> (1 <= m)%nat ->
  combinations_loop n (Z.of_nat m) fuel c = x :: L.
Proof.
  induction L as [|y L IH]; intros x c fuel Hx Hl Hi Hf Hm; (destruct fuel as [|f]; [simpl in Hf; lia|]);
    simpl; rewrite Hx; f_equal.
  - pose proof (next_comb_succ n m c Hm) as Hs.
    rewrite Hx in Hs. inversion Hi; subst. specialize (Hs H1). simpl in Hl. rewrite Hl in Hs.
    destruct (next_comb n (Z.of_nat m) c); [discriminate|reflexivity].
  - destruct Hl as [Hxy Hl].
    pose proof (next_comb_succ n m c Hm) as Hs. rewrite Hx in Hs.
    inversion Hi as [|? ? Hix HiL]; subst. specialize (Hs Hix). rewrite Hxy in Hs.
    destruct (next_comb n (Z.of_nat m) c) as [c'|]; [|discriminate].
    injection Hs as Hc'. apply IH; auto. simpl in Hf. lia.
Qed.

Lemma combinations_lex k n :
  (1 <= k <= n)%nat -> combinations (Z.of_nat k) (Z.of_nat n) = lex_from k 0 n.
Proof.
  intros Hk. destruct (lex_from_head k 0 n ltac:(lia)) as [L HL].
  unfold combinations. rewrite HL.
  apply combinations_loop_links.
  - unfold ramp. rewrite token_of_nat. apply map_ext. intros t. lia.
  - pose proof (lex_from_links k 0 n _ _ HL) as H. simpl in H. exact H.
  - rewrite <- HL. apply lex_from_incr.
  - pose proof (length_lex_from k 0 n) as H. rewrite HL in H. simpl in H.
    pose proof (binom_le_pow n k).
    replace (Z.to_nat (2 ^ Z.of_nat n)) with (2 ^ n)%nat; [lia|].
    rewrite <- (Nat2Z.id (2 ^ n)%nat), Nat2Z.inj_pow. reflexivity.
  - lia.
Qed.


Lemma binom_1 n : binom n 1 = n.
Proof. induction n as [|n IH]; simpl; [reflexivity|]. rewrite IH. destruct n; reflexivity. Qed.

Lemma binom_gt n k : (n < k)%nat -> binom n k = 0%nat.
Proof.
  revert k. induction n as [|n IH]; intros [|k] Hk; simpl; try lia; auto.
  rewrite !IH by lia. reflexivity.
Qed.

Lemma binom_n n : binom n n = 1%nat.
Proof. induction n as [|n IH]; simpl; [reflexivity|]. rewrite IH, binom_gt by lia. reflexivity. Qed.

Lemma powerset_loop_sizes maxh n :
  (2 <= n)%nat ->
  forall fuel k acc s, (2 <= k)%nat -> Z.of_nat (length acc) = (Z.of_nat n + 1 + s)%Z ->
  powerset_loop maxh (Z.of_nat n) (Z.of_nat k) fuel acc =
  acc ++ concat (map (fun j => lex_from j 0 n) (middle_sizes_from maxh n k fuel s)).
Proof.
  intros Hn fuel. induction fuel as [|f IH]; intros k acc s Hk Hlen; simpl.
  - by rewrite app_nil_r.
  - destruct (Nat.leb_spec k (n - 1)) as [Hkn|Hkn].
    + rewrite (proj2 (Z.leb_le (Z.of_nat k) (Z.of_nat n - 1))) by lia.
      rewrite combinations_lex by lia.
      rewrite length_app, length_lex_from, Nat2Z.inj_add, Hlen.
      replace (Z.of_nat n + 1 + s + Z.of_nat (binom n k) - Z.of_nat n - 1)%Z
        with (s + Z.of_nat (binom n k))%Z by lia.
      destruct (maxh <=? s + Z.of_nat (binom n k))%Z.
      * simpl. by rewrite app_nil_r.
      * replace (Z.of_nat k + 1)%Z with (Z.of_nat (S k)) by lia.
        rewrite (IH (S k) _ (s + Z.of_nat (binom n k))%Z); [|lia|].
        -- simpl. by rewrite app_assoc.
        -- rewrite length_app, length_lex_from, Nat2Z.inj_add, Hlen. lia.
    + rewrite (proj2 (Z.leb_gt (Z.of_nat k) (Z.of_nat n - 1))) by lia.
      simpl. by rewrite app_nil_r.
Qed.

Lemma powerset_shape maxh n :
  (2 <= n)%nat ->
  powerset maxh (Z.of_nat n) =
  lex_from 1 0 n ++ lex_from n 0 n ++ concat (map (fun k => lex_from k 0 n) (middle_sizes maxh n)).
Proof.
  intros Hn. unfold powerset, middle_sizes.
  rewrite (proj2 (Z.ltb_lt 1 (Z.of_nat n))) by lia.
  change 1%Z with (Z.of_nat 1). rewrite !combinations_lex by lia.
  change 2%Z with (Z.of_nat 2). rewrite Nat2Z.id.
  rewrite (powerset_loop_sizes maxh n Hn n 2 _ 0); [|lia|].
  - by rewrite app_assoc.
  - rewrite length_app, !length_lex_from, binom_1, binom_n. lia.
Qed.


Lemma lex_from_1 lo cnt : lex_from 1 lo cnt = map (fun i => [(lo + Z.of_nat i)%Z]) (seq 0 cnt).
Proof.
  revert lo. induction cnt as [|cnt IH]; intros lo; simpl; [reflexivity|].
  rewrite IH. replace (lex_from 0 (lo + 1)%Z cnt) with [@nil Z] by (destruct cnt; reflexivity).
  simpl. rewrite Z.add_0_r. f_equal. rewrite <- seq_shift, map_map. apply map_ext. intros i. f_equal. lia.
Qed.

Lemma lex_from_full lo n : lex_from n lo n = [ramp lo n].
Proof.
  revert lo. induction n as [|n IH]; intros lo; [reflexivity|].
  change (lex_from (S n) lo (S n)) with (map (cons lo) (lex_from n (lo + 1)%Z n) ++ lex_from (S n) (lo + 1)%Z n).
  rewrite IH, (lex_from_nil (S n) (lo + 1)%Z n) by lia. rewrite ramp_S. reflexivity.
Qed.

End CombosFacts.

Module AltSeqFacts.

Lemma length_list_ascii_of_string s : length (list_ascii_of_string s) = String.length s.
Proof. induction s as [|c s IH]; simpl; auto. Qed.

Theorem construct_altseq_spec :
  (forall refseq, construct_altseq refseq [] = refseq) /\
  (forall refseq c p r a,
     r <> "-"%char -> a <> "-"%char -> (1 <= p <= Z.of_nat (length refseq))%Z ->
     let altseq := construct_altseq refseq [mkVariant c p (String r EmptyString) (String a EmptyString)] in
     length altseq = length refseq /\
     altseq !! Z.to_nat (p - 1) = Some a /\
     (forall i, i <> Z.to_nat (p - 1) -> altseq !! i = refseq !! i)) /\
  (forall refseq c p ins,
     (0 <= p <= Z.of_nat (length refseq))%Z ->
     let altseq := construct_altseq refseq [mkVariant c p "-" ins] in
     altseq = take (Z.to_nat p) refseq ++ list_ascii_of_string ins ++ drop (Z.to_nat p) refseq /\
     length altseq = (length refseq + String.length ins)%nat /\
     (forall i, (i < Z.to_nat p)%nat -> altseq !! i = refseq !! i) /\
     (forall i, (Z.to_nat p <= i)%nat -> altseq !! (i + String.length ins)%nat = refseq !! i)).
Proof.
  split; [reflexivity|]. split.
  - intros refseq c p r a Hr Ha Hp altseq.
    assert (Hsnp : altseq = <[Z.to_nat (p - 1) := a]> refseq).
    { subst altseq. unfold construct_altseq. simpl.
      unfold effective_variant, is_dash. simpl.
      rewrite (proj2 (Ascii.eqb_neq r "-"%char) Hr), (proj2 (Ascii.eqb_neq a "-"%char) Ha).
      simpl. rewrite Z.add_0_r. reflexivity. }
    rewrite Hsnp. split; [apply length_insert|]. split.
    + apply list_lookup_insert_eq. lia.
    + intros i Hi. apply list_lookup_insert_ne. congruence.
  - intros refseq c p ins Hp altseq.
    assert (Hins : altseq = take (Z.to_nat p) refseq ++ list_ascii_of_string ins ++ drop (Z.to_nat p) refseq).
    { subst altseq. unfold construct_altseq. simpl.
      unfold effective_variant, is_dash. simpl.
      replace (p - 1 + 0 + 1)%Z with p by lia. simpl.
      rewrite Nat.add_0_r, Z.sub_0_r.
      destruct (Z.eqb_spec (Z.of_nat (length (list_ascii_of_string ins))) 0) as [E|E].
      - destruct ins; simpl in E; [|lia]. simpl. by rewrite take_drop.
      - reflexivity. }
    rewrite Hins. split; [reflexivity|].
    assert (Hlt : length (take (Z.to_nat p) refseq) = Z.to_nat p) by (rewrite length_take; lia).
    split; [|split].
    + rewrite !length_app, length_take, length_drop, length_list_ascii_of_string. lia.
    + intros i Hi. rewrite lookup_app_l by lia. rewrite lookup_take. case_decide; [reflexivity|lia].
    + intros i Hi. rewrite lookup_app_r by lia. rewrite lookup_app_r
        by (rewrite Hlt, length_list_ascii_of_string; lia).
      rewrite lookup_drop, Hlt, length_list_ascii_of_string. f_equal. lia.
Qed.

End AltSeqFacts.

Module ComboStringFacts.
Import Combos CombosFacts Evaluator.

Lemma lex_from_lt k lo cnt :
  Forall (Forall (fun x => (x < lo + Z.of_nat cnt)%Z)) (lex_from k lo cnt).
Proof.
  revert k lo. induction cnt as [|cnt IH]; intros [|k] lo; simpl; auto.
  apply Forall_app. split.
  - apply Forall_map. eapply Forall_impl; [apply IH|]. intros a Ha. simpl.
    constructor; [lia|]. eapply Forall_impl; [exact Ha|]. simpl. lia.
  - eapply Forall_impl; [apply IH|]. intros a Ha. eapply Forall_impl; [exact Ha|]. simpl. lia.
Qed.

Lemma lex_from_entries k n :
  (1 <= k)%nat ->
  Forall (fun cb => cb <> [] /\ Forall (fun x => (0 <= x < Z.of_nat n)%Z) cb) (lex_from k 0 n).
Proof.
  intros Hk. pose proof (lex_from_lengths k 0 n) as H1. pose proof (lex_from_ge k 0 n) as H2.
  pose proof (lex_from_lt k 0 n) as H3.
  rewrite List.Forall_forall in H1, H2, H3 |- *. intros cb Hin. split.
  - intros ->. specialize (H1 _ Hin). simpl in H1. lia.
  - specialize (H2 _ Hin). specialize (H3 _ Hin). rewrite List.Forall_forall in H2, H3 |- *.
    intros x Hx. specialize (H2 x Hx). specialize (H3 x Hx). lia.
Qed.

Lemma middle_sizes_from_ge maxh n k fuel acc :
  Forall (fun j => (k <= j)%nat) (middle_sizes_from maxh n k fuel acc).
Proof.
  revert k acc. induction fuel as [|f IH]; intros k acc; simpl; [constructor|].
  destruct (k <=? n - 1)%nat; [|constructor].
  destruct (maxh <=? _)%Z; constructor; try lia; [constructor|].
  eapply Forall_impl; [apply IH|]. simpl. lia.
Qed.

(** Every combination [powerset] lists is non-empty, with entries in [0 .. n - 1]. *)
Lemma powerset_entries maxh n :
  (2 <= n)%nat ->
  Forall (fun cb => cb <> [] /\ Forall (fun x => (0 <= x < Z.of_nat n)%Z) cb) (powerset maxh (Z.of_nat n)).
Proof.
  intros Hn. rewrite powerset_shape by exact Hn.
  apply Forall_app. split; [apply lex_from_entries; lia|].
  apply Forall_app. split; [apply lex_from_entries; lia|].
  apply Forall_concat, List.Forall_forall. intros cbs Hin. apply in_map_iff in Hin.
  destruct Hin as [k [<- Hk]]. apply lex_from_entries.
  pose proof (middle_sizes_from_ge maxh n 2 n 0) as Hm. rewrite List.Forall_forall in Hm.
  specialize (Hm k Hk). lia.
Qed.

Lemma span_tab_app t rest :
  Forall (fun x => x <> 9%Z) t -> span_tab (t ++ 9%Z :: rest) = (t, 9%Z :: rest).
Proof.
  induction 1 as [|x t Hx Ht IH]; simpl; [reflexivity|].
  rewrite (proj2 (Z.eqb_neq x 9) Hx), IH. reflexivity.
Qed.

(** Reading back tokens [t ++ '\t'], each non-empty and without a tab. *)
Lemma parse_combo_app ts rest left fuel :
  Forall (fun t => t <> [] /\ Forall (fun x => x <> 9%Z) t) ts ->
  (length ts <= left)%nat -> (length ts <= fuel)%nat ->
  parse_combo (concat (map (fun t => t ++ [9%Z]) ts) ++ rest) left fuel =
  map (map (fun x => x - 9 - 1)%Z) ts ++ parse_combo rest (left - length ts) (fuel - length ts).
Proof.
  intros H. revert left fuel. induction H as [|t ts [Hne Ht] Hts IH]; intros left fuel Hl Hf.
  - simpl. rewrite !Nat.sub_0_r. reflexivity.
  - destruct left as [|left']; [simpl in Hl; lia|]. destruct fuel as [|f]; [simpl in Hf; lia|].
    cbn [map concat]. rewrite <- !app_assoc. cbn [parse_combo app].
    rewrite span_tab_app by exact Ht.
    destruct t as [|a t']; [congruence|]. rewrite Z.eqb_refl.
    rewrite IH by (simpl in *; lia). reflexivity.
Qed.

Lemma parse_combo_nil left fuel : parse_combo [] left fuel = [].
Proof. destruct fuel, left; reflexivity. Qed.

Lemma c_str_tab l : Forall (fun x => x <> 0%Z) l -> c_str (l ++ [9%Z]) = l ++ [9%Z].
Proof.
  induction 1 as [|x l Hx Hl IH]; simpl; [reflexivity|].
  rewrite (proj2 (Z.eqb_neq x 0) Hx), IH. reflexivity.
Qed.

Lemma to_char_small x : (0 <= x <= 117)%Z -> to_char (x + 9 + 1) = (x + 10)%Z.
Proof. intros H. unfold to_char. rewrite Z.mod_small by lia. lia. Qed.

Lemma length_concat_tab ts : (length ts <= length (concat (map (fun t => t ++ [9%Z]) ts)))%nat.
Proof. induction ts as [|t ts IH]; simpl; [lia|]. rewrite !length_app. simpl. lia. Qed.

Lemma ncombos_length maxh n : Z.to_nat (ncombos maxh n) = length (powerset maxh n).
Proof. unfold ncombos. apply Nat2Z.id. Qed.

(** For at most 118 variants the characters [c[i] + '\t' + 1] are 10 .. 127
    and [combo] reads back as the list [powerset] built. *)
Lemma combo_indices_small maxh n :
  (2 <= n <= 118)%nat -> combo_indices maxh n = powerset maxh (Z.of_nat n).
Proof.
  intros Hn. pose proof (powerset_entries maxh n ltac:(lia)) as He.
  set (P := powerset maxh (Z.of_nat n)) in *.
  set (ts := map (map (fun x => (x + 10)%Z)) P).
  assert (Hs : combo_string maxh (Z.of_nat n) = concat (map (fun t => t ++ [9%Z]) ts) ++ []).
  { rewrite app_nil_r. unfold combo_string, ts. fold P. rewrite map_map. f_equal.
    apply map_ext_in. intros cb Hcb. rewrite List.Forall_forall in He.
    destruct (He cb Hcb) as [_ Hx]. unfold token.
    assert (E : map (fun x => to_char (x + 9 + 1)) cb = map (fun x => (x + 10)%Z) cb).
    { apply map_ext_in. intros x Hin. rewrite List.Forall_forall in Hx.
      specialize (Hx x Hin). apply to_char_small. lia. }
    rewrite E. apply c_str_tab. apply Forall_map. eapply Forall_impl; [exact Hx|]. simpl. lia. }
  assert (Hts : Forall (fun t => t <> [] /\ Forall (fun x => x <> 9%Z) t) ts).
  { unfold ts. apply Forall_map. eapply Forall_impl; [exact He|]. intros cb [Hne Hx]. split.
    - destruct cb; [congruence|discriminate].
    - apply Forall_map. eapply Forall_impl; [exact Hx|]. simpl. lia. }
  unfold combo_indices. rewrite ncombos_length. fold P. rewrite Hs.
  rewrite parse_combo_app; [| exact Hts | unfold ts; rewrite length_map; lia
                           | pose proof (length_concat_tab ts); rewrite length_app; lia].
  rewrite parse_combo_nil, app_nil_r. unfold ts.
  rewrite map_map. transitivity (map (fun x => x) P); [|apply map_id].
  apply map_ext. intros cb. rewrite map_map. transitivity (map (fun x => x) cb); [|apply map_id].
  apply map_ext. intros x. lia.
Qed.

(** From 119 variants on, the singleton of index 118 is written as the
    character [(char)128 = -128] and read back as index [-138]. *)
Lemma combo_indices_large maxh n :
  (119 <= n)%nat -> nth 118 (combo_indices maxh n) [] = [(-138)%Z].
Proof.
  intros Hn.
  set (ts := map (fun i => [to_char (Z.of_nat i + 9 + 1)]) (seq 0 119)).
  assert (Hok : forallb (fun i => negb (to_char (Z.of_nat i + 9 + 1) =? 0)%Z &&
                                  negb (to_char (Z.of_nat i + 9 + 1) =? 9)%Z) (seq 0 119) = true)
    by (vm_compute; reflexivity).
  rewrite forallb_forall in Hok.
  assert (Hts : Forall (fun t => t <> [] /\ Forall (fun x => x <> 9%Z) t) ts).
  { unfold ts. apply Forall_map, List.Forall_forall. intros i Hi. specialize (Hok i Hi).
    apply andb_prop in Hok. destruct Hok as [_ H9]. apply negb_true_iff, Z.eqb_neq in H9.
    split; [discriminate|]. constructor; [exact H9|constructor]. }
  unfold combo_indices. rewrite ncombos_length. unfold combo_string.
  rewrite (powerset_shape maxh n ltac:(lia)), lex_from_1.
  replace (seq 0 n) with (seq 0 119 ++ seq 119 (n - 119)) by (rewrite <- seq_app; f_equal; lia).
  rewrite map_app, !map_app, concat_app.
  assert (Ep : concat (map (fun cb => c_str (token cb))
                         (map (fun i => [(0 + Z.of_nat i)%Z]) (seq 0 119))) =
               concat (map (fun t => t ++ [9%Z]) ts)).
  { unfold ts. rewrite !map_map. apply (f_equal (@concat Z)). apply map_ext_in. intros i Hi.
    specialize (Hok i Hi). apply andb_prop in Hok. destruct Hok as [H0 _].
    apply negb_true_iff, Z.eqb_neq in H0. rewrite Z.add_0_l. unfold token. simpl.
    rewrite (proj2 (Z.eqb_neq _ 0) H0). reflexivity. }
  rewrite !concat_app, <- !app_assoc, Ep.
  rewrite parse_combo_app; [| exact Hts
    | unfold ts; rewrite length_map, length_seq, !length_app, length_map, length_seq; lia
    | pose proof (length_concat_tab ts); rewrite length_app; lia].
  rewrite app_nth1 by (unfold ts; rewrite !length_map, length_seq; lia).
  vm_compute. reflexivity.
Qed.

End ComboStringFacts.

Module PowersetClaims.
Import Combos CombosFacts Evaluator ComboStringFacts.




End PowersetClaims.

Module AltSeqClaims.
Import AltSeqFacts.

(** Claim C6: [construct_altseq] on the empty variant list returns the
    reference; for one SNP at 1-based position [p] the result has the same
    length and differs from the reference only at 0-based index [p - 1], where it
    holds the alternate base; for one pure insertion [(p, "-", I)] the result is
    the reference with [I] placed between positions [p] and [p + 1], so its length
    is [len ref + len I], bases at indices below [p] are unchanged and every
    reference base from index [p] on is shifted by [len I]. *)
Theorem construct_altseq_claim :
  (forall refseq, construct_altseq refseq [] = refseq) /\
  (forall refseq c p r a,
     r <> "-"%char -> a <> "-"%char -> (1 <= p <= Z.of_nat (length refseq))%Z ->
     let altseq := construct_altseq refseq [mkVariant c p (String r EmptyString) (String a EmptyString)] in
     length altseq = length refseq /\
     altseq !! Z.to_nat (p - 1) = Some a /\
     (forall i, i <> Z.to_nat (p - 1) -> altseq !! i = refseq !! i)) /\
  (forall refseq c p ins,
     (0 <= p <= Z.of_nat (length refseq))%Z ->
     let altseq := construct_altseq refseq [mkVariant c p "-" ins] in
     altseq = take (Z.to_nat p) refseq ++ list_ascii_of_string ins ++ drop (Z.to_nat p) refseq /\
     length altseq = (length refseq + String.length ins)%nat /\
     (forall i, (i < Z.to_nat p)%nat -> altseq !! i = refseq !! i) /\
     (forall i, (Z.to_nat p <= i)%nat -> altseq !! (i + String.length ins)%nat = refseq !! i)).
Proof. exact construct_altseq_spec. Qed.

Lemma construct_altseq_claim_witness :
  construct_altseq (list_ascii_of_string "ACGT"%string) [mkVariant "chr1"%string 2 "C"%string "T"%string] !! 1%nat = Some "T"%char /\
  construct_altseq (list_ascii_of_string "ACGT"%string) [mkVariant "chr1"%string 2 "-"%string "GG"%string] =
    list_ascii_of_string "ACGGGT"%string.
Proof.
  destruct construct_altseq_claim as [_ [Hsnp Hins]]. split.
  - destruct (Hsnp (list_ascii_of_string "ACGT"%string) "chr1"%string 2%Z "C"%char "T"%char)
      as [_ [H _]]; [discriminate | discriminate | simpl; lia | exact H].
  - destruct (Hins (list_ascii_of_string "ACGT"%string) "chr1"%string 2%Z "GG"%string) as [H _]; [simpl; lia|].
    rewrite H. reflexivity.
Defined.

End AltSeqClaims.

Module ReadModelClaims.
Local Open Scope R_scope.

Lemma calc_prob_loop_past_end matrix seq seq_length pos baseline b k probability :
  (seq_length <= b)%Z ->
  calc_prob_loop matrix seq seq_length pos baseline b k probability = probability.
Proof.
  revert b. induction k as [|k IH]; intros b Hb; simpl; [reflexivity|].
  destruct (b <? 0)%Z eqn:E; [apply IH; lia|].
  destruct (b >=? seq_length)%Z eqn:E2; [reflexivity|].
  rewrite Z.geb_leb in E2; apply Z.leb_nle in E2. lia.
Qed.

Lemma calc_prob_distrib_loop_past_end matrix read_length seq seq_length i k probability baseline :
  (seq_length <= i)%Z ->
  calc_prob_distrib_loop matrix read_length seq seq_length i k probability baseline = probability.
Proof.
  revert i probability baseline. induction k as [|k IH]; intros i probability baseline Hi; simpl;
    [reflexivity|].
  destruct (i + read_length <? 0)%Z eqn:E; [apply IH; lia|].
  destruct (i >=? seq_length)%Z eqn:E2; [reflexivity|].
  rewrite Z.geb_leb in E2; apply Z.leb_nle in E2. lia.
Qed.

(** Claim C10: for every matrix, sequence and read length [L], when
    [pos >= seq_length + L] the baseline [calc_prob(..., pos, -1000)] is 0 and
    [calc_prob_distrib] returns the log-probability 0 (probability 1): no matrix
    term is ever added. *)
Theorem calc_prob_distrib_past_end (matrix : Matrix) (read_length : Z) (seq : list ascii)
    (seq_length pos : Z) :
  (seq_length + read_length <= pos)%Z ->
  calc_prob matrix read_length seq seq_length pos (-1000) = 0 /\
  calc_prob_distrib matrix read_length seq seq_length pos = 0.
Proof.
  intros Hpos. unfold calc_prob_distrib, calc_prob.
  destruct (Z_le_gt_dec read_length 0) as [Hl|Hl].
  - replace (Z.to_nat read_length) with 0%nat by lia. simpl.
    split; [reflexivity|]. apply calc_prob_distrib_loop_past_end. lia.
  - split; apply calc_prob_loop_past_end || apply calc_prob_distrib_loop_past_end; lia.
Qed.

Lemma calc_prob_distrib_past_end_witness :
  (5 + 3 <= 8)%Z /\
  calc_prob_distrib [] 3 (list_ascii_of_string "ACGTA") 5 8 = 0.
Proof.
  split; [lia|].
  exact (proj2 (calc_prob_distrib_past_end [] 3 (list_ascii_of_string "ACGTA") 5 8 ltac:(lia))).
Defined.

End ReadModelClaims.


Module CommandLineFacts.
Import CommandLine.

Lemma parse_options_app o l1 l2 :
  parse_options o (l1 ++ l2) =
  match parse_options o l1 with Run o' => parse_options o' l2 | r => r end.
Proof.
  revert o. induction l1 as [|it l1 IH]; intros o; simpl; [reflexivity|].
  destruct (apply_option o it); auto.
Qed.

Lemma apply_option_erase o1 o2 it :
  erase_hetbias o1 = erase_hetbias o2 ->
  erase_outcome (apply_option o1 it) = erase_outcome (apply_option o2 it).
Proof.
  destruct o1, o2; simpl. intros H. injection H as ->; intros; subst.
  destruct it as [c arg|f]; simpl; [|destruct f; reflexivity].
  unfold set_file, set_num. repeat case_match; simplify_eq; reflexivity.
Qed.

Lemma parse_options_erase l o1 o2 :
  erase_hetbias o1 = erase_hetbias o2 ->
  erase_outcome (parse_options o1 l) = erase_outcome (parse_options o2 l).
Proof.
  revert o1 o2. induction l as [|it l IH]; intros o1 o2 H; simpl; [rewrite H; reflexivity|].
  pose proof (apply_option_erase o1 o2 it H) as Ha.
  destruct (apply_option o1 it) eqn:E1, (apply_option o2 it) eqn:E2; simpl in Ha;
    try discriminate; try reflexivity.
  apply IH. congruence.
Qed.

Lemma finish_options_erase o1 o2 :
  erase_hetbias o1 = erase_hetbias o2 ->
  erase_outcome (finish_options o1) = erase_outcome (finish_options o2).
Proof.
  destruct o1, o2; simpl. intros H. injection H as ->; intros; subst.
  destruct vcf_file1, bam_file1, fa_file1; reflexivity.
Qed.

Lemma set_num_b_erase x o : erase_hetbias (set_num "b" x o) = erase_hetbias o.
Proof. destruct o; reflexivity. Qed.

Lemma hetbias_set_num_b x o : hetbias (set_num "b" x o) = inject_Z x.
Proof. destruct o; reflexivity. Qed.

Lemma apply_option_hetbias o it o' :
  (forall arg, it <> Opt "b" arg) -> apply_option o it = Run o' -> hetbias o' = hetbias o.
Proof.
  intros Hb. destruct o as [v a r out t n m mv b pa d].
  destruct it as [c arg|f]; simpl; [|intros H; injection H as <-; destruct f; reflexivity].
  unfold set_file, set_num. intros H.
  repeat case_match; simplify_eq; try reflexivity.
  all: match goal with
       | E : Ascii.eqb _ "b" = true |- _ =>
           apply Ascii.eqb_eq in E; subst; exfalso; eapply Hb; reflexivity
       end.
Qed.

Lemma parse_options_hetbias l o o' :
  (forall arg, ~ In (Opt "b" arg) l) -> parse_options o l = Run o' -> hetbias o' = hetbias o.
Proof.
  revert o. induction l as [|it l IH]; intros o Hb; simpl.
  - intros H; injection H as <-. reflexivity.
  - destruct (apply_option o it) as [o1| | |] eqn:E; try discriminate.
    intros H. transitivity (hetbias o1).
    + apply IH; [|exact H]. intros arg Hin. apply (Hb arg). right. exact Hin.
    + apply (apply_option_hetbias o it); [|exact E].
      intros arg ->. apply (Hb arg). left. reflexivity.
Qed.

Lemma finish_options_hetbias o o' :
  finish_options o = Run o' ->
  hetbias o' = if (Qle_bool 0 (hetbias o) && Qle_bool (hetbias o) 1)%bool then hetbias o else 1 # 2.
Proof.
  destruct o as [v a r out t n m mv b pa d]; simpl.
  destruct v, a, r; try discriminate.
  intros H; injection H as <-. simpl.
  destruct (Qle_bool 0 b), (Qle_bool b 1); reflexivity.
Qed.

End CommandLineFacts.

Module CommandLineFacts2.
Import CommandLine.
Lemma apply_option_b o s v :
  parse_num (Some s) = PNum v -> apply_option o (Opt "b" (Some s)) = Run (set_num "b" v o).
Proof.
  intros H. cbv [apply_option is_one_of existsb Ascii.eqb Bool.eqb orb andb]. rewrite H. reflexivity.
Qed.
End CommandLineFacts2.


Module CommandLineClaims.
Import CommandLine CommandLineFacts CommandLineFacts2.

(** Claim C5 (counterexample): [-b 2] is out of [0,1], yet the program runs
    (no usage, no error exit) with [hetbias] silently reset to 0.5. *)
Lemma hetbias_out_of_range_counterexample :
  main_options [Opt "v" (Some "in.vcf"%string); Opt "a" (Some "in.bam"%string);
                Opt "r" (Some "ref.fa"%string); Opt "b" (Some "2"%string)] =
  Run (mkOptions (Some "in.vcf"%string) (Some "in.bam"%string) (Some "ref.fa"%string) None
         1 10 1024 0 (1 # 2) 0 0).
Proof. vm_compute. reflexivity. Qed.

(** Claim C5 (amended): [hetbias] is 0.5 when no [-b] is given; when the
    last [-b] value is accepted by [parse_num] as [v], the run uses [v] if
    [0 <= v <= 1] and 0.5 otherwise; and an accepted [-b] changes nothing else
    in the outcome: it never leads to usage or to an error exit. *)
Theorem hetbias_option :
  (forall items o,
     (forall arg, ~ In (Opt "b" arg) items) ->
     main_options items = Run o -> hetbias o = 1 # 2) /\
  (forall pre post s v o,
     parse_num (Some s) = PNum v ->
     (forall arg, ~ In (Opt "b" arg) post) ->
     main_options (pre ++ Opt "b" (Some s) :: post) = Run o ->
     hetbias o = if (Qle_bool 0 (inject_Z v) && Qle_bool (inject_Z v) 1)%bool
                 then inject_Z v else 1 # 2) /\
  (forall pre post s v,
     parse_num (Some s) = PNum v ->
     erase_outcome (main_options (pre ++ Opt "b" (Some s) :: post)) =
     erase_outcome (main_options (pre ++ post))).
Proof.
  split; [|split].
  - intros items o Hb. unfold main_options.
    destruct (parse_options default_options items) as [o1| | |] eqn:E; try discriminate.
    intros Hf. rewrite (finish_options_hetbias o1 o Hf).
    rewrite (parse_options_hetbias items default_options o1 Hb E). reflexivity.
  - intros pre post s v o Hs Hb. unfold main_options.
    rewrite parse_options_app.
    destruct (parse_options default_options pre) as [o1| | |]; try discriminate.
    cbn [parse_options]. rewrite (apply_option_b o1 s v Hs).
    destruct (parse_options (set_num "b" v o1) post) as [o2| | |] eqn:E; try discriminate.
    intros Hf. rewrite (finish_options_hetbias o2 o Hf).
    rewrite (parse_options_hetbias post (set_num "b" v o1) o2 Hb E), hetbias_set_num_b.
    reflexivity.
  - intros pre post s v Hs. unfold main_options.
    rewrite !parse_options_app.
    destruct (parse_options default_options pre) as [o1| | |]; try reflexivity.
    cbn [parse_options]. rewrite (apply_option_b o1 s v Hs).
    pose proof (parse_options_erase post (set_num "b" v o1) o1 (set_num_b_erase v o1)) as He.
    destruct (parse_options (set_num "b" v o1) post) eqn:E1, (parse_options o1 post) eqn:E2;
      simpl in He; try discriminate; try reflexivity.
    apply finish_options_erase. congruence.
Qed.

Lemma hetbias_option_witness :
  parse_num (Some "2"%string) = PNum 2 /\
  hetbias (mkOptions (Some "in.vcf"%string) (Some "in.bam"%string) (Some "ref.fa"%string) None
             1 10 1024 0 (1 # 2) 0 0) = 1 # 2.
Proof.
  split; [reflexivity|].
  destruct hetbias_option as [_ [H _]].
  exact (H [Opt "v" (Some "in.vcf"%string); Opt "a" (Some "in.bam"%string);
            Opt "r" (Some "ref.fa"%string)] [] "2"%string 2%Z _ eq_refl
           (fun arg Hin => Hin) eq_refl).
Defined.

End CommandLineClaims.

Module GrouperFacts.
Import Evaluator Grouper.

Lemma chain_cons {A} (R : A -> A -> Prop) x l :
  chain R (x :: l) <-> (forall y, head l = Some y -> R x y) /\ chain R l.
Proof.
  destruct l as [|y l]; simpl; split.
  - intros _. split; [discriminate|exact I].
  - intros _. exact I.
  - intros [H1 H2]. split; [intros y' Hy; injection Hy as <-; exact H1|exact H2].
  - intros [H1 H2]. split; [apply H1; reflexivity|exact H2].
Qed.

Lemma chain_impl {A} (R1 R2 : A -> A -> Prop) l :
  (forall x y, R1 x y -> R2 x y) -> chain R1 l -> chain R2 l.
Proof.
  intros HR. induction l as [|x l IH]; [auto|].
  rewrite !chain_cons. intros [H1 H2]. split; [intros y Hy; apply HR, H1, Hy|apply IH, H2].
Qed.

Lemma chain_lt_forall (f : nat -> Z) x l :
  chain (fun a b => (f a < f b)%Z) (x :: l) -> Forall (fun y => (f x < f y)%Z) l.
Proof.
  revert x. induction l as [|y l IH]; intros x H; [constructor|].
  destruct H as [Hxy Hl]. constructor; [exact Hxy|].
  apply IH in Hl. eapply Forall_impl; [exact Hl|]. simpl. lia.
Qed.

Lemma chain_lt_NoDup (f : nat -> Z) l :
  chain (fun a b => (f a < f b)%Z) l -> NoDup (map f l).
Proof.
  induction l as [|x l IH]; intros H; simpl; [constructor|].
  constructor.
  - intros Hin. apply list_elem_of_In, in_map_iff in Hin. destruct Hin as [y [Hy Hin]].
    pose proof (chain_lt_forall f x l H) as HF. rewrite Forall_forall in HF.
    specialize (HF y (proj2 (list_elem_of_In _ _) Hin)). lia.
  - apply IH. apply chain_cons in H. apply H.
Qed.

Section Grouping.

Variable varlist : list Variant.
Variable distlim : Z.
Hypothesis Hsorted : sorted_input varlist.

Local Notation V k := (var_at varlist k).
Local Notation RelI := (near varlist distlim).
Local Notation good_set := (good_set varlist distlim).

Lemma group_extend_shape fuel j l j' :
  (1 <= j)%nat -> group_extend varlist distlim j fuel = (l, j') ->
  l = seq j (j' - j) /\ (j <= j')%nat /\ (j < j' -> j' <= length varlist)%nat /\
  chain RelI ((j - 1)%nat :: l).
Proof.
  revert j l j'. induction fuel as [|f IH]; intros j l j' Hj; simpl.
  - intros H; injection H as <- <-. rewrite Nat.sub_diag. repeat split; simpl; auto; lia.
  - destruct (_ && _)%bool eqn:E.
    + destruct (group_extend varlist distlim (S j) f) as [l0 j0] eqn:E2.
      intros H; injection H as <- <-.
      repeat rewrite andb_true_iff in E. destruct E as [[[Hd Hj2] Hc] Ha].
      apply Nat.ltb_lt in Hj2. apply String.eqb_eq in Hc. apply Z.leb_le in Ha.
      destruct (IH (S j) l0 j0 ltac:(lia) E2) as [-> [Hle [Hb Hch]]].
      replace (S j - 1)%nat with j in Hch by lia.
      repeat split.
      * replace (j0 - j)%nat with (S (j0 - S j)) by lia. reflexivity.
      * lia.
      * intros _. destruct (decide (S j < j0)%nat); [apply Hb; lia|lia].
      * rewrite Hc. reflexivity.
      * lia.
      * replace j with (S (j - 1)) at 2 by lia.
        apply Hsorted; [lia|]. replace (S (j - 1)) with j by lia. rewrite Hc. reflexivity.
      * exact Hch.
    + intros H; injection H as <- <-. rewrite Nat.sub_diag. repeat split; simpl; auto; lia.
Qed.

Lemma seq_sublist i k n : (i + k <= n)%nat -> seq i k `sublist_of` seq 0 n.
Proof.
  intros H. replace n with (i + (k + (n - i - k)))%nat by lia.
  rewrite (seq_app i (k + (n - i - k))), (seq_app k (n - i - k)). simpl.
  apply sublist_inserts_l, sublist_inserts_r. reflexivity.
Qed.

Lemma group_sets_good fuel i :
  Forall good_set (group_sets varlist distlim i fuel).
Proof.
  revert i. induction fuel as [|f IH]; intros i; simpl; [constructor|].
  destruct (i <? length varlist)%nat eqn:Ei; [|constructor].
  apply Nat.ltb_lt in Ei.
  destruct (group_extend varlist distlim (S i) (length varlist)) as [ext j] eqn:E.
  constructor; [|apply IH].
  destruct (group_extend_shape (length varlist) (S i) ext j ltac:(lia) E) as [-> [Hle [Hb Hch]]].
  replace (S i - 1)%nat with i in Hch by lia.
  split; [discriminate|split; [exact Hch|]].
  change (i :: seq (S i) (j - S i)) with (seq i (S (j - S i))).
  apply seq_sublist. destruct (decide (S i < j)%nat); [specialize (Hb ltac:(lia)); lia|lia].
Qed.

Lemma group_sets_singletons fuel i :
  (distlim <= 0)%Z ->
  Forall (fun s => length s = 1%nat) (group_sets varlist distlim i fuel).
Proof.
  intros Hd. revert i. induction fuel as [|f IH]; intros i; simpl; [constructor|].
  destruct (i <? length varlist)%nat; [|constructor].
  assert (E : group_extend varlist distlim (S i) (length varlist) = ([], S i)).
  { destruct (length varlist); simpl; [reflexivity|].
    replace (0 <? distlim)%Z with false by (symmetry; apply Z.ltb_ge; lia). reflexivity. }
  rewrite E. constructor; [reflexivity|apply IH].
Qed.

Lemma relI_left a x y :
  RelI a x -> RelI x y -> pos (V x) = pos (V y) -> RelI a y.
Proof. unfold near. intros [H1 [H2 H3]] [H4 [H5 H6]] He. repeat split; [congruence|rewrite <- He; exact H2|lia]. Qed.

Lemma relI_right x y z :
  RelI x y -> RelI y z -> pos (V x) = pos (V y) -> RelI x z.
Proof. unfold near. intros [H1 [H2 H3]] [H4 [H5 H6]] He. repeat split; [congruence|rewrite He; exact H5|lia]. Qed.

Lemma chain_delete s j :
  chain RelI s -> (S j < length s)%nat ->
  pos (V (nth j s 0%nat)) = pos (V (nth (S j) s 0%nat)) ->
  chain RelI (delete j s) /\ chain RelI (delete (S j) s).
Proof.
  revert j. induction s as [|x t IH]; intros j Hc Hlen He; [simpl in Hlen; lia|].
  destruct j as [|j'].
  - destruct t as [|y t']; [simpl in Hlen; lia|].
    destruct Hc as [Hxy Hc]. simpl in He. split; [exact Hc|].
    simpl. apply chain_cons in Hc. destruct Hc as [Hyz Hc'].
    apply chain_cons. split; [|exact Hc'].
    intros z Hz. apply (relI_right x y z Hxy (Hyz z Hz) He).
  - simpl in Hlen. apply chain_cons in Hc. destruct Hc as [Hx Hc].
    simpl in He. destruct (IH j' Hc ltac:(lia) He) as [H1 H2].
    change (delete (S j') (x :: t)) with (x :: delete j' t).
    change (delete (S (S j')) (x :: t)) with (x :: delete (S j') t).
    destruct t as [|t0 t1]; [simpl in Hlen; lia|].
    split; apply chain_cons; split; try exact H1; try exact H2.
    + intros y Hy. destruct j' as [|j''].
      * simpl in Hy. destruct t1 as [|t2 t3]; [discriminate|]. injection Hy as <-.
        simpl in He. destruct Hc as [Ht01 _].
        exact (relI_left x t0 t2 (Hx t0 eq_refl) Ht01 He).
      * simpl in Hy. injection Hy as <-. exact (Hx t0 eq_refl).
    + intros y Hy. simpl in Hy. injection Hy as <-. exact (Hx t0 eq_refl).
Qed.

Lemma good_delete s j :
  good_set s -> (S j < length s)%nat ->
  pos (V (nth j s 0%nat)) = pos (V (nth (S j) s 0%nat)) ->
  good_set (delete j s) /\ good_set (delete (S j) s).
Proof.
  intros [Hne [Hc Hsub]] Hlen He.
  destruct (chain_delete s j Hc Hlen He) as [H1 H2].
  assert (Hl1 : length (delete j s) = (length s - 1)%nat)
    by (apply length_delete; apply lookup_lt_is_Some_2; lia).
  assert (Hl2 : length (delete (S j) s) = (length s - 1)%nat)
    by (apply length_delete; apply lookup_lt_is_Some_2; lia).
  split; split; try split; auto.
  - intros E. rewrite E in Hl1. simpl in Hl1. lia.
  - etransitivity; [apply sublist_delete|exact Hsub].
  - intros E. rewrite E in Hl2. simpl in Hl2. lia.
  - etransitivity; [apply sublist_delete|exact Hsub].
Qed.

Lemma split_scan_good fuel j s :
  good_set s ->
  good_set (fst (split_scan varlist j fuel s)) /\ Forall good_set (snd (split_scan varlist j fuel s)).
Proof.
  revert j s. induction fuel as [|f IH]; intros j s Hg; simpl; [split; [exact Hg|constructor]|].
  destruct (S j <? length s)%nat eqn:El; [|split; [exact Hg|constructor]].
  apply Nat.ltb_lt in El.
  destruct (_ =? _)%Z eqn:Ep.
  - apply Z.eqb_eq in Ep. destruct (good_delete s j Hg El Ep) as [G1 G2].
    destruct (split_scan varlist (S j) f (delete j s)) as [s' ds] eqn:E.
    destruct (IH (S j) (delete j s) G1) as [G3 G4]. rewrite E in G3, G4. simpl in *.
    split; [exact G3|constructor; [exact G2|exact G4]].
  - apply IH. exact Hg.
Qed.

Lemma split_set_good s :
  good_set s ->
  good_set (fst (split_set varlist s)) /\ Forall good_set (snd (split_set varlist s)).
Proof.
  intros Hg. unfold split_set. destruct (length s =? 1)%nat; [split; [exact Hg|constructor]|].
  apply split_scan_good, Hg.
Qed.

Lemma split_pass_good sets :
  Forall good_set sets -> Forall good_set (fst (split_pass varlist sets)).
Proof.
  intros H. unfold split_pass. simpl. apply Forall_app. split.
  - rewrite map_map. apply Forall_map. eapply Forall_impl; [exact H|]. intros s Hs. apply (split_set_good s Hs).
  - apply Forall_concat. rewrite map_map. apply Forall_map. eapply Forall_impl; [exact H|]. intros s Hs. apply (split_set_good s Hs).
Qed.

Lemma split_loop_good fuel sets :
  Forall good_set sets -> Forall good_set (split_loop varlist fuel sets).
Proof.
  revert sets. induction fuel as [|f IH]; intros sets H; cbn [split_loop]; [exact H|].
  pose proof (split_pass_good sets H) as H'.
  destruct (split_pass varlist sets) as [sets' flag]. simpl in H'.
  destruct flag; [apply IH|]; exact H'.
Qed.

(** The split loop terminates within [split_measure + 1] passes. *)

Lemma has_eq_adj_false s :
  has_eq_adj varlist s = false <->
  (forall k, (S k < length s)%nat -> pos (V (nth k s 0%nat)) <> pos (V (nth (S k) s 0%nat))).
Proof.
  induction s as [|x t IH]; simpl.
  - split; [intros _ k Hk; lia|reflexivity].
  - destruct t as [|y t'].
    + split; [intros _ k Hk; simpl in Hk; lia|reflexivity].
    + rewrite orb_false_iff, Z.eqb_neq, IH. split.
      * intros [Hxy Ht] [|k] Hk; [exact Hxy|]. apply Ht. simpl in *. lia.
      * intros H. split; [apply (H 0%nat); simpl; lia|].
        intros k Hk. apply (H (S k)). simpl in *. lia.
Qed.

Lemma split_scan_nodup fuel j s :
  snd (split_scan varlist j fuel s) = [] -> fst (split_scan varlist j fuel s) = s.
Proof.
  revert j s. induction fuel as [|f IH]; intros j s; simpl; [auto|].
  destruct (S j <? length s)%nat; [|auto].
  destruct (_ =? _)%Z.
  - destruct (split_scan varlist (S j) f (delete j s)). simpl. discriminate.
  - apply IH.
Qed.

Lemma split_scan_nodup_adj fuel j s :
  (length s <= j + fuel)%nat ->
  snd (split_scan varlist j fuel s) = [] ->
  forall k, (j <= k)%nat -> (S k < length s)%nat ->
  pos (V (nth k s 0%nat)) <> pos (V (nth (S k) s 0%nat)).
Proof.
  revert j. induction fuel as [|f IH]; intros j Hf; simpl.
  - intros _ k Hk1 Hk2. lia.
  - destruct (S j <? length s)%nat eqn:El.
    + apply Nat.ltb_lt in El. destruct (_ =? _)%Z eqn:Ep.
      * destruct (split_scan varlist (S j) f (delete j s)). simpl. discriminate.
      * intros Hn k Hk1 Hk2. apply Z.eqb_neq in Ep.
        destruct (decide (k = j)) as [->|Hne]; [exact Ep|].
        apply (IH (S j)); [lia|exact Hn|lia|exact Hk2].
    + apply Nat.ltb_ge in El. intros _ k Hk1 Hk2. lia.
Qed.

Lemma split_scan_dup fuel j s :
  snd (split_scan varlist j fuel s) <> [] ->
  (length (fst (split_scan varlist j fuel s)) < length s)%nat /\
  Forall (fun d => length d < length s)%nat (snd (split_scan varlist j fuel s)).
Proof.
  revert j s. induction fuel as [|f IH]; intros j s; simpl; [congruence|].
  destruct (S j <? length s)%nat eqn:El; [|simpl; congruence].
  apply Nat.ltb_lt in El.
  destruct (_ =? _)%Z.
  - assert (Hl1 : length (delete j s) = (length s - 1)%nat)
      by (apply length_delete; apply lookup_lt_is_Some_2; lia).
    assert (Hl2 : length (delete (S j) s) = (length s - 1)%nat)
      by (apply length_delete; apply lookup_lt_is_Some_2; lia).
    destruct (split_scan varlist (S j) f (delete j s)) as [s' ds] eqn:E. simpl. intros _.
    destruct ds as [|d ds].
    + pose proof (split_scan_nodup f (S j) (delete j s)) as Hn. rewrite E in Hn. simpl in Hn.
      rewrite (Hn eq_refl). split; [lia|]. constructor; [lia|constructor].
    + destruct (IH (S j) (delete j s)) as [H1 H2]; [rewrite E; simpl; discriminate|].
      rewrite E in H1, H2. simpl in H1, H2.
      split; [lia|]. constructor; [lia|]. eapply Forall_impl; [exact H2|]. simpl. lia.
  - apply IH.
Qed.

Lemma split_set_cases s :
  (snd (split_set varlist s) = [] /\ fst (split_set varlist s) = s /\ has_eq_adj varlist s = false) \/
  (snd (split_set varlist s) <> [] /\ has_eq_adj varlist s = true /\
   (length (fst (split_set varlist s)) < length s)%nat /\
   Forall (fun d => length d < length s)%nat (snd (split_set varlist s))).
Proof.
  unfold split_set. destruct (length s =? 1)%nat eqn:E1.
  - left. apply Nat.eqb_eq in E1. repeat split.
    apply has_eq_adj_false. intros k Hk. lia.
  - destruct (snd (split_scan varlist 0 (length s) s)) eqn:Es.
    + left. repeat split. apply split_scan_nodup, Es.
      apply has_eq_adj_false. intros k Hk.
      apply (split_scan_nodup_adj (length s) 0 s ltac:(lia) Es k ltac:(lia) Hk).
    + right. rewrite <- Es. destruct (split_scan_dup (length s) 0 s) as [H1 H2]; [congruence|].
      repeat split; [congruence| |exact H1|exact H2].
      destruct (has_eq_adj varlist s) eqn:Eh; [reflexivity|].
      exfalso. rewrite has_eq_adj_false in Eh.
      (* with no equal neighbours the scan makes no duplicate *)
      assert (Hnone : forall fuel j t, (forall k, (S k < length t)%nat ->
                pos (V (nth k t 0%nat)) <> pos (V (nth (S k) t 0%nat))) ->
                snd (split_scan varlist j fuel t) = []).
      { induction fuel as [|f IHf]; intros j t Ht; simpl; [reflexivity|].
        destruct (S j <? length t)%nat eqn:El; [|reflexivity].
        apply Nat.ltb_lt in El. destruct (_ =? _)%Z eqn:Ep.
        - apply Z.eqb_eq in Ep. exfalso. exact (Ht j El Ep).
        - apply IHf, Ht. }
      rewrite (Hnone _ 0%nat s Eh) in Es. discriminate.
Qed.

Lemma measure_entry_le s : ((if has_eq_adj varlist s then length s else 0) <= length s)%nat.
Proof. destruct (has_eq_adj varlist s); lia. Qed.

Lemma split_pass_measure sets :
  snd (split_pass varlist sets) = true ->
  (split_measure varlist (fst (split_pass varlist sets)) < split_measure varlist sets)%nat.
Proof.
  unfold split_pass, split_measure. simpl. intros Hflag.
  set (M := list_max (map (fun s => if has_eq_adj varlist s then length s else 0%nat) sets)).
  assert (HM : Forall (fun s => (if has_eq_adj varlist s then length s else 0%nat) <= M)%nat sets).
  { assert (HM' : Forall (fun n => n <= M)%nat
            (map (fun s => if has_eq_adj varlist s then length s else 0%nat) sets))
      by (apply list_max_le; lia).
    apply List.Forall_forall. intros s Hs. rewrite List.Forall_forall in HM'.
    apply HM'. exact (in_map (fun s => if has_eq_adj varlist s then length s else 0%nat) _ _ Hs). }
  assert (Hpos : (2 <= M)%nat).
  { apply existsb_exists in Hflag. destruct Hflag as [r [Hin Hr]].
    apply in_map_iff in Hin. destruct Hin as [s [<- Hin]].
    rewrite List.Forall_forall in HM. specialize (HM s Hin).
    destruct (split_set_cases s) as [[H1 _]|[_ [Hb [Hl _]]]].
    - rewrite H1 in Hr. discriminate.
    - rewrite Hb in HM. destruct s as [|x [|y t]]; simpl in Hb; try discriminate; simpl in HM; lia. }
  cut (list_max (map (fun s => if has_eq_adj varlist s then length s else 0%nat)
         (map fst (map (split_set varlist) sets) ++ concat (map snd (map (split_set varlist) sets))))
       <= M - 1)%nat; [lia|].
  apply list_max_le. apply List.Forall_forall. intros n Hn.
  apply in_map_iff in Hn. destruct Hn as [s' [<- Hs']].
  apply in_app_iff in Hs'. rewrite List.Forall_forall in HM. destruct Hs' as [Hs'|Hs'].
  - rewrite map_map in Hs'. apply in_map_iff in Hs'. destruct Hs' as [s [<- Hin]].
    specialize (HM s Hin).
    destruct (split_set_cases s) as [[_ [Hf Hb]]|[_ [Hb [Hl _]]]].
    + rewrite Hf, Hb. lia.
    + rewrite Hb in HM. pose proof (measure_entry_le (fst (split_set varlist s))). lia.
  - rewrite map_map in Hs'. apply in_concat in Hs'. destruct Hs' as [ds [Hds Hd]].
    apply in_map_iff in Hds. destruct Hds as [s [<- Hin]].
    specialize (HM s Hin).
    destruct (split_set_cases s) as [[Hn _]|[_ [Hb [_ Hdl]]]].
    + rewrite Hn in Hd. destruct Hd.
    + rewrite Hb in HM. rewrite List.Forall_forall in Hdl. specialize (Hdl s' Hd).
      pose proof (measure_entry_le s'). lia.
Qed.

Lemma split_pass_done sets :
  snd (split_pass varlist sets) = false ->
  fst (split_pass varlist sets) = sets /\ Forall (fun s => has_eq_adj varlist s = false) sets.
Proof.
  unfold split_pass. simpl. intros Hflag.
  assert (H : Forall (fun s => snd (split_set varlist s) = [] /\ fst (split_set varlist s) = s /\
                               has_eq_adj varlist s = false) sets).
  { apply List.Forall_forall. intros s Hin.
    destruct (split_set_cases s) as [H|[Hn _]]; [exact H|].
    exfalso. assert (Hf : existsb (fun r => match snd r with [] => false | _ :: _ => true end)
                            (map (split_set varlist) sets) = true).
    { apply existsb_exists. exists (split_set varlist s). split; [apply in_map, Hin|].
      destruct (snd (split_set varlist s)); [congruence|reflexivity]. }
    congruence. }
  split.
  - assert (E1 : map fst (map (split_set varlist) sets) = sets).
    { rewrite map_map. transitivity (map (fun s : list nat => s) sets); [|apply map_id].
      apply map_ext_in. intros s Hin. rewrite List.Forall_forall in H. apply H, Hin. }
    assert (E2 : concat (map snd (map (split_set varlist) sets)) = []).
    { clear E1. rewrite map_map. induction sets as [|s sets IHs]; [reflexivity|].
      inversion H as [|? ? [Hs _] Hr]; subst. simpl. rewrite Hs. simpl.
      apply IHs; [|exact Hr].
      simpl in Hflag. apply orb_false_iff in Hflag. apply Hflag. }
    rewrite E1, E2, app_nil_r. reflexivity.
  - eapply Forall_impl; [exact H|]. intros s [_ [_ Hs]]. exact Hs.
Qed.

Lemma split_loop_done fuel sets :
  (split_measure varlist sets < fuel)%nat ->
  Forall (fun s => has_eq_adj varlist s = false) (split_loop varlist fuel sets).
Proof.
  revert sets. induction fuel as [|f IH]; intros sets Hf; [lia|]. cbn [split_loop].
  pose proof (split_pass_measure sets) as Hm. pose proof (split_pass_done sets) as Hd.
  destruct (split_pass varlist sets) as [sets' flag]. simpl in *.
  destruct flag.
  - apply IH. specialize (Hm eq_refl). lia.
  - destruct (Hd eq_refl) as [-> H]. exact H.
Qed.

Lemma good_measure_bound sets :
  Forall good_set sets -> (split_measure varlist sets <= length varlist)%nat.
Proof.
  intros H. unfold split_measure. apply list_max_le, Forall_map.
  eapply Forall_impl; [exact H|]. intros s [_ [_ Hsub]].
  pose proof (measure_entry_le s). apply sublist_length in Hsub. rewrite length_seq in Hsub. lia.
Qed.

Lemma split_sets_good_done :
  Forall (fun s => good_set s /\ has_eq_adj varlist s = false) (split_sets varlist distlim).
Proof.
  unfold split_sets. apply Forall_and. split.
  - apply split_loop_good, group_sets_good.
  - apply split_loop_done. pose proof (good_measure_bound _ (group_sets_good (length varlist) 0)). lia.
Qed.

Lemma good_done_positions s :
  good_set s -> has_eq_adj varlist s = false ->
  NoDup (map (fun k => pos (V k)) s).
Proof.
  intros [_ [Hc _]] Hn. apply (chain_lt_NoDup (fun k => pos (V k))).
  rewrite has_eq_adj_false in Hn. clear - Hc Hn.
  induction s as [|x t IH]; [exact I|].
  apply chain_cons in Hc. destruct Hc as [Hx Hc]. apply chain_cons. split.
  - intros y Hy. destruct t as [|y' t']; [discriminate|]. injection Hy as <-.
    destruct (Hx y' eq_refl) as [_ [_ Hle]]. specialize (Hn 0%nat ltac:(simpl; lia)). simpl in Hn. lia.
  - apply IH; [exact Hc|]. intros k Hk. apply (Hn (S k)). simpl. lia.
Qed.

Lemma split_loop_singletons fuel sets :
  Forall (fun s => length s = 1%nat) sets -> split_loop varlist fuel sets = sets.
Proof.
  intros H. destruct fuel as [|f]; [reflexivity|]. cbn [split_loop].
  assert (Hs : snd (split_pass varlist sets) = false).
  { unfold split_pass. simpl. induction H as [|s sets Hs Hr IHr]; [reflexivity|].
    simpl. unfold split_set at 1. rewrite Hs. simpl. exact IHr. }
  pose proof (split_pass_done sets Hs) as [Hd _].
  destruct (split_pass varlist sets) as [sets' flag]. simpl in Hs, Hd. subst. reflexivity.
Qed.

Lemma split_loop_in_singletons cap fuel sets :
  Forall (fun s => length s = 1%nat) sets -> (length sets <= cap)%nat ->
  split_loop_in cap varlist fuel sets = Some sets.
Proof.
  intros H Hl. destruct fuel as [|f]; [reflexivity|]. cbn [split_loop_in].
  assert (Hs : snd (split_pass varlist sets) = false).
  { unfold split_pass. simpl. clear Hl. induction H as [|s sets Hs Hr IHr]; [reflexivity|].
    simpl. unfold split_set at 1. rewrite Hs. simpl. exact IHr. }
  pose proof (split_pass_done sets Hs) as [Hd _].
  destruct (split_pass varlist sets) as [sets' flag]. simpl in Hs, Hd. subst.
  destruct (cap <? length sets)%nat eqn:E; [apply Nat.ltb_lt in E; lia|reflexivity].
Qed.

End Grouping.

Lemma split_loop_in_some cap vl fuel sets r :
  split_loop_in cap vl fuel sets = Some r -> r = split_loop vl fuel sets.
Proof.
  revert sets. induction fuel as [|f IH]; intros sets H; cbn [split_loop_in split_loop] in *.
  - congruence.
  - destruct (split_pass vl sets) as [sets' flag].
    destruct (cap <? length sets')%nat; [discriminate|].
    destruct flag; [apply IH; exact H|congruence].
Qed.

Lemma split_loop_in_bound cap vl fuel sets r :
  (length sets <= cap)%nat -> split_loop_in cap vl fuel sets = Some r -> (length r <= cap)%nat.
Proof.
  revert sets. induction fuel as [|f IH]; intros sets Hl H; cbn [split_loop_in] in H.
  - injection H as <-. exact Hl.
  - destruct (split_pass vl sets) as [sets' flag].
    destruct (cap <? length sets')%nat eqn:E; [discriminate|]. apply Nat.ltb_ge in E.
    destruct flag; [eapply IH; eauto|injection H as <-; exact E].
Qed.

Lemma group_sets_length vl d i fuel : (length (group_sets vl d i fuel) <= fuel)%nat.
Proof.
  revert i. induction fuel as [|f IH]; intros i; simpl; [lia|].
  destruct (i <? length vl)%nat; [|simpl; lia].
  destruct (group_extend vl d (S i) (length vl)) as [ext j]. simpl. specialize (IH j). lia.
Qed.

(** The sets [hypothesis_sets] yields are those of [split_sets], at most [2 * nvariants] of them. *)
Lemma hypothesis_sets_split vl d r :
  hypothesis_sets vl d = Some r -> r = split_sets vl d /\ (length r <= 2 * length vl)%nat.
Proof.
  intros H. split; [exact (split_loop_in_some _ _ _ _ _ H)|].
  eapply split_loop_in_bound; [|exact H]. pose proof (group_sets_length vl d 0 (length vl)). lia.
Qed.

End GrouperFacts.

Module GrouperClaims.
Import Evaluator Grouper GrouperFacts MoreSamples.




End GrouperClaims.

Module GrouperFacts2.
Import Evaluator Grouper GrouperFacts.

Section Partition.

Variable varlist : list Variant.
Variable distlim : Z.
Hypothesis Hsorted : sorted_input varlist.

Local Notation V k := (var_at varlist k).

(** Grouping cuts [0 .. nvariants - 1] into consecutive ranges. *)
Lemma group_sets_ranges fuel i :
  (length varlist - i <= fuel)%nat ->
  concat (group_sets varlist distlim i fuel) = seq i (length varlist - i) /\
  Forall (fun s => exists a n, s = seq a n /\ (a + n <= length varlist)%nat /\
                               chain (near varlist distlim) s)
         (group_sets varlist distlim i fuel).
Proof.
  revert i. induction fuel as [|f IH]; intros i Hf; simpl.
  - replace (length varlist - i)%nat with 0%nat by lia. split; [reflexivity|constructor].
  - destruct (i <? length varlist)%nat eqn:Ei.
    + apply Nat.ltb_lt in Ei.
      destruct (group_extend varlist distlim (S i) (length varlist)) as [ext j] eqn:E.
      destruct (group_extend_shape varlist distlim Hsorted (length varlist) (S i) ext j
                  ltac:(lia) E) as [-> [Hle [Hb Hch]]].
      replace (S i - 1)%nat with i in Hch by lia.
      assert (Hj : (j <= length varlist)%nat)
        by (destruct (decide (S i < j)%nat); [apply Hb; lia|lia]).
      destruct (IH j ltac:(lia)) as [Hc Hs]. simpl. split.
      * rewrite Hc. change (i :: seq (S i) (j - S i)) with (seq i (S (j - S i))).
        replace (length varlist - i)%nat with (S (j - S i) + (length varlist - j))%nat by lia.
        rewrite seq_app. f_equal. replace (i + S (j - S i))%nat with j by lia. reflexivity.
      * constructor; [|exact Hs].
        exists i, (S (j - S i)). split; [reflexivity|]. split; [lia|exact Hch].
    + apply Nat.ltb_ge in Ei. replace (length varlist - i)%nat with 0%nat by lia.
      split; [reflexivity|constructor].
Qed.

Lemma seq_no_eq_adj a n :
  (forall k, (S k < length varlist)%nat -> chr (V k) = chr (V (S k)) -> pos (V k) <> pos (V (S k))) ->
  (a + n <= length varlist)%nat -> chain (near varlist distlim) (seq a n) ->
  has_eq_adj varlist (seq a n) = false.
Proof.
  intros Hp. revert a. induction n as [|n IH]; intros a Hn Hc; [reflexivity|].
  destruct n as [|n]; [reflexivity|].
  change (seq a (S (S n))) with (a :: S a :: seq (S (S a)) n) in Hc |- *.
  destruct Hc as [[Hchr _] Hc].
  change (has_eq_adj varlist (a :: S a :: seq (S (S a)) n)) with
    ((pos (V a) =? pos (V (S a)))%Z || has_eq_adj varlist (S a :: seq (S (S a)) n))%bool.
  apply orb_false_iff. split.
  - apply Z.eqb_neq, Hp; [lia|exact Hchr].
  - apply (IH (S a)); [lia|exact Hc].
Qed.

End Partition.

Lemma split_loop_no_eq_adj varlist fuel sets :
  Forall (fun s => has_eq_adj varlist s = false) sets -> split_loop varlist fuel sets = sets.
Proof.
  intros H. destruct fuel as [|f]; [reflexivity|]. cbn [split_loop].
  assert (Hs : snd (split_pass varlist sets) = false).
  { unfold split_pass. simpl. induction H as [|s sets Hs Hr IHr]; [reflexivity|].
    simpl. destruct (split_set_cases varlist s) as [[Hn _]|[_ [Hb _]]].
    - rewrite Hn. simpl. exact IHr.
    - congruence. }
  pose proof (split_pass_done varlist sets Hs) as [Hd _].
  destruct (split_pass varlist sets) as [sets' flag]. simpl in Hs, Hd. subst. reflexivity.
Qed.

End GrouperFacts2.

Module OutputFacts.
Import Evaluator Grouper GrouperFacts GrouperFacts2.

Lemma map_fst_combine_map {A B} (f : A -> B) (l : list A) :
  map fst (combine l (map f l)) = l.
Proof. induction l as [|x l IH]; simpl; [reflexivity|]. rewrite IH. reflexivity. Qed.

(** [evaluate_variants] prints one line per entry of the set, from that
    entry, exactly when the region has reads. *)
Lemma evaluate_variants_vars g fr fs varlist set :
  match evaluate_variants g fr fs varlist set with
  | None => has_reads fr varlist set = false
  | Some lines => has_reads fr varlist set = true /\ map l_var lines = set
  end.
Proof.
  unfold evaluate_variants, has_reads, region_reads.
  destruct (fr _ _ _) as [|r rs]; [reflexivity|].
  destruct (fs _) as [refseq refseq_length].
  destruct (priors _ _ _) as [alt_prior het_prior].
  destruct (combos_loop _ _ _ _ _ _ _ _ _ _ _ _) as [ref accs].
  split; [reflexivity|].
  rewrite map_map.
  etransitivity; [|apply (map_fst_combine_map (fun k => nth k varlist dummy_variant) set)].
  apply map_ext. intros [ptr v]. destruct (variant_marginals _ _ _ _) as [[? ?] ?]. reflexivity.
Qed.

Lemma perm_concat {A} (l1 l2 : list (list A)) :
  Permutation l1 l2 -> Permutation (concat l1) (concat l2).
Proof.
  induction 1 as [|x l1 l2 _ IH|x y l|l1 l2 l3 _ IH1 _ IH2]; simpl.
  - reflexivity.
  - apply Permutation_app_head, IH.
  - rewrite !app_assoc. apply Permutation_app_tail, Permutation_app_comm.
  - etransitivity; [exact IH1|exact IH2].
Qed.

Lemma filter_all_true {A} (f : A -> bool) (l : list A) :
  (forall x, In x l -> f x = true) -> List.filter f l = l.
Proof.
  induction l as [|x l IH]; intros H; [reflexivity|]. simpl.
  rewrite (H x (or_introl eq_refl)). f_equal. apply IH. intros y Hy. apply H. right. exact Hy.
Qed.

Lemma omap_cons_eq {A B} (f : A -> option B) x l :
  omap f (x :: l) = match f x with Some y => y :: omap f l | None => omap f l end.
Proof. reflexivity. Qed.

Lemma omap_evaluate_vars g fr fs varlist sets :
  map (map l_var) (omap (evaluate_variants g fr fs varlist) sets) =
  List.filter (has_reads fr varlist) sets.
Proof.
  induction sets as [|s ss IH]; [reflexivity|].
  rewrite omap_cons_eq. pose proof (evaluate_variants_vars g fr fs varlist s) as H.
  destruct (evaluate_variants g fr fs varlist s) as [lines|].
  - destruct H as [H Hl]. cbn [List.filter]. rewrite H. simpl. rewrite Hl, IH. reflexivity.
  - cbn [List.filter]. rewrite H. exact IH.
Qed.

Lemma evaluated_sets_vars g fr fs varlist distlim sets :
  hypothesis_sets varlist distlim = Some sets ->
  evaluated_sets g fr fs varlist distlim = Some (omap (evaluate_variants g fr fs varlist) sets) /\
  map (map l_var) (omap (evaluate_variants g fr fs varlist) sets) =
  List.filter (has_reads fr varlist) sets.
Proof.
  intros H. unfold evaluated_sets. rewrite H. split; [reflexivity|apply omap_evaluate_vars].
Qed.

Lemma count_occ_concat_nodup (i : nat) (sets : list (list nat)) :
  Forall (fun s => List.NoDup s) sets ->
  count_occ Nat.eq_dec (concat sets) i = length (List.filter (fun s => existsb (Nat.eqb i) s) sets).
Proof.
  induction 1 as [|s ss Hs Hr IH]; [reflexivity|].
  simpl. rewrite count_occ_app, IH.
  destruct (existsb (Nat.eqb i) s) eqn:E.
  - apply existsb_exists in E. destruct E as [x [Hx Hxi]]. apply Nat.eqb_eq in Hxi. subst x.
    pose proof (proj1 (NoDup_count_occ Nat.eq_dec s) Hs i) as H1.
    pose proof (proj1 (count_occ_In Nat.eq_dec s i) Hx) as H2. simpl. lia.
  - assert (~ In i s) as Hn.
    { intros Hin. assert (existsb (Nat.eqb i) s = true) by
        (apply existsb_exists; exists i; split; [exact Hin|apply Nat.eqb_refl]). congruence. }
    rewrite (proj1 (count_occ_not_In Nat.eq_dec s i) Hn). reflexivity.
Qed.

Lemma hypothesis_sets_nodup varlist distlim sets :
  sorted_input varlist -> hypothesis_sets varlist distlim = Some sets ->
  Forall (fun s => List.NoDup s) sets.
Proof.
  intros Hs Hh. apply hypothesis_sets_split in Hh. destruct Hh as [-> _].
  eapply Forall_impl; [apply (split_sets_good_done varlist distlim Hs)|].
  intros s [[_ [_ Hsub]] _]. apply NoDup_ListNoDup.
  eapply sublist_NoDup; [apply NoDup_seq|exact Hsub].
Qed.

Lemma hypothesis_sets_partition varlist distlim sets :
  sorted_input varlist ->
  (forall k, (S k < length varlist)%nat ->
     chr (var_at varlist k) = chr (var_at varlist (S k)) ->
     pos (var_at varlist k) <> pos (var_at varlist (S k))) ->
  hypothesis_sets varlist distlim = Some sets ->
  concat sets = seq 0 (length varlist).
Proof.
  intros Hs Hp Hh. apply hypothesis_sets_split in Hh. destruct Hh as [-> _]. unfold split_sets.
  destruct (group_sets_ranges varlist distlim Hs (length varlist) 0 ltac:(lia)) as [Hc Hr].
  rewrite split_loop_no_eq_adj.
  - rewrite Hc. f_equal. lia.
  - eapply Forall_impl; [exact Hr|]. intros s [a [n [-> [Hn Hch]]]].
    apply (seq_no_eq_adj varlist distlim); assumption.
Qed.

End OutputFacts.

Module OutputClaims.
Import Evaluator Grouper GrouperFacts GrouperFacts2 OutputFacts Samples.

Lemma vl0_sorted : sorted_input vl0.
Proof.
  intros k Hk Hc. destruct k as [|[|[|k]]]; vm_compute in Hc |- *; try discriminate; try lia.
  simpl in Hk. lia.
Qed.

Lemma vl0_bases_ok : bases_ok (fun _ _ _ => [r0]) fs0 vl0.
Proof.
  split; [|split].
  - intros c b e r [<-|[]]. split; [repeat constructor|split; reflexivity].
  - intros c. split; [constructor|reflexivity].
  - repeat constructor; right; repeat constructor.
Qed.




End OutputClaims.

Module PaoFacts.
Import Evaluator Grouper OutputFacts.

Section Pao.

Variable g : Globals.
Variable fs : string -> list ascii * Z.
Hypothesis Hpao : g_pao g <> 0%Z.

Variables (refseq : list ascii) (refseq_length : Z) (alt_prior het_prior : R)
          (pos0 : Z) (altseq : list ascii) (altseq_length : Z).

Local Notation step seti := (read_step g fs refseq refseq_length alt_prior het_prior seti pos0 altseq altseq_length).
Local Notation loop seti := (reads_loop g fs refseq refseq_length alt_prior het_prior seti pos0 altseq altseq_length).

Lemma read_flags_strip r : read_flags (strip_xa r) = read_flags r.
Proof. reflexivity. Qed.

Lemma is_skipped_strip r : is_skipped g (strip_xa r) = is_skipped g r.
Proof. reflexivity. Qed.

Lemma read_step_skipped seti i r st : is_skipped g r = true -> step seti i r st = st.
Proof.
  unfold is_skipped, read_step. destruct (read_flags r) as [[u rv] s].
  destruct u; [reflexivity|]. simpl. intros ->. reflexivity.
Qed.

Lemma read_step_strip seti i r st : step seti i r st = step seti i (strip_xa r) st.
Proof.
  unfold read_step. rewrite read_flags_strip. destruct (read_flags r) as [[u rv] s].
  destruct u; [reflexivity|]. destruct (negb (g_pao g =? 0)%Z && s)%bool; [reflexivity|].
  cbn [r_multimap strip_xa].
  destruct (r_multimap r) as [m|]; [|reflexivity].
  replace (g_pao g =? 0)%Z with false by (symmetry; apply Z.eqb_neq, Hpao). reflexivity.
Qed.

Lemma read_step_arrays_pos seti i r st :
  seti <> 0%nat -> st_pout (step seti i r st) = st_pout st /\ st_prgu (step seti i r st) = st_prgu st.
Proof.
  intros Hs. apply Nat.eqb_neq in Hs. unfold read_step.
  destruct (read_flags r) as [[u rv] s]. destruct u; [auto|].
  destruct (negb (g_pao g =? 0)%Z && s)%bool; [auto|].
  destruct (match r_multimap r with Some m => _ | None => _ end) as [[p1 u1] v1]. simpl. rewrite Hs. auto.
Qed.

Lemma read_step_arrays_other seti i r st k :
  k <> i -> st_pout (step seti i r st) k = st_pout st k /\ st_prgu (step seti i r st) k = st_prgu st k.
Proof.
  intros Hk. apply Nat.eqb_neq in Hk. unfold read_step.
  destruct (read_flags r) as [[u rv] s]. destruct u; [auto|].
  destruct (negb (g_pao g =? 0)%Z && s)%bool; [auto|].
  destruct (match r_multimap r with Some m => _ | None => _ end) as [[p1 u1] v1]. simpl.
  destruct (Nat.eqb seti 0); [unfold fupd; rewrite Hk|]; auto.
Qed.

Lemma reads_loop_arrays_pos seti reads i st :
  seti <> 0%nat -> st_pout (loop seti reads i st) = st_pout st /\ st_prgu (loop seti reads i st) = st_prgu st.
Proof.
  intros Hs. revert i st. induction reads as [|r rest IH]; intros i st; simpl; [auto|].
  destruct (IH (S i) (step seti i r st)) as [-> ->]. apply read_step_arrays_pos, Hs.
Qed.

Lemma reads_loop_arrays_before seti reads i st k :
  (k < i)%nat -> st_pout (loop seti reads i st) k = st_pout st k /\ st_prgu (loop seti reads i st) k = st_prgu st k.
Proof.
  revert i st. induction reads as [|r rest IH]; intros i st Hk; simpl; [auto|].
  destruct (IH (S i) (step seti i r st) ltac:(lia)) as [-> ->]. apply read_step_arrays_other. lia.
Qed.

(** One kept read, processed by two runs whose states agree. *)
Lemma read_step_rel seti i j r st1 st2 :
  is_skipped g r = false ->
  state_proj st1 = state_proj st2 ->
  (seti = 0%nat \/ (st_pout st1 i = st_pout st2 j /\ st_prgu st1 i = st_prgu st2 j)) ->
  state_proj (step seti i r st1) = state_proj (step seti j r st2) /\
  (seti = 0%nat -> st_pout (step seti i r st1) i = st_pout (step seti j r st2) j /\
                   st_prgu (step seti i r st1) i = st_prgu (step seti j r st2) j).
Proof.
  intros Hk Hp Ha.
  destruct st1 as [a1 b1 c1 d1 e1 p1 u1], st2 as [a2 b2 c2 d2 e2 p2 u2].
  unfold state_proj in Hp. simpl in Hp, Ha. injection Hp as <- <- <- <- <-.
  unfold is_skipped in Hk. unfold read_step.
  destruct (read_flags r) as [[u rv] s]. destruct u; [discriminate|].
  simpl in Hk. rewrite Hk.
  assert (Hx : forall pout0 prgu0 prgv0 : R,
    match r_multimap r with
    | Some m => if (g_pao g =? 0)%Z
                then xa_loop fs r rv (read_is_match r) (read_no_match r)
                       (set_prob_matrix (r_qseq r) (Z.to_nat (r_length r)) (read_is_match r) (read_no_match r))
                       seti (if Nat.eqb seti 0 then elsewhere_of r else 0%R) pos0 altseq altseq_length
                       (read_xa m) pout0 prgu0 prgv0
                else (pout0, prgu0, prgv0)
    | None => (pout0, prgu0, prgv0)
    end = (pout0, prgu0, prgv0)).
  { intros. destruct (r_multimap r); [|reflexivity].
    replace (g_pao g =? 0)%Z with false by (symmetry; apply Z.eqb_neq, Hpao). reflexivity. }
  rewrite !Hx.
  destruct Ha as [->|[Hp1 Hu1]].
  - simpl. unfold fupd. rewrite !Nat.eqb_refl. split; [reflexivity|auto].
  - destruct (Nat.eqb seti 0) eqn:Es; [apply Nat.eqb_eq in Es|].
    + subst seti. simpl. unfold fupd. rewrite !Nat.eqb_refl. split; [reflexivity|auto].
    + cbn [st_pout st_prgu]. rewrite Hp1, Hu1. split; [reflexivity|]. intros ->. discriminate.
Qed.

Lemma reads_loop_rel seti reads i j st1 st2 :
  state_proj st1 = state_proj st2 ->
  (seti = 0%nat \/ arrays_agree g (st_pout st1) (st_prgu st1) (st_pout st2) (st_prgu st2) reads i j) ->
  state_proj (loop seti reads i st1) = state_proj (loop seti (primary_view g reads) j st2) /\
  arrays_agree g (st_pout (loop seti reads i st1)) (st_prgu (loop seti reads i st1))
                 (st_pout (loop seti (primary_view g reads) j st2))
                 (st_prgu (loop seti (primary_view g reads) j st2)) reads i j.
Proof.
  revert i j st1 st2. induction reads as [|r rest IH]; intros i j st1 st2 Hp Ha; [split; [exact Hp|exact I]|].
  unfold primary_view. simpl. destruct (is_skipped g r) eqn:Ek; simpl.
  - rewrite (read_step_skipped seti i r st1 Ek).
    apply IH; [exact Hp|]. destruct Ha as [->|Ha]; [left; reflexivity|right].
    simpl in Ha. rewrite Ek in Ha. exact Ha.
  - rewrite <- read_step_strip.
    assert (Ha0 : seti = 0%nat \/ (st_pout st1 i = st_pout st2 j /\ st_prgu st1 i = st_prgu st2 j)).
    { destruct Ha as [->|Ha]; [left; reflexivity|right]. simpl in Ha. rewrite Ek in Ha. apply Ha. }
    destruct (read_step_rel seti i j r st1 st2 Ek Hp Ha0) as [Hp' Hh].
    assert (Ha' : seti = 0%nat \/
              arrays_agree g (st_pout (step seti i r st1)) (st_prgu (step seti i r st1))
                (st_pout (step seti j r st2)) (st_prgu (step seti j r st2)) rest (S i) (S j)).
    { destruct (decide (seti = 0%nat)) as [->|Hs]; [left; reflexivity|right].
      destruct Ha as [->|Ha]; [congruence|]. simpl in Ha. rewrite Ek in Ha.
      destruct (read_step_arrays_pos seti i r st1 Hs) as [-> ->].
      destruct (read_step_arrays_pos seti j r st2 Hs) as [-> ->]. apply Ha. }
    destruct (IH (S i) (S j) _ _ Hp' Ha') as [H1 H2].
    fold (primary_view g rest) in H1, H2 |- *.
    split; [exact H1|]. split; [|exact H2].
    destruct (reads_loop_arrays_before seti rest (S i) (step seti i r st1) i ltac:(lia)) as [-> ->].
    destruct (reads_loop_arrays_before seti (primary_view g rest) (S j) (step seti j r st2) j ltac:(lia))
      as [-> ->].
    destruct (decide (seti = 0%nat)) as [->|Hs]; [apply Hh; reflexivity|].
    destruct Ha0 as [->|[Hp1 Hu1]]; [congruence|].
    destruct (read_step_arrays_pos seti i r st1 Hs) as [-> ->].
    destruct (read_step_arrays_pos seti j r st2 Hs) as [-> ->]. split; assumption.
Qed.


End Pao.

Lemma combos_loop_rel g fs (Hpao : g_pao g <> 0%Z) refseq refseq_length alt_prior het_prior reads var_combo seti ref p1 u1 p2 u2 :
  (seti = 0%nat \/ arrays_agree g p1 u1 p2 u2 reads 0 0) ->
  combos_loop g fs refseq refseq_length alt_prior het_prior reads var_combo seti ref p1 u1 =
  combos_loop g fs refseq refseq_length alt_prior het_prior (primary_view g reads) var_combo seti ref p2 u2.
Proof.
  revert seti ref p1 u1 p2 u2.
  induction var_combo as [|combo rest IH]; intros seti ref p1 u1 p2 u2 Ha; [reflexivity|].
  simpl.
  match goal with
  | |- context [reads_loop g fs ?a ?b ?c ?d ?e ?f ?h ?k reads 0 ?st1] =>
      match goal with
      | |- context [reads_loop g fs a b c d e f h k (primary_view g reads) 0 ?st2] =>
          destruct (reads_loop_rel g fs Hpao a b c d f h k e reads 0 0 st1 st2 eq_refl Ha) as [Hp Hg];
          set (s1 := reads_loop g fs a b c d e f h k reads 0 st1) in *;
          set (s2 := reads_loop g fs a b c d e f h k (primary_view g reads) 0 st2) in *
      end
  end.
  unfold state_proj in Hp. injection Hp as E1 E2 E3 E4 E5.
  rewrite (IH (S seti) (st_ref s1) (st_pout s1) (st_prgu s1) (st_pout s2) (st_prgu s2) (or_intror Hg)).
  rewrite E1, E2, E3, E4, E5. reflexivity.
Qed.


Lemma evaluate_variants_pao g fr1 fr2 fs varlist set :
  g_pao g <> 0%Z ->
  primary_view g (region_reads fr1 varlist set) = primary_view g (region_reads fr2 varlist set) ->
  (region_reads fr1 varlist set = [] <-> region_reads fr2 varlist set = []) ->
  evaluate_variants g fr1 fs varlist set = evaluate_variants g fr2 fs varlist set.
Proof.
  intros Hpao Hv He. unfold evaluate_variants. unfold region_reads in Hv, He.
  cbv zeta in Hv, He |- *.
  destruct (fr1 _ _ _) as [|r1 rs1], (fr2 _ _ _) as [|r2 rs2].
  - reflexivity.
  - exfalso. pose proof (proj1 He eq_refl). discriminate.
  - exfalso. pose proof (proj2 He eq_refl). discriminate.
  - destruct (fs _) as [refseq rl]. destruct (priors _ _ _) as [ap hp].
    rewrite (combos_loop_rel g fs Hpao refseq rl ap hp (r1 :: rs1) _ 0 0
               (fun _ => 0%R) (fun _ => 0%R) (fun _ => 0%R) (fun _ => 0%R) (or_introl eq_refl)).
    rewrite (combos_loop_rel g fs Hpao refseq rl ap hp (r2 :: rs2) _ 0 0
               (fun _ => 0%R) (fun _ => 0%R) (fun _ => 0%R) (fun _ => 0%R) (or_introl eq_refl)).
    rewrite Hv. reflexivity.
Qed.

End PaoFacts.

Module PaoClaims.
Import Evaluator Grouper OutputFacts PaoFacts Samples.

(** Claim C8 (counterexample): with [--pao], a region whose only read is a
    secondary alignment and a region with no reads have the same primary
    reads, yet the first prints a line for the variant and the second
    prints nothing: the emptiness test of [evaluate_variants] runs on the
    fetched reads before any is skipped. *)
Lemma pao_secondary_only_counterexample :
  g_pao g1 <> 0%Z /\
  primary_view g1 [r_sec] = primary_view g1 [] /\
  option_map (map (map l_var)) (evaluated_sets g1 (fun _ _ _ => [r_sec]) fs0 vl1 10) = Some [[0%nat]] /\
  evaluated_sets g1 (fun _ _ _ => []) fs0 vl1 10 = Some [].
Proof.
  assert (Hh : hypothesis_sets vl1 10 = Some [[0%nat]]) by (vm_compute; reflexivity).
  split; [vm_compute; discriminate|]. split; [vm_compute; reflexivity|]. split.
  - destruct (evaluated_sets_vars g1 (fun _ _ _ => [r_sec]) fs0 vl1 10 _ Hh) as [He Hv].
    rewrite He. cbn [option_map]. rewrite Hv. vm_compute. reflexivity.
  - vm_compute. reflexivity.
Qed.

(** Claim C8 (amended): with [--pao], the read loop skips every read
    flagged SECONDARY or SUPPLEMENTARY; a read's XA tag has no effect; and
    two runs whose regions, set by set, keep the same primary reads (up to
    XA tags) and are both empty or both non-empty print the same lines. *)
Theorem pao_noninterference g fs :
  g_pao g <> 0%Z ->
  (forall refseq refseq_length alt_prior het_prior seti pos0 altseq altseq_length readi r st,
     snd (read_flags r) = true ->
     read_step g fs refseq refseq_length alt_prior het_prior seti pos0 altseq altseq_length readi r st = st) /\
  (forall refseq refseq_length alt_prior het_prior seti pos0 altseq altseq_length readi r st,
     read_step g fs refseq refseq_length alt_prior het_prior seti pos0 altseq altseq_length readi r st =
     read_step g fs refseq refseq_length alt_prior het_prior seti pos0 altseq altseq_length readi
       (strip_xa r) st) /\
  (forall fr1 fr2 varlist distlim,
     (forall sets s, hypothesis_sets varlist distlim = Some sets -> In s sets ->
        primary_view g (region_reads fr1 varlist s) = primary_view g (region_reads fr2 varlist s) /\
        (region_reads fr1 varlist s = [] <-> region_reads fr2 varlist s = [])) ->
     evaluated_sets g fr1 fs varlist distlim = evaluated_sets g fr2 fs varlist distlim).
Proof.
  intros Hpao. split; [|split].
  - intros. apply read_step_skipped. unfold is_skipped.
    destruct (read_flags r) as [[u rv] s]. simpl in *. subst s.
    replace (g_pao g =? 0)%Z with false by (symmetry; apply Z.eqb_neq, Hpao).
    destruct u; reflexivity.
  - intros. apply read_step_strip, Hpao.
  - intros fr1 fr2 varlist distlim H0. unfold evaluated_sets.
    destruct (hypothesis_sets varlist distlim) as [sets|]; [|reflexivity].
    pose proof (fun s => H0 sets s eq_refl) as H1. clear H0. simpl. f_equal. revert H1.
    induction sets as [|s ss IH]; intros H; [reflexivity|].
    rewrite !omap_cons_eq.
    destruct (H s (or_introl eq_refl)) as [Hv He].
    rewrite (evaluate_variants_pao g fr1 fr2 fs varlist s Hpao Hv He).
    rewrite IH; [reflexivity|]. intros s' Hin. apply H. right. exact Hin.
Qed.

Lemma pao_noninterference_witness :
  evaluated_sets g1 (fun _ _ _ => [r_xa; r_sec]) fs0 vl1 10 =
  evaluated_sets g1 (fun _ _ _ => [r0]) fs0 vl1 10.
Proof.
  destruct (pao_noninterference g1 fs0 ltac:(vm_compute; discriminate)) as [_ [_ H]].
  apply H. intros sets s Hh Hin. vm_compute in Hh. injection Hh as <-. destruct Hin as [<-|[]].
  split; [vm_compute; reflexivity|]. split; intros E; vm_compute in E; discriminate.
Defined.

End PaoClaims.

Module MvhClaims.
Import Combos Evaluator Grouper OutputFacts Samples.




End MvhClaims.

Module LogFacts.
Local Open Scope R_scope.

Lemma ln_le_mono x y : 0 < x -> x <= y -> ln x <= ln y.
Proof.
  intros Hx Hxy. destruct (Rle_lt_or_eq_dec x y Hxy) as [H|E]; [|subst; lra].
  left. apply ln_increasing; assumption.
Qed.

Lemma exp_le_1 x : x <= 0 -> exp x <= 1.
Proof.
  intros H. rewrite <- exp_0. destruct (Rle_lt_or_eq_dec x 0 H) as [H'|E]; [|subst; lra].
  left. apply exp_increasing, H'.
Qed.

Lemma log_add_exp_ge a b : a <= log_add_exp a b /\ b <= log_add_exp a b.
Proof.
  unfold log_add_exp. destruct (Rgt_dec a b) as [H|H].
  - assert (0 <= ln (exp (a - a) + exp (b - a))).
    { rewrite Rminus_diag, exp_0. rewrite <- ln_1. apply ln_le_mono; [lra|].
      pose proof (exp_pos (b - a)). lra. }
    lra.
  - assert (0 <= ln (exp (a - b) + exp (b - b))).
    { rewrite (Rminus_diag b), exp_0. rewrite <- ln_1. apply ln_le_mono; [lra|].
      pose proof (exp_pos (a - b)). lra. }
    lra.
Qed.

Lemma log_add_exp_le a b : log_add_exp a b <= Rmax a b + ln 2.
Proof.
  unfold log_add_exp. destruct (Rgt_dec a b) as [H|H].
  - rewrite Rmax_left by lra.
    assert (ln (exp (a - a) + exp (b - a)) <= ln 2).
    { apply ln_le_mono; [pose proof (exp_pos (a - a)); pose proof (exp_pos (b - a)); lra|].
      rewrite Rminus_diag, exp_0.
      assert (exp (b - a) <= 1) by (apply exp_le_1; lra). lra. }
    lra.
  - rewrite Rmax_right by lra.
    assert (ln (exp (a - b) + exp (b - b)) <= ln 2).
    { apply ln_le_mono; [pose proof (exp_pos (a - b)); pose proof (exp_pos (b - b)); lra|].
      rewrite (Rminus_diag b), exp_0.
      assert (exp (a - b) <= 1) by (apply exp_le_1; lra). lra. }
    lra.
Qed.

Lemma ln2_bounds : 0 < ln 2 < 1.
Proof.
  split.
  - rewrite <- ln_1. apply ln_increasing; lra.
  - rewrite <- ln_exp with (x := 1). apply ln_increasing; [lra|].
    pose proof (exp_ineq1 1 ltac:(lra)). lra.
Qed.

Lemma M_1_LN10_pos : 0 < M_1_LN10.
Proof.
  unfold M_1_LN10. apply Rinv_0_lt_compat. rewrite <- ln_1. apply ln_increasing; lra.
Qed.

End LogFacts.

Module MarginalFacts.
Import Combos Evaluator LogFacts.

Lemma max_fold_ge (l : list Z) m0 :
  (m0 <= fold_left (fun m c => if (c >? m)%Z then c else m) l m0)%Z.
Proof.
  revert m0. induction l as [|c l IH]; intros m0; simpl; [lia|].
  specialize (IH (if (c >? m0)%Z then c else m0)).
  destruct (c >? m0)%Z eqn:E; [apply Z.gtb_lt in E|]; lia.
Qed.

Lemma max_fold_in (l : list Z) m0 c :
  In c l -> (c <= fold_left (fun m c => if (c >? m)%Z then c else m) l m0)%Z.
Proof.
  revert m0. induction l as [|c' l IH]; intros m0 Hin; [destruct Hin|]. simpl.
  destruct Hin as [E|Hin]; [subst c'|apply IH, Hin].
  pose proof (max_fold_ge l (if (c >? m0)%Z then c else m0)).
  destruct (c >? m0)%Z eqn:E; [apply Z.gtb_lt in E|rewrite Z.gtb_ltb in E; apply Z.ltb_ge in E]; lia.
Qed.

Lemma max_count_nonneg l : (0 <= max_count l)%Z.
Proof. apply max_fold_ge. Qed.

Lemma variant_marginals_count_fold (l : list (list Variant * (R * R * Z * Z))) v ha na h0 M :
  (0 <= h0 <= M)%Z ->
  (forall ca, In ca l -> let '(_, (_, _, _, ac)) := ca in (ac <= M)%Z) ->
  let '(_, _, h) :=
    fold_left
      (fun st ca =>
         let '(has_alt, not_alt, has_alt_count) := st in
         let '(combo, (a, h, _, ac)) := ca in
         if negb (find_variant combo v =? -1)%Z then
           (if Req_EM_T has_alt 0 then log_add_exp a h else log_add_exp has_alt (log_add_exp a h),
            not_alt,
            if (ac >? has_alt_count)%Z then ac else has_alt_count)
         else (has_alt, log_add_exp not_alt (log_add_exp a h), has_alt_count))
      l (ha, na, h0) in
  (0 <= h <= M)%Z.
Proof.
  revert ha na h0. induction l as [|[combo [[[a h] rc] ac]] l IH]; intros ha na h0 Hh HM; [exact Hh|].
  simpl. pose proof (HM _ (or_introl eq_refl)) as Hac. simpl in Hac.
  destruct (negb _); apply IH; try (intros ca Hin; apply HM; right; exact Hin).
  - destruct (ac >? h0)%Z eqn:E; [apply Z.gtb_lt in E|]; lia.
  - exact Hh.
Qed.

Lemma evaluate_variants_counts g fr fs varlist set :
  match evaluate_variants g fr fs varlist set with
  | Some lines => Forall (fun l => (0 <= l_has_alt_count l <= l_read_count l)%Z) lines
  | None => True
  end.
Proof.
  unfold evaluate_variants. cbv zeta.
  destruct (fr _ _ _) as [|r rs]; [exact I|].
  destruct (fs _) as [refseq rl]. destruct (priors _ _ _) as [ap hp].
  destruct (combos_loop _ _ _ _ _ _ _ _ _ _ _ _) as [rf accs].
  apply Forall_forall. intros l Hl. apply list_elem_of_In, in_map_iff in Hl.
  destruct Hl as [[ptr v] [<- _]].
  set (vc := eval_combos g (map (fun k => nth k varlist dummy_variant) set)).
  set (M := max_count (map (fun acc => let '(_, _, _, ac) := acc in ac) accs)).
  assert (HB : forall ca, In ca (combine vc accs) -> let '(_, (_, _, _, ac)) := ca in (ac <= M)%Z).
  { intros [combo [[[a h] rc] ac]] Hin. apply in_combine_r in Hin.
    apply max_fold_in. apply (in_map (fun acc : R * R * Z * Z => let '(_, _, _, ac) := acc in ac) _ _ Hin). }
  pose proof (variant_marginals_count_fold (combine vc accs) v 0%R rf 0%Z M
                ltac:(split; [lia|apply max_count_nonneg]) HB) as Hc.
  unfold variant_marginals. fold vc.
  destruct (fold_left _ (combine vc accs) (0%R, rf, 0%Z)) as [[ha na] hc].
  simpl. pose proof (max_count_nonneg (map (fun acc : R * R * Z * Z => let '(_, _, rc, _) := acc in rc) accs)).
  fold M. lia.
Qed.

End MarginalFacts.

Module MarginalClaims.
Import Combos Evaluator LogFacts MarginalFacts Samples.

(** Claim C2: every printed line has [0 <= has_alt_count <= read_count];
    but [prob <= 0] fails. The marginalisation loop sets
    [total = log_add_exp(ref, log_add_exp(alt[seti], het[seti]))] at each
    combination instead of accumulating into [total] (as [not_alt] does),
    so [total] keeps only the last combination. For two variants [v], [w],
    with [ref = -100] and [alt], [het] of -1 for the combination [{v}] and
    of -100 for [{w}] and [{v, w}], the line of [v] gets [prob > 0]. *)
Theorem marginals_overwrite :
  (forall g fr fs varlist set,
     match evaluate_variants g fr fs varlist set with
     | Some lines => Forall (fun l => (0 <= l_has_alt_count l <= l_read_count l)%Z) lines
     | None => True
     end) /\
  (let v := nth 0 vl3 dummy_variant in
   let w := nth 1 vl3 dummy_variant in
   let accs := [((-1)%R, (-1)%R, 0%Z, 1%Z); ((-100)%R, (-100)%R, 0%Z, 0%Z);
                ((-100)%R, (-100)%R, 0%Z, 0%Z)] in
   eval_combos g0 [v; w] = [[v]; [w]; [v; w]] /\
   (let '(has_alt, _, _) := variant_marginals (-100)%R (eval_combos g0 [v; w]) accs v in
    ((has_alt - marginal_total (-100)%R accs) * M_1_LN10 > 0)%R)).
Proof.
  split; [exact evaluate_variants_counts|].
  intros v w accs.
  assert (E : eval_combos g0 [v; w] = [[v]; [w]; [v; w]]) by (vm_compute; reflexivity).
  split; [exact E|]. rewrite E.
  unfold variant_marginals, marginal_total, accs. cbn [combine fold_left].
  replace (negb (find_variant [v] v =? -1)%Z) with true by (vm_compute; reflexivity).
  replace (negb (find_variant [w] v =? -1)%Z) with false by (vm_compute; reflexivity).
  replace (negb (find_variant [v; w] v =? -1)%Z) with true by (vm_compute; reflexivity).
  destruct (Req_EM_T 0 0) as [_|H0]; [|congruence].
  pose proof (log_add_exp_le (-1) (-1)) as H1. rewrite Rmax_left in H1 by lra.
  pose proof ln2_bounds as Hl.
  destruct (Req_EM_T (log_add_exp (-1) (-1)) 0) as [Hz|_]; [lra|].
  cbn -[log_add_exp M_1_LN10].
  pose proof (log_add_exp_ge (log_add_exp (-1) (-1)) (log_add_exp (-100) (-100))) as [H2 _].
  pose proof (log_add_exp_ge (-1) (-1)) as [H3 _].
  pose proof (log_add_exp_le (-100) (-100)) as H4. rewrite Rmax_left in H4 by lra.
  pose proof (log_add_exp_le (-100) (log_add_exp (-100) (-100))) as H5.
  assert (H6 : (Rmax (-100) (log_add_exp (-100) (-100)) <= -100 + ln 2)%R)
    by (apply Rmax_lub; lra).
  apply Rmult_gt_0_compat; [|apply M_1_LN10_pos]. lra.
Qed.

End MarginalClaims.

Module ListFacts.

Lemma nth_map_seq {B} (f : nat -> B) L b d : (b < L)%nat -> nth b (map f (seq 0 L)) d = f b.
Proof.
  intros Hb. rewrite (nth_indep _ d (f 0%nat)) by (rewrite length_map, length_seq; exact Hb).
  rewrite map_nth, seq_nth by exact Hb. reflexivity.
Qed.

End ListFacts.


Module LogFacts2.
Import LogFacts.
Local Open Scope R_scope.

Lemma ln_exp_shift x m : 0 < x -> ln (x * exp (- m)) + m = ln x.
Proof.
  intros Hx. rewrite ln_mult by (auto using exp_pos). rewrite ln_exp. ring.
Qed.

Lemma lae_ln a b : log_add_exp a b = ln (exp a + exp b).
Proof.
  unfold log_add_exp. set (m := if Rgt_dec a b then a else b).
  unfold Rminus. rewrite !exp_plus.
  replace (exp a * exp (- m) + exp b * exp (- m)) with ((exp a + exp b) * exp (- m)) by ring.
  apply ln_exp_shift. pose proof (exp_pos a). pose proof (exp_pos b). lra.
Qed.

Lemma fold_sum_exp (l : list R) (m acc : R) :
  fold_left (fun s x => s + exp (x - m)) l acc = acc + exp (- m) * sum (map exp l).
Proof.
  revert acc. induction l as [|x l IH]; intros acc; simpl; [ring|].
  rewrite IH. unfold Rminus. rewrite exp_plus. ring.
Qed.

Lemma sum_map_exp_nonneg (l : list R) : 0 <= sum (map exp l).
Proof. induction l as [|z l IHl]; simpl; [lra|]. pose proof (exp_pos z). lra. Qed.

Lemma sum_map_exp_pos (x : R) (l : list R) : 0 < sum (map exp (x :: l)).
Proof. simpl. pose proof (sum_map_exp_nonneg l). pose proof (exp_pos x). lra. Qed.

Lemma lse_ln (a : list R) : a <> [] -> log_sum_exp a = ln (sum (map exp a)).
Proof.
  intros Ha. destruct a as [|a0 rest]; [congruence|].
  unfold log_sum_exp. rewrite fold_sum_exp, Rplus_0_l, Rmult_comm.
  apply ln_exp_shift, sum_map_exp_pos.
Qed.

End LogFacts2.

Module LogProps.
Import LogFacts LogFacts2.
Local Open Scope R_scope.

(** [log_add_exp] computes [ln (exp a + exp b)] exactly (over the reals),
    and lies between [max a b] and [max a b + ln 2]. *)
Theorem log_add_exp_exact a b :
  log_add_exp a b = ln (exp a + exp b) /\ Rmax a b <= log_add_exp a b <= Rmax a b + ln 2.
Proof.
  split; [apply lae_ln|].
  split; [|apply log_add_exp_le].
  destruct (log_add_exp_ge a b). apply Rmax_lub; assumption.
Qed.

(** [log_sum_exp] of a non-empty array is [ln] of the sum of the [exp]s. *)
Theorem log_sum_exp_exact (a : list R) (Ha : a <> []) :
  log_sum_exp a = ln (sum (map exp a)).
Proof. apply lse_ln, Ha. Qed.

Lemma log_sum_exp_exact_witness :
  [0; 0] <> [] /\ log_sum_exp [0; 0] = ln (sum (map exp [0; 0])).
Proof.
  split; [discriminate|]. apply log_sum_exp_exact. discriminate.
Defined.

End LogProps.

Module LogFacts3.
Import LogFacts LogFacts2.
Local Open Scope R_scope.

Lemma sum_perm (l l' : list R) : Permutation l l' -> sum l = sum l'.
Proof. induction 1; simpl; lra. Qed.

Lemma xlog_add_exp_fin a b : xlog_add_exp (XFin a) (XFin b) = XFin (log_add_exp a b).
Proof.
  unfold xlog_add_exp, log_add_exp. cbn [xgt].
  destruct (Rgt_dec a b); cbn [xsub xexp xadd xln];
    (destruct (Rlt_dec _ _) as [H|H]; [reflexivity|]);
    exfalso; apply H; apply Rplus_lt_0_compat; apply exp_pos.
Qed.

End LogFacts3.

Module LogClaims.
Import LogFacts LogFacts2 LogFacts3.
Local Open Scope R_scope.

(** Claim C9: over doubles with their infinities, [log_add_exp(-INFINITY, x)]
    is [x] for every finite [x], and on finite arguments [log_add_exp] is
    the real-number [log_add_exp]; for all reals [a], [b],
    [log_add_exp a b >= max a b] and [log_add_exp a b = log_add_exp b a]
    (exactly); [log_sum_exp [x] = x], and [log_sum_exp] is invariant under
    permutation of its input. *)
Theorem log_add_exp_claim :
  (forall x, xlog_add_exp XNegInf (XFin x) = XFin x) /\
  (forall a b, xlog_add_exp (XFin a) (XFin b) = XFin (log_add_exp a b)) /\
  (forall a b, Rmax a b <= log_add_exp a b) /\
  (forall a b, log_add_exp a b = log_add_exp b a) /\
  (forall x, log_sum_exp [x] = x) /\
  (forall l l', Permutation l l' -> log_sum_exp l = log_sum_exp l').
Proof.
  split; [|split; [|split; [|split; [|split]]]].
  - intros x. unfold xlog_add_exp. cbn [xgt xsub xexp xadd xln].
    destruct (Rlt_dec _ _) as [H|H].
    + cbn [xadd]. f_equal. rewrite Rminus_diag, exp_0, Rplus_0_l, ln_1. ring.
    + exfalso. apply H. rewrite Rplus_0_l. apply exp_pos.
  - exact xlog_add_exp_fin.
  - intros a b. destruct (log_add_exp_ge a b). apply Rmax_lub; assumption.
  - intros a b. rewrite !lae_ln. f_equal. ring.
  - intros x. unfold log_sum_exp. cbn [fold_left].
    rewrite Rminus_diag, exp_0, Rplus_0_l, ln_1. ring.
  - intros l l' Hp. destruct l as [|x l].
    + apply Permutation_nil in Hp. subst. reflexivity.
    + assert (Hne : l' <> []) by (intros ->; apply Permutation_sym, Permutation_nil in Hp; discriminate).
      rewrite !lse_ln by (try discriminate; exact Hne). f_equal.
      apply sum_perm, Permutation_map, Hp.
Qed.

Lemma log_add_exp_claim_witness :
  Permutation [0; 1] [1; 0] /\ log_sum_exp [0; 1] = log_sum_exp [1; 0].
Proof.
  assert (Hp : Permutation [0; 1] [1; 0]) by apply perm_swap.
  split; [exact Hp|].
  destruct log_add_exp_claim as [_ [_ [_ [_ [_ H]]]]]. apply H, Hp.
Defined.

End LogClaims.

Module StrandProps.
Import Evaluator Tables ListFacts.

Lemma compl_map_acgtn c : is_acgtn c = true -> is_acgtn (compl_map c) = true /\ compl_map (compl_map c) = c.
Proof.
  destruct c as [[] [] [] [] [] [] [] []]; vm_compute; intros H; try discriminate; auto.
Qed.

Lemma matrix_col_acgtn c :
  is_acgtn c = true ->
  exists k, matrix_col c = Some k /\ (k < 5)%nat /\ matrix_col (compl_map c) = Some (compl_col k).
Proof.
  destruct c as [[] [] [] [] [] [] [] []]; vm_compute; intros H; try discriminate;
    eexists; (split; [reflexivity|split; [lia|reflexivity]]).
Qed.

Lemma matrix_col_lt c k : matrix_col c = Some k -> (k < 5)%nat.
Proof.
  unfold matrix_col. destruct (seqnt_map c) as [v|]; [|discriminate].
  destruct (Z.ltb_spec v 5); [|discriminate]. intros E. injection E as <-.
  unfold seqnt_map in *. lia.
Qed.

Lemma compl_col_inj c d : (c < 5)%nat -> (d < 5)%nat -> compl_col c = compl_col d -> c = d.
Proof. intros Hc Hd. destruct c as [|[|[|[|[|c]]]]]; destruct d as [|[|[|[|[|d]]]]]; simpl; lia. Qed.

Lemma compl_col_lt c : (c < 5)%nat -> (compl_col c < 5)%nat.
Proof. intros Hc. destruct c as [|[|[|[|[|c]]]]]; simpl; lia. Qed.

(** On a sequence of A, C, G, T and N, [reverse_compl] keeps the length
    and the alphabet, and applying it twice gives the sequence back. *)
Theorem reverse_compl_involutive (qseq : list ascii) (Hq : Forall (fun c => is_acgtn c = true) qseq) :
  reverse_compl (reverse_compl qseq) = qseq /\
  Forall (fun c => is_acgtn c = true) (reverse_compl qseq) /\
  length (reverse_compl qseq) = length qseq.
Proof.
  unfold reverse_compl.
  assert (Hr : Forall (fun c => is_acgtn c = true) (rev qseq)) by (apply Forall_rev; exact Hq).
  split; [|split].
  - rewrite <- map_rev, rev_involutive, map_map.
    transitivity (map (fun c => c) qseq); [|apply map_id].
    rewrite List.Forall_forall in Hq. apply map_ext_in. intros c Hc. apply compl_map_acgtn, Hq, Hc.
  - apply List.Forall_forall. intros c Hc. apply in_map_iff in Hc as [d [<- Hd]].
    apply compl_map_acgtn. rewrite List.Forall_forall in Hr. apply Hr, Hd.
  - rewrite length_map, length_rev. reflexivity.
Qed.

Lemma reverse_compl_involutive_witness :
  Forall (fun c => is_acgtn c = true) ["A"; "C"; "N"]%char /\
  reverse_compl (reverse_compl ["A"; "C"; "N"]%char) = ["A"; "C"; "N"]%char.
Proof.
  split; [repeat constructor|].
  apply (reverse_compl_involutive ["A"; "C"; "N"]%char). repeat constructor.
Defined.

Lemma row_entry (s : nat) (x y : R) (c : nat) :
  (s < 5)%nat -> (c < 5)%nat ->
  nth c (<[s := x]> (replicate 5 y)) 0%R = if Nat.eqb c s then x else y.
Proof.
  intros Hs Hc. apply nth_lookup_Some.
  destruct (Nat.eqb_spec c s) as [->|Hne].
  - apply list_lookup_insert_eq. rewrite length_replicate. exact Hs.
  - rewrite list_lookup_insert_ne by congruence. apply lookup_replicate_2. exact Hc.
Qed.

Lemma mat_get_set_prob_matrix qseq L im nm b c :
  (b < L)%nat -> (c < 5)%nat ->
  mat_get (set_prob_matrix qseq L im nm) b c =
  if bool_decide (matrix_col (nth b qseq zero) = Some c) then nth b im 0%R else nth b nm 0%R.
Proof.
  intros Hb Hc. unfold mat_get, set_prob_matrix. rewrite nth_map_seq by exact Hb.
  destruct (matrix_col (nth b qseq zero)) as [k|] eqn:Ek.
  - rewrite row_entry; [|exact (matrix_col_lt _ _ Ek)|exact Hc].
    destruct (Nat.eqb_spec c k) as [->|Hne].
    + rewrite bool_decide_true by reflexivity. reflexivity.
    + rewrite bool_decide_false by congruence. reflexivity.
  - rewrite bool_decide_false by discriminate. apply nth_lookup_Some, lookup_replicate_2. exact Hc.
Qed.

(** Each row [b] of the matrix [set_prob_matrix] builds holds [is_match[b]]
    in the column of the read's [b]-th base and [no_match[b]] in the other
    four; the matrix of the reverse-complemented read, with both arrays
    reversed, is the original matrix read backwards with the columns
    complemented. *)
Theorem set_prob_matrix_strands (qseq : list ascii) (L : nat) (is_match no_match : list R)
    (Hq : Forall (fun c => is_acgtn c = true) qseq) (Hl : length qseq = L)
    (Him : length is_match = L) (Hnm : length no_match = L) :
  (forall b c, (b < L)%nat -> (c < 5)%nat ->
     mat_get (set_prob_matrix qseq L is_match no_match) b c =
     if bool_decide (matrix_col (nth b qseq zero) = Some c) then nth b is_match 0%R else nth b no_match 0%R) /\
  (forall b c, (b < L)%nat -> (c < 5)%nat ->
     mat_get (set_prob_matrix (reverse_compl qseq) L (reverse is_match) (reverse no_match)) b (compl_col c) =
     mat_get (set_prob_matrix qseq L is_match no_match) (L - 1 - b) c).
Proof.
  split; [intros; apply mat_get_set_prob_matrix; assumption|].
  intros b c Hb Hc.
  rewrite !mat_get_set_prob_matrix by (try apply compl_col_lt; lia).
  unfold reverse, reverse_compl.
  rewrite !rev_nth by lia.
  rewrite Him, Hnm.
  rewrite (nth_indep _ zero (compl_map zero)) by (rewrite length_map, length_rev; lia).
  rewrite map_nth, rev_nth by lia. rewrite Hl.
  replace (L - S b)%nat with (L - 1 - b)%nat by lia.
  assert (Hx : is_acgtn (nth (L - 1 - b) qseq zero) = true).
  { rewrite List.Forall_forall in Hq. apply Hq. apply nth_In. lia. }
  destruct (matrix_col_acgtn _ Hx) as [k [Ek [Hk Ec]]].
  rewrite Ek, Ec.
  destruct (decide (k = c)) as [->|Hne].
  - rewrite !bool_decide_true by reflexivity. reflexivity.
  - rewrite !bool_decide_false; [reflexivity| |].
    + congruence.
    + intros E. injection E as E. apply compl_col_inj in E; [congruence|exact Hk|exact Hc].
Qed.

Lemma set_prob_matrix_strands_witness :
  mat_get (set_prob_matrix (reverse_compl ["A"; "G"]%char) 2 (reverse [1; 2]%R) (reverse [3; 4]%R)) 0 (compl_col 2) =
  mat_get (set_prob_matrix ["A"; "G"]%char 2 [1; 2]%R [3; 4]%R) (2 - 1 - 0) 2.
Proof.
  apply (proj2 (set_prob_matrix_strands ["A"; "G"]%char 2 [1; 2]%R [3; 4]%R
           ltac:(repeat constructor) eq_refl eq_refl eq_refl)); lia.
Defined.

End StrandProps.

Module ReadProbFacts.
Import Evaluator LogFacts LogFacts2 ListFacts.
Local Open Scope R_scope.

Lemma calc_prob_loop_nonpos matrix seq seq_length pos baseline b k probability :
  (forall row col, mat_get matrix row col <= 0) -> probability <= 0 ->
  calc_prob_loop matrix seq seq_length pos baseline b k probability <= 0.
Proof.
  intros Hm. revert b probability. induction k as [|k IH]; intros b p Hp; simpl; [exact Hp|].
  destruct (b <? 0)%Z; [apply IH, Hp|].
  destruct (b >=? seq_length)%Z; [exact Hp|].
  assert (mat_entry matrix (Z.to_nat (b - pos)) (nth (Z.to_nat b) seq zero) <= 0)
    by (unfold mat_entry; destruct (matrix_col _); [apply Hm|lra]).
  destruct (Rlt_dec _ _); [lra|]. apply IH. lra.
Qed.

Lemma calc_prob_loop_before matrix seq seq_length pos baseline b k probability :
  (b + Z.of_nat k <= 0)%Z ->
  calc_prob_loop matrix seq seq_length pos baseline b k probability = probability.
Proof.
  revert b. induction k as [|k IH]; intros b Hb; simpl; [reflexivity|].
  rewrite (proj2 (Z.ltb_lt b 0)) by lia. apply IH. lia.
Qed.

Lemma calc_prob_loop_after matrix seq seq_length pos baseline b k probability :
  (seq_length <= b)%Z ->
  calc_prob_loop matrix seq seq_length pos baseline b k probability = probability.
Proof.
  revert b. induction k as [|k IH]; intros b Hb; simpl; [reflexivity|].
  destruct (b <? 0)%Z; [apply IH; lia|].
  rewrite (proj2 (Z.geb_le b seq_length)) by lia. reflexivity.
Qed.

Lemma nth_nonpos (l : list R) i : Forall (fun x => x <= 0) l -> nth i l 0 <= 0.
Proof.
  revert i. induction l as [|x l IH]; intros [|i] H; simpl; try lra; inversion H; subst; auto.
Qed.

Lemma qual_fix_neg q : q <= 0 -> qual_fix q < 0.
Proof. unfold qual_fix. destruct (Req_EM_T q 0); lra. Qed.

Lemma ln10_pos : 0 < M_1_LOG10E.
Proof. unfold M_1_LOG10E. rewrite <- ln_1. apply ln_increasing; lra. Qed.

Lemma is_match_neg q : q <= 0 -> ln (1 - exp (qual_fix q * M_1_LOG10E)) < 0.
Proof.
  intros Hq. pose proof (qual_fix_neg q Hq). pose proof ln10_pos.
  assert (Hlt : exp (qual_fix q * M_1_LOG10E) < 1).
  { rewrite <- exp_0. apply exp_increasing. nra. }
  pose proof (exp_pos (qual_fix q * M_1_LOG10E)).
  rewrite <- ln_1. apply ln_increasing; lra.
Qed.

Lemma no_match_neg q : q <= 0 -> qual_fix q * M_1_LOG10E - LG3 < 0.
Proof.
  intros Hq. pose proof (qual_fix_neg q Hq). pose proof ln10_pos.
  assert (0 < LG3) by (unfold LG3; rewrite <- ln_1; apply ln_increasing; lra). nra.
Qed.

Lemma read_matrix_nonpos r :
  Forall (fun q => q <= 0) (r_qual r) ->
  forall row col,
  mat_get (set_prob_matrix (r_qseq r) (Z.to_nat (r_length r)) (read_is_match r) (read_no_match r)) row col <= 0.
Proof.
  intros Hq row col. unfold mat_get, set_prob_matrix.
  assert (Him : Forall (fun x => x <= 0) (read_is_match r)).
  { unfold read_is_match. apply Forall_map. eapply Forall_impl; [exact Hq|].
    intros q H. simpl. pose proof (is_match_neg q H). lra. }
  assert (Hnm : Forall (fun x => x <= 0) (read_no_match r)).
  { unfold read_no_match. apply Forall_map. eapply Forall_impl; [exact Hq|].
    intros q H. simpl. pose proof (no_match_neg q H). lra. }
  apply nth_nonpos.
  destruct (decide (row < Z.to_nat (r_length r))%nat) as [Hr|Hr].
  - rewrite nth_map_seq by exact Hr.
    destruct (matrix_col _); [|apply Forall_replicate, nth_nonpos, Hnm].
    apply Forall_insert; [apply Forall_replicate, nth_nonpos, Hnm|apply nth_nonpos, Him].
  - rewrite nth_overflow by (rewrite length_map, length_seq; lia). constructor.
Qed.

End ReadProbFacts.

Module ReadProbProps.
Import Evaluator ReadProbFacts.
Local Open Scope R_scope.

(** For a read and a reference of the bases A, C, G, T, N (so every
    matrix column [calc_prob] reads exists), with as many qualities as
    bases, the read's length its number of bases and [seq_length] the
    reference's length: with non-positive base qualities, [calc_prob] of
    the read's matrix is never positive, and it is 0 when the read lies
    wholly outside the sequence ([pos >= seq_length] or
    [pos + read_length <= 0]). *)
Theorem read_calc_prob_nonpos (r : Read) (seq : list ascii) (seq_length pos : Z) (baseline : R)
    (Hq : Forall (fun q => q <= 0) (r_qual r))
    (Hr : Forall (fun c => is_acgtn c = true) (r_qseq r) /\
          length (r_qseq r) = Z.to_nat (r_length r) /\ length (r_qual r) = length (r_qseq r))
    (Hs : Forall (fun c => is_acgtn c = true) seq /\ Z.of_nat (length seq) = seq_length) :
  let matrix := set_prob_matrix (r_qseq r) (Z.to_nat (r_length r)) (read_is_match r) (read_no_match r) in
  calc_prob matrix (r_length r) seq seq_length pos baseline <= 0 /\
  ((seq_length <= pos)%Z \/ (pos + r_length r <= 0)%Z ->
   calc_prob matrix (r_length r) seq seq_length pos baseline = 0).
Proof.
  intros matrix. split.
  - apply calc_prob_loop_nonpos; [apply read_matrix_nonpos, Hq|lra].
  - intros [H|H]; unfold calc_prob.
    + apply calc_prob_loop_after, H.
    + destruct (Z_le_gt_dec 0 (r_length r)) as [HL|HL].
      * apply calc_prob_loop_before. rewrite Z2Nat.id by exact HL. lia.
      * rewrite Z2Nat.nonpos by lia. reflexivity.
Qed.

End ReadProbProps.

Module ElsewhereFacts.
Import Evaluator LogFacts LogFacts2 ReadProbFacts.
Local Open Scope R_scope.

Lemma exp_sum_map (l : list R) : exp (sum l) = fold_right Rmult 1 (map exp l).
Proof.
  induction l as [|x l IH]; simpl; [apply exp_0|]. rewrite exp_plus, IH. ring.
Qed.

Lemma zip_with_map_same {A} (f g : A -> R) (l : list A) :
  zip_with Rminus (map f l) (map g l) = map (fun x => f x - g x) l.
Proof. induction l as [|x l IH]; simpl; [reflexivity|]. rewrite IH. reflexivity. Qed.

Lemma err_bounds q : q <= 0 -> 0 < exp (qual_fix q * M_1_LOG10E) < 1.
Proof.
  intros Hq. split; [apply exp_pos|]. pose proof (qual_fix_neg q Hq). pose proof ln10_pos.
  rewrite <- exp_0. apply exp_increasing. nra.
Qed.

End ElsewhereFacts.

Module ElsewhereProps.
Import Evaluator LogFacts LogFacts2 ReadProbFacts ElsewhereFacts.
Local Open Scope R_scope.

(** For a read with non-positive qualities, the [elsewhere] value that
    [evaluate_variants] computes is [ln] of the product of [1 - e] over the
    bases times [1 + sum e / 3 / (1 - e)], with [e] the error probability of
    each base, minus [LGALPHA] times the read length beyond the inferred
    length. *)
Theorem elsewhere_closed_form (r : Read)
    (Hq : Forall (fun q => q <= 0) (r_qual r)) (Hne : r_qual r <> []) :
  let err q := exp (qual_fix q * M_1_LOG10E) in
  elsewhere_of r =
  ln (fold_right Rmult 1 (map (fun q => 1 - err q) (r_qual r)) *
      (1 + sum (map (fun q => err q / 3 / (1 - err q)) (r_qual r))))
  - LGALPHA * IZR (r_length r - r_inferred_length r).
Proof.
  intros err. subst err. unfold elsewhere_of. f_equal.
  set (a := sum (read_is_match r)).
  set (delta := zip_with Rminus (read_no_match r) (read_is_match r)).
  assert (Hd : delta = map (fun q => (qual_fix q * M_1_LOG10E - LG3) - ln (1 - exp (qual_fix q * M_1_LOG10E))) (r_qual r)).
  { subst delta. unfold read_no_match, read_is_match. apply zip_with_map_same. }
  assert (Hdne : delta <> []) by (rewrite Hd; destruct (r_qual r); [congruence|discriminate]).
  rewrite lae_ln, (lse_ln delta Hdne).
  assert (HS : 0 < sum (map exp delta)) by (destruct delta; [congruence|apply sum_map_exp_pos]).
  rewrite exp_plus, exp_ln by exact HS.
  replace (exp a + exp a * sum (map exp delta)) with (exp a * (1 + sum (map exp delta))) by ring.
  f_equal. f_equal.
  - subst a. rewrite exp_sum_map. unfold read_is_match. rewrite map_map. f_equal.
    apply map_ext_in. intros q Hin. rewrite List.Forall_forall in Hq.
    destruct (err_bounds q (Hq q Hin)). apply exp_ln. lra.
  - f_equal. rewrite Hd, map_map. f_equal. apply map_ext_in. intros q Hin.
    rewrite List.Forall_forall in Hq. destruct (err_bounds q (Hq q Hin)) as [H1 H2].
    unfold Rminus. rewrite !exp_plus, exp_Ropp, exp_Ropp, exp_ln by lra.
    unfold LG3. rewrite exp_ln by lra. field. lra.
Qed.

End ElsewhereProps.

Module PriorProps.
Import Combos CombosFacts Evaluator.
Local Open Scope R_scope.

Lemma ncombos_ge (maxh : Z) (n : nat) : (1 <= n)%nat -> (1 <= ncombos maxh (Z.of_nat n))%Z.
Proof.
  intros Hn. destruct (decide (n = 1%nat)) as [->|Hn1].
  - reflexivity.
  - unfold ncombos. rewrite powerset_shape by lia. rewrite length_app, length_lex_from, binom_1. lia.
Qed.

(** Without [--mvh] and with [0 < hetbias < 1], the reference prior plus
    the [alt_prior] and [het_prior] of each of the [ncombos] hypotheses
    sum to 1 (as probabilities), [exp REFPRIOR + ncombos * (exp alt_prior
    + exp het_prior) = 1]. *)
Theorem priors_sum_to_one (g : Globals) (n : nat)
    (Hmvh : g_mvh g = 0%Z) (Hh : 0 < g_hetbias g < 1) (Hn : (1 <= n)%nat) :
  let nc := ncombos (g_maxh g) (Z.of_nat n) in
  exp REFPRIOR + IZR nc * (exp (fst (priors g n nc)) + exp (snd (priors g n nc))) = 1.
Proof.
  intros nc. unfold priors, REFPRIOR. rewrite Hmvh. simpl negb. rewrite orb_false_r.
  rewrite exp_ln by lra.
  destruct (Nat.eqb_spec n 1) as [->|Hn1]; simpl fst; simpl snd.
  - assert (Hnc : nc = 1%Z) by reflexivity. rewrite Hnc.
    rewrite !exp_ln by lra. lra.
  - assert (Hnc : (1 <= nc)%Z) by (apply ncombos_ge; exact Hn).
    apply IZR_le in Hnc.
    rewrite !exp_ln.
    + field. lra.
    + apply Rdiv_lt_0_compat; lra.
    + apply Rdiv_lt_0_compat; lra.
Qed.

Lemma priors_sum_to_one_witness :
  g_mvh Samples.g0 = 0%Z /\ 0 < g_hetbias Samples.g0 < 1 /\ (1 <= 3)%nat /\
  exp REFPRIOR + IZR (ncombos (g_maxh Samples.g0) (Z.of_nat 3)) *
    (exp (fst (priors Samples.g0 3 (ncombos (g_maxh Samples.g0) (Z.of_nat 3)))) +
     exp (snd (priors Samples.g0 3 (ncombos (g_maxh Samples.g0) (Z.of_nat 3))))) = 1.
Proof.
  split; [reflexivity|]. split; [simpl; lra|]. split; [lia|].
  apply (priors_sum_to_one Samples.g0 3); [reflexivity|simpl; lra|lia].
Defined.

End PriorProps.

Module FindFacts.
Import Evaluator.

Lemma variant_eqb_eq v w : variant_eqb v w = true -> v = w.
Proof.
  unfold variant_eqb. destruct v as [c p r a], w as [c' p' r' a']. simpl.
  intros H. apply andb_prop in H as [H H4]. apply andb_prop in H as [H H3]. apply andb_prop in H as [H1 H2].
  apply String.eqb_eq in H1, H2, H3. apply Z.eqb_eq in H4. subst. reflexivity.
Qed.

Lemma variant_eqb_refl v : variant_eqb v v = true.
Proof. unfold variant_eqb. rewrite !String.eqb_refl, Z.eqb_refl. reflexivity. Qed.

Lemma quot_bounds i j : (0 <= i <= j)%Z -> (i <= Z.quot (i + j) 2 <= j)%Z.
Proof.
  intros H. rewrite Z.quot_div_nonneg by lia.
  pose proof (Z.div_mod (i + j) 2 ltac:(lia)). pose proof (Z.mod_pos_bound (i + j) 2 ltac:(lia)). lia.
Qed.

Lemma find_variant_loop_sound a v i j fuel :
  (0 <= i)%Z -> (j < Z.of_nat (length a))%Z ->
  let n := find_variant_loop a v i j fuel in
  n = (-1)%Z \/ ((0 <= n < Z.of_nat (length a))%Z /\ nth (Z.to_nat n) a dummy_variant = v).
Proof.
  revert i j. induction fuel as [|f IH]; intros i j Hi Hj; simpl; [left; reflexivity|].
  destruct (Z.leb_spec i j) as [Hij|Hij]; [|left; reflexivity].
  pose proof (quot_bounds i j ltac:(lia)) as Hq.
  destruct (variant_eqb v _) eqn:E.
  - right. split; [lia|]. symmetry. apply variant_eqb_eq, E.
  - destruct (pos _ <? pos v)%Z; apply IH; lia.
Qed.

Section Sorted.

Variable a : list Variant.
Hypothesis Hs : forall k, (S k < length a)%nat ->
  (pos (nth k a dummy_variant) < pos (nth (S k) a dummy_variant))%Z.

Lemma sorted_lt k l : (k < l < length a)%nat ->
  (pos (nth k a dummy_variant) < pos (nth l a dummy_variant))%Z.
Proof.
  intros [Hkl Hl]. induction l as [|l IH]; [lia|].
  destruct (decide (k = l)) as [->|Hne]; [apply Hs; lia|].
  pose proof (Hs l ltac:(lia)). pose proof (IH ltac:(lia) ltac:(lia)). lia.
Qed.

Lemma find_variant_loop_complete v m i j fuel :
  (m < length a)%nat -> nth m a dummy_variant = v ->
  (0 <= i <= Z.of_nat m)%Z -> (Z.of_nat m <= j < Z.of_nat (length a))%Z ->
  (j - i + 1 < Z.of_nat fuel)%Z ->
  find_variant_loop a v i j fuel = Z.of_nat m.
Proof.
  intros Hm Hv. revert i j. induction fuel as [|f IH]; intros i j Hi Hj Hf; simpl; [lia|].
  rewrite (proj2 (Z.leb_le i j)) by lia.
  pose proof (quot_bounds i j ltac:(lia)) as Hq.
  set (n := Z.quot (i + j) 2) in *.
  destruct (variant_eqb v (nth (Z.to_nat n) a dummy_variant)) eqn:E.
  - apply variant_eqb_eq in E.
    destruct (decide (Z.to_nat n = m)) as [He|Hne]; [lia|].
    exfalso. rewrite <- Hv in E.
    destruct (Nat.lt_total (Z.to_nat n) m) as [Hlt|[Heq|Hgt]]; [|congruence|].
    + pose proof (sorted_lt (Z.to_nat n) m ltac:(lia)). rewrite E in H. lia.
    + pose proof (sorted_lt m (Z.to_nat n) ltac:(lia)). rewrite E in H. lia.
  - destruct (Z.ltb_spec (pos (nth (Z.to_nat n) a dummy_variant)) (pos v)) as [Hlt|Hge].
    + assert (Hnm : (n < Z.of_nat m)%Z).
      { destruct (Z_lt_ge_dec n (Z.of_nat m)) as [H|H]; [exact H|].
        destruct (decide (Z.to_nat n = m)) as [Heq|Hne].
        - rewrite Heq, Hv, variant_eqb_refl in E. discriminate.
        - pose proof (sorted_lt m (Z.to_nat n) ltac:(lia)). rewrite Hv in H0. lia. }
      apply IH; lia.
    + assert (Hnm : (Z.of_nat m < n)%Z).
      { destruct (Z_lt_ge_dec (Z.of_nat m) n) as [H|H]; [exact H|].
        destruct (decide (Z.to_nat n = m)) as [Heq|Hne].
        - rewrite Heq, Hv, variant_eqb_refl in E. discriminate.
        - pose proof (sorted_lt (Z.to_nat n) m ltac:(lia)). rewrite Hv in H0. lia. }
      apply IH; lia.
Qed.

End Sorted.

End FindFacts.

Module FindProps.
Import Evaluator FindFacts.

(** [find_variant] returns -1 or an index of the array at which the
    variant is stored. *)
Theorem find_variant_sound (a : list Variant) (v : Variant) :
  find_variant a v = (-1)%Z \/
  ((0 <= find_variant a v < Z.of_nat (length a))%Z /\
   nth (Z.to_nat (find_variant a v)) a dummy_variant = v).
Proof. apply find_variant_loop_sound; lia. Qed.

(** On an array with strictly increasing positions, [find_variant] finds
    a variant exactly when it is in the array, and returns its index. *)
Theorem find_variant_complete (a : list Variant) (v : Variant)
    (Hs : forall k, (S k < length a)%nat ->
          (pos (nth k a dummy_variant) < pos (nth (S k) a dummy_variant))%Z) :
  (find_variant a v <> (-1)%Z <-> In v a) /\
  (forall m, (m < length a)%nat -> nth m a dummy_variant = v -> find_variant a v = Z.of_nat m).
Proof.
  assert (Hc : forall m, (m < length a)%nat -> nth m a dummy_variant = v -> find_variant a v = Z.of_nat m).
  { intros m Hm Hv. unfold find_variant. apply find_variant_loop_complete; auto; lia. }
  split; [|exact Hc]. split.
  - intros Hne. destruct (find_variant_loop_sound a v 0 (Z.of_nat (length a) - 1) (S (length a))
                            ltac:(lia) ltac:(lia)) as [H|[Hb Hv]]; [contradiction|].
    rewrite <- Hv. apply nth_In. unfold find_variant in *. lia.
  - intros Hin. apply In_nth with (d := dummy_variant) in Hin as [m [Hm Hv]].
    rewrite (Hc m Hm Hv). lia.
Qed.

Lemma find_variant_complete_witness :
  find_variant Samples.vl3 (nth 2 Samples.vl3 dummy_variant) = Z.of_nat 2.
Proof.
  apply (proj2 (find_variant_complete Samples.vl3 (nth 2 Samples.vl3 dummy_variant)
           ltac:(intros [|[|[|k]]] Hk; simpl in Hk; vm_compute; try reflexivity; lia))); simpl; [lia|reflexivity].
Defined.

End FindProps.

Module TextFacts.
Import Scan RefText.

Lemma span_until_app (stop : ascii -> bool) w rest :
  Forall (fun c => stop c = false) w ->
  match rest with [] => True | c :: _ => stop c = true end ->
  span_until stop (w ++ rest) = (w, rest).
Proof.
  intros Hw Hr. induction Hw as [|c w Hc Hw IH]; simpl.
  - destruct rest as [|c rest]; simpl; [reflexivity|]. rewrite Hr. reflexivity.
  - rewrite Hc, IH. reflexivity.
Qed.

Lemma join_with_cons2 sep t u rest :
  join_with sep (t :: u :: rest) = t ++ sep :: join_with sep (u :: rest).
Proof. reflexivity. Qed.

Lemma join_with_length sep ts :
  Forall (fun t => t <> []) ts -> (length ts <= length (join_with sep ts))%nat.
Proof.
  intros H. induction H as [|t ts Ht Hts IH]; [simpl; lia|].
  destruct ts as [|u ts].
  - simpl. rewrite app_nil_r. destruct t; [congruence|simpl; lia].
  - rewrite join_with_cons2, length_app. simpl. destruct t; [congruence|simpl in *; lia].
Qed.

Lemma digit_value_dec c : is_digit_in 10 c = true ->
  digit_value c = Some (Z.of_nat (nat_of_ascii c) - 48)%Z.
Proof.
  unfold is_digit_in, digit_value.
  destruct ((48 <=? _) && (_ <=? 57))%Z eqn:E1; [reflexivity|].
  destruct ((97 <=? _) && (_ <=? 122))%Z eqn:E2.
  { apply andb_prop in E2 as [E2 _]. apply Z.leb_le in E2. intros H. apply Z.ltb_lt in H. lia. }
  destruct ((65 <=? _) && (_ <=? 90))%Z eqn:E3; [|discriminate].
  apply andb_prop in E3 as [E3 _]. apply Z.leb_le in E3. intros H. apply Z.ltb_lt in H. lia.
Qed.

Lemma scan_digits_app base ds rest acc :
  Forall (fun c => is_digit_in base c = true) ds ->
  match rest with [] => True | c :: _ => is_digit_in base c = false end ->
  scan_digits base (ds ++ rest) acc =
  (fold_left (fun acc c => (acc * base + match digit_value c with Some d => d | None => 0 end)%Z) ds acc, rest).
Proof.
  intros Hds Hr. revert acc. induction Hds as [|c ds Hc Hds IH]; intros acc; simpl.
  - destruct rest as [|c rest]; simpl; [reflexivity|].
    unfold is_digit_in in Hr. destruct (digit_value c) as [d|]; [rewrite Hr|]; reflexivity.
  - unfold is_digit_in in Hc. destruct (digit_value c) as [d|]; [|discriminate].
    rewrite Hc. apply IH.
Qed.

Lemma skip_spaces_nonspace s :
  match s with [] => True | c :: _ => is_space c = false end -> skip_spaces s = s.
Proof. destruct s as [|c s]; simpl; [reflexivity|]. intros H. rewrite H. reflexivity. Qed.

Lemma digit_range c : is_digit_in 10 c = true ->
  (48 <= nat_of_ascii c <= 57)%nat.
Proof.
  unfold is_digit_in, digit_value.
  destruct ((48 <=? _) && (_ <=? 57))%Z eqn:E1.
  { apply andb_prop in E1 as [E1 E2]. apply Z.leb_le in E1, E2. lia. }
  destruct ((97 <=? _) && (_ <=? 122))%Z eqn:E2.
  { apply andb_prop in E2 as [E2 _]. apply Z.leb_le in E2. intros H. apply Z.ltb_lt in H. lia. }
  destruct ((65 <=? _) && (_ <=? 90))%Z eqn:E3; [|discriminate].
  apply andb_prop in E3 as [E3 _]. apply Z.leb_le in E3. intros H. apply Z.ltb_lt in H. lia.
Qed.

Lemma digit_not_space c : is_digit_in 10 c = true -> is_space c = false.
Proof.
  intros H. apply digit_range in H.
  unfold is_space. apply orb_false_iff. split.
  - apply Nat.eqb_neq. lia.
  - apply andb_false_iff. right. apply Nat.leb_gt. lia.
Qed.

Lemma digit_not_sign c : is_digit_in 10 c = true -> Ascii.eqb c "-" = false /\ Ascii.eqb c "+" = false.
Proof.
  intros H. apply digit_range in H.
  split; apply Ascii.eqb_neq; intros ->; vm_compute in H; lia.
Qed.

Lemma digit_range_le b c : (b <= 10)%Z -> is_digit_in b c = true ->
  (48 <= nat_of_ascii c <= 57)%nat.
Proof.
  intros Hb. unfold is_digit_in, digit_value.
  destruct ((48 <=? _) && (_ <=? 57))%Z eqn:E1.
  { apply andb_prop in E1 as [E1 E2]. apply Z.leb_le in E1, E2. lia. }
  destruct ((97 <=? _) && (_ <=? 122))%Z eqn:E2.
  { apply andb_prop in E2 as [E2 _]. apply Z.leb_le in E2. intros H. apply Z.ltb_lt in H. lia. }
  destruct ((65 <=? _) && (_ <=? 90))%Z eqn:E3; [|discriminate].
  apply andb_prop in E3 as [E3 _]. apply Z.leb_le in E3. intros H. apply Z.ltb_lt in H. lia.
Qed.

Lemma digit_10_of b c : (b <= 10)%Z -> is_digit_in b c = true -> is_digit_in 10 c = true.
Proof.
  intros Hb H. pose proof (digit_range_le b c Hb H) as R.
  unfold is_digit_in, digit_value.
  replace ((48 <=? Z.of_nat (nat_of_ascii c)) && (Z.of_nat (nat_of_ascii c) <=? 57))%Z with true
    by (symmetry; apply andb_true_iff; split; apply Z.leb_le; lia).
  apply Z.ltb_lt. lia.
Qed.

(** [scan_int] on a signed numeral followed by a non-digit. *)
Lemma scan_int_numeral sg ds rest :
  ds <> [] -> Forall (fun c => is_digit_in 10 c = true) ds ->
  match rest with [] => True | c :: _ => is_digit_in 10 c = false end ->
  scan_int (sign_text sg ++ ds ++ rest) = Some (apply_sign sg (numeral 10 ds), rest).
Proof.
  intros Hne Hds Hr. destruct ds as [|d ds']; [congruence|].
  pose proof (Forall_inv Hds) as Hd. destruct (digit_not_sign d Hd) as [Hm Hp].
  pose proof (scan_digits_app 10 (d :: ds') rest 0 Hds Hr) as E. simpl in E.
  unfold scan_int. destruct sg as [[|]|]; simpl.
  - rewrite Hd, E. reflexivity.
  - rewrite Hd, E. reflexivity.
  - rewrite (digit_not_space d Hd). rewrite Hm, Hp. simpl. rewrite Hd, E. reflexivity.
Qed.

End TextFacts.

Module FlagFacts.
Import Scan RefText Evaluator TextFacts Notions.


Lemma scan_token_app t rest :
  flag_ok t -> match rest with [] => True | c :: _ => is_comma c = true end ->
  scan_token (t ++ rest) = Some (t, rest).
Proof.
  intros (Hne & Hl & Hc) Hr. unfold scan_token.
  rewrite (span_until_app _ t rest Hc Hr). simpl.
  rewrite take_ge by lia.
  destruct t as [|x t]; [congruence|].
  rewrite drop_app_length. reflexivity.
Qed.

Lemma flag_tokens_join toks fuel :
  Forall flag_ok toks -> (length toks <= fuel)%nat ->
  flag_tokens (join_with "," toks) fuel = toks.
Proof.
  intros H. revert fuel. induction H as [|t toks Ht Hts IH]; intros fuel Hf.
  - destruct fuel; reflexivity.
  - destruct fuel as [|f]; [simpl in Hf; lia|].
    destruct toks as [|u toks].
    + simpl. rewrite app_nil_r.
      rewrite <- (app_nil_r t) at 1. rewrite scan_token_app by (auto; exact I).
      reflexivity.
    + rewrite join_with_cons2. simpl.
      rewrite scan_token_app by (auto; reflexivity). simpl.
      rewrite IH by (simpl in *; lia). reflexivity.
Qed.

Lemma flag_ok_nonempty toks : Forall flag_ok toks -> Forall (fun t => t <> []) toks.
Proof. intros H. eapply Forall_impl; [exact H|]. intros t [? _]. assumption. Qed.


Lemma fold_flag_step toks u r s :
  fold_left flag_step toks (u, r, s) =
  (u || existsb is_unmap_tok toks, r || existsb is_reverse_tok toks, s || existsb is_secondary_tok toks).
Proof.
  revert u r s. induction toks as [|t toks IH]; intros u r s; cbn [fold_left existsb].
  - rewrite !orb_false_r. reflexivity.
  - change (flag_step (u, r, s) t) with
      (if is_unmap_tok t then (true, r, s) else if is_reverse_tok t then (u, true, s)
       else if is_secondary_tok t then (u, r, true) else (u, r, s)).
    destruct (is_unmap_tok t) eqn:E1.
    { assert (is_reverse_tok t = false /\ is_secondary_tok t = false) as [-> ->].
      { unfold is_unmap_tok in E1. unfold is_reverse_tok, is_secondary_tok.
        apply String.eqb_eq in E1. rewrite <- E1. split; reflexivity. }
      rewrite IH. cbn [orb]. rewrite ?orb_true_r. reflexivity. }
    destruct (is_reverse_tok t) eqn:E2.
    { assert (is_secondary_tok t = false) as ->.
      { unfold is_reverse_tok in E2. unfold is_secondary_tok.
        apply String.eqb_eq in E2. rewrite <- E2. reflexivity. }
      rewrite IH. cbn [orb]. rewrite ?orb_true_r. reflexivity. }
    destruct (is_secondary_tok t) eqn:E3.
    + rewrite IH. cbn [orb]. rewrite !orb_true_r. reflexivity.
    + rewrite IH. cbn [orb]. reflexivity.
Qed.

End FlagFacts.

Module FlagProps.
Import Scan RefText Evaluator TextFacts FlagFacts Notions.

(** A flag string made of comma-separated tokens, each of one to 63
    characters, sets [is_unmap] iff a token is [UNMAP], [is_reverse] iff a
    token is [REVERSE], and [is_secondary] iff a token is [SECONDARY] or
    [SUPPLEMENTARY]; other tokens are ignored. *)
Theorem read_flags_tokens r toks
  (Htoks : Forall (fun t => t <> [] /\ (length t <= 63)%nat /\ Forall (fun c => is_comma c = false) t) toks)
  (Hflag : r_flag r = string_of_list_ascii (join_with "," toks)) :
  read_flags r =
  (existsb (fun t => String.eqb "UNMAP" (string_of_list_ascii t)) toks,
   existsb (fun t => String.eqb "REVERSE" (string_of_list_ascii t)) toks,
   existsb (fun t => String.eqb "SECONDARY" (string_of_list_ascii t)
                     || String.eqb "SUPPLEMENTARY" (string_of_list_ascii t)) toks).
Proof.
  unfold read_flags. rewrite Hflag, list_ascii_of_string_of_list_ascii.
  rewrite flag_tokens_join.
  - apply fold_flag_step.
  - exact Htoks.
  - pose proof (join_with_length "," toks (flag_ok_nonempty toks Htoks)). lia.
Qed.

End FlagProps.

Module XaFacts.
Import Scan RefText Evaluator TextFacts Notions.


Lemma xa_text_app name sg ds rest tl :
  xa_text (name, sg, ds, rest) ++ tl = name ++ ","%char :: sign_text sg ++ ds ++ ","%char :: rest ++ ";"%char :: tl.
Proof. simpl. rewrite <- !app_assoc. simpl. rewrite <- !app_assoc. simpl. rewrite <- !app_assoc. reflexivity. Qed.

Lemma xa_entries_concat es fuel :
  Forall xa_ok es -> (length es <= fuel)%nat ->
  xa_entries (concat (map xa_text es)) fuel =
  map (fun e => let '(name, sg, ds, _) := e in (name, store_int (apply_sign sg (numeral 10 ds)))) es.
Proof.
  intros H. revert fuel. induction H as [|[[[name sg] ds] rest] es He Hes IH]; intros fuel Hf.
  - destruct fuel; reflexivity.
  - destruct fuel as [|f]; [simpl in Hf; lia|].
    destruct He as (Hn & Hnl & Hnc & Hd & Hdd & Hr & Hrs).
    cbn [map concat]. rewrite xa_text_app.
    cbn [xa_entries]. unfold scan_xa.
    rewrite (span_until_app is_comma name _ Hnc) by reflexivity.
    replace ((length name =? 0)%nat || (63 <? length name)%nat)%bool with false
      by (destruct name; [congruence|]; symmetry; apply orb_false_iff; split;
          [reflexivity|apply Nat.ltb_ge; lia]).
    cbn [is_comma]. replace (Ascii.eqb "," ",") with true by reflexivity.
    rewrite (scan_int_numeral sg ds _ Hd Hdd) by reflexivity.
    replace (is_comma ",") with true by reflexivity.
    rewrite (span_until_app is_semicolon rest _ Hrs) by reflexivity.
    destruct rest as [|x rest]; [congruence|].
    replace (is_semicolon ";") with true by reflexivity.
    rewrite IH by (simpl in Hf; lia). reflexivity.
Qed.

Lemma xa_text_length e : (1 <= length (xa_text e))%nat.
Proof. destruct e as [[[name sg] ds] rest]. simpl. rewrite length_app. simpl. lia. Qed.

Lemma length_concat_xa es : (length es <= length (concat (map xa_text es)))%nat.
Proof.
  induction es as [|e es IH]; simpl; [lia|].
  rewrite length_app. pose proof (xa_text_length e). lia.
Qed.

End XaFacts.

Module XaProps.
Import Scan RefText Evaluator TextFacts XaFacts Notions.

(** An XA tag ['Z'] followed by entries [name,<sign><digits>,<rest>;]
    (name of 1 to 63 characters without a comma, at least one digit, a
    non-empty [rest] without a semicolon) is read as the list of the
    entries' names with their signed positions, in order; each position is
    the value [%d] stores in an [int] ([store_int]: clamped to [long], then
    wrapped to 32 bits), for any number of digits. *)
Theorem read_xa_entries es
  (Hes : Forall (fun e : list ascii * option bool * list ascii * list ascii =>
                   let '(name, sg, ds, rest) := e in
                   name <> [] /\ (length name <= 63)%nat /\ Forall (fun c => is_comma c = false) name /\
                   ds <> [] /\ Forall (fun c => is_digit_in 10 c = true) ds /\
                   rest <> [] /\ Forall (fun c => is_semicolon c = false) rest) es) :
  read_xa (string_of_list_ascii ("Z"%char :: concat (map xa_text es))) =
  map (fun e => let '(name, sg, ds, _) := e in (name, store_int (apply_sign sg (numeral 10 ds)))) es.
Proof.
  unfold read_xa. rewrite list_ascii_of_string_of_list_ascii. cbn [tl].
  apply xa_entries_concat.
  - exact Hes.
  - pose proof (length_concat_xa es). lia.
Qed.

End XaProps.

Module ParseNumFacts.
Import Scan RefText CommandLine TextFacts.

Lemma strtol0_literal sg z s :
  is_digit_in (if Ascii.eqb z "0" then 8 else 10) z = true ->
  match s with x :: _ => Ascii.eqb x "x" = false /\ Ascii.eqb x "X" = false | [] => True end ->
  strtol0 (sign_text sg ++ z :: s) =
  let '(v, rest) := scan_digits (if Ascii.eqb z "0" then 8 else 10) (z :: s) 0 in
  Some (Z.max LONG_MIN (Z.min LONG_MAX (apply_sign sg v)), rest).
Proof.
  intros Hz Hs.
  assert (Hz10 : is_digit_in 10 z = true)
    by (destruct (Ascii.eqb z "0"); [eapply digit_10_of; [|exact Hz]; lia | exact Hz]).
  destruct (digit_not_sign z Hz10) as [Hm Hp].
  assert (Hbase : forall neg : bool,
    (let '(base, s3) :=
       match z :: s with
       | z :: x :: d :: _ =>
           if (Ascii.eqb z "0" && (Ascii.eqb x "x" || Ascii.eqb x "X") && is_digit_in 16 d)%bool
           then (16%Z, drop 2 (z :: s))
           else if Ascii.eqb z "0" then (8%Z, z :: s) else (10%Z, z :: s)
       | z :: _ => if Ascii.eqb z "0" then (8%Z, z :: s) else (10%Z, z :: s)
       | [] => (10%Z, z :: s)
       end in
     match s3 with
     | c :: _ =>
         if is_digit_in base c then
           let '(v, rest) := scan_digits base s3 0 in
           let v' := if neg then (- v)%Z else v in
           Some (Z.max LONG_MIN (Z.min LONG_MAX v'), rest)
         else None
     | [] => None
     end) =
    let '(v, rest) := scan_digits (if Ascii.eqb z "0" then 8 else 10) (z :: s) 0 in
    Some (Z.max LONG_MIN (Z.min LONG_MAX (if neg then (- v)%Z else v)), rest)).
  { intros neg. revert Hz. destruct (Ascii.eqb z "0"); intros Hz; destruct s as [|x s'].
    all: try (match type of Hs with _ /\ _ => destruct Hs as [Hx HX] end; rewrite Hx, HX; destruct s' as [|d s'']).
    all: cbn iota beta; rewrite ?andb_false_r; cbn [andb]; cbn iota; rewrite Hz; destruct (scan_digits _ _ _); reflexivity. }
  unfold strtol0. destruct sg as [[|]|].
  - exact (Hbase true).
  - exact (Hbase false).
  - cbn [sign_text app skip_spaces]. rewrite (digit_not_space z Hz10). rewrite Hm, Hp.
    exact (Hbase false).
Qed.

Lemma to_int_small v : (- 2 ^ 31 <= v < 2 ^ 31)%Z -> to_int v = v.
Proof.
  intros H. unfold to_int. rewrite Z.mod_small by lia. lia.
Qed.

Lemma clamp_small v : (- 2 ^ 31 <= v < 2 ^ 31)%Z -> Z.max LONG_MIN (Z.min LONG_MAX v) = v.
Proof. intros H. unfold LONG_MIN, LONG_MAX. lia. Qed.

Lemma octal_not_x c : is_digit_in 8 c = true -> Ascii.eqb c "x" = false /\ Ascii.eqb c "X" = false.
Proof.
  intros H. apply (digit_range_le 8) in H; [|lia].
  split; apply Ascii.eqb_neq; intros ->; vm_compute in H; lia.
Qed.

End ParseNumFacts.

Module ParseNumProps.
Import Scan RefText CommandLine TextFacts ParseNumFacts.

(** A numeric option argument written as an optional sign and the digits
    of a C integer literal (octal after a leading ['0'], decimal otherwise)
    whose value fits in an [int] is parsed to that value: ["-12"] is -12,
    ["010"] is 8. *)
Theorem parse_num_literal sg ds
  (Hne : ds <> [])
  (Hds : Forall (fun c => is_digit_in (literal_base ds) c = true) ds)
  (Hrange : (- 2 ^ 31 <= apply_sign sg (numeral (literal_base ds) ds) < 2 ^ 31)%Z) :
  parse_num (Some (string_of_list_ascii (sign_text sg ++ ds))) =
  PNum (apply_sign sg (numeral (literal_base ds) ds)).
Proof.
  destruct ds as [|z s]; [congruence|].
  unfold parse_num. rewrite list_ascii_of_string_of_list_ascii.
  assert (Hz : is_digit_in (if Ascii.eqb z "0" then 8 else 10) z = true)
    by exact (Forall_inv Hds).
  assert (Hs : match s with x :: _ => Ascii.eqb x "x" = false /\ Ascii.eqb x "X" = false | [] => True end).
  { destruct s as [|x s']; [exact I|].
    apply Forall_inv_tail, Forall_inv in Hds. cbn [literal_base] in Hds.
    assert (H10 : is_digit_in 10 x = true).
    { revert Hds. destruct (Ascii.eqb z "0"); intros Hds; [apply (digit_10_of 8); [lia|exact Hds] | exact Hds]. }
    split; apply Ascii.eqb_neq; intros ->; vm_compute in H10; discriminate. }
  rewrite (strtol0_literal sg z s Hz Hs).
  assert (E := scan_digits_app (literal_base (z :: s)) (z :: s) [] 0 Hds I).
  rewrite app_nil_r in E. cbn [literal_base] in E. rewrite E.
  rewrite clamp_small by exact Hrange. rewrite to_int_small by exact Hrange.
  reflexivity.
Qed.

(** A numeric option argument ['0'] followed by octal digits and then an
    ['8'] or a ['9'] is an error ([exit_err]): [strtol] reads it in octal and
    stops at the ['8'] or ['9'], so ["08"] is refused. *)
Theorem parse_num_octal_trap sg ds c rest
  (Hds : Forall (fun c => is_digit_in 8 c = true) ds)
  (Hc : c = "8"%char \/ c = "9"%char) :
  parse_num (Some (string_of_list_ascii (sign_text sg ++ "0"%char :: ds ++ c :: rest))) = PErr.
Proof.
  unfold parse_num. rewrite list_ascii_of_string_of_list_ascii.
  assert (Hc8 : is_digit_in 8 c = false) by (destruct Hc as [-> | ->]; reflexivity).
  assert (Hx : Ascii.eqb c "x" = false /\ Ascii.eqb c "X" = false)
    by (destruct Hc as [-> | ->]; split; reflexivity).
  rewrite (strtol0_literal sg "0" (ds ++ c :: rest)); [| reflexivity |].
  - assert (E := scan_digits_app 8 ("0"%char :: ds) (c :: rest) 0 ltac:(constructor; [reflexivity | exact Hds]) Hc8).
    cbn [app] in E. change (Ascii.eqb "0" "0") with true. cbn iota. rewrite E. reflexivity.
  - destruct ds as [|x ds']; [exact Hx|]. apply octal_not_x. exact (Forall_inv Hds).
Qed.

End ParseNumProps.

Module VcfFacts.
Import Scan RefText VcfReader TextFacts Notions.

Lemma skip_spaces_app pre s :
  Forall (fun c => is_space c = true) pre ->
  match s with [] => True | c :: _ => is_space c = false end ->
  skip_spaces (pre ++ s) = s.
Proof.
  intros Hp Hs. induction Hp as [|c pre Hc Hp IH]; simpl.
  - apply skip_spaces_nonspace. exact Hs.
  - rewrite Hc. exact IH.
Qed.

Lemma scan_string_app pre w rest :
  Forall (fun c => is_space c = true) pre ->
  w <> [] -> Forall (fun c => is_space c = false) w ->
  match rest with [] => True | c :: _ => is_space c = true end ->
  scan_string (pre ++ w ++ rest) = Some (w, rest).
Proof.
  intros Hp Hne Hw Hr. unfold scan_string.
  rewrite skip_spaces_app; [| exact Hp | destruct w; [congruence|]; exact (Forall_inv Hw)].
  rewrite (span_until_app is_space w rest Hw Hr).
  destruct w; [congruence|]. reflexivity.
Qed.

Lemma scan_int_space c x : is_space c = true -> scan_int (c :: x) = scan_int x.
Proof. intros H. unfold scan_int. cbn [skip_spaces]. rewrite H. reflexivity. Qed.


Lemma space_of_blank c : is_tab_or_space c = true -> is_space c = true.
Proof.
  unfold is_tab_or_space. intros H. apply orb_true_iff in H as [H|H];
    apply Ascii.eqb_eq in H; subst; reflexivity.
Qed.

Lemma comma_or_space c : is_space c = false -> is_comma c = false -> is_comma_or_space c = false.
Proof.
  intros Hs Hc. unfold is_comma_or_space. rewrite Hc. simpl.
  destruct (Ascii.eqb c " ") eqn:E; [|reflexivity].
  apply Ascii.eqb_eq in E. subst. discriminate.
Qed.

Lemma vcf_tokens_join toks fuel :
  Forall tok_ok toks -> (length toks <= fuel)%nat ->
  vcf_tokens (join_with "," toks) fuel = toks.
Proof.
  intros H. revert fuel. induction H as [|t toks [Hne Ht] Hts IH]; intros fuel Hf.
  - destruct fuel; reflexivity.
  - destruct fuel as [|f]; [simpl in Hf; lia|].
    assert (Hcs : Forall (fun c => is_comma_or_space c = false) t).
    { eapply Forall_impl; [exact Ht|]. intros c [? ?]. apply comma_or_space; assumption. }
    destruct toks as [|u toks].
    + cbn [join_with concat map]. rewrite app_nil_r.
      cbn [vcf_tokens]. unfold vcf_token.
      rewrite <- (app_nil_r t) at 1. rewrite (span_until_app _ t [] Hcs I).
      destruct t; [congruence|]. reflexivity.
    + rewrite join_with_cons2. cbn [vcf_tokens]. unfold vcf_token.
      rewrite (span_until_app _ t _ Hcs) by reflexivity.
      destruct t as [|x t']; [congruence|]. cbn iota.
      change (is_comma ",") with true. cbn iota.
      rewrite IH by (simpl in *; lia). reflexivity.
Qed.

Lemma join_nonspace toks :
  Forall tok_ok toks -> Forall (fun c => is_space c = false) (join_with "," toks).
Proof.
  intros H. destruct H as [|t toks [_ Ht] Hts]; [constructor|].
  cbn [join_with]. apply Forall_app. split.
  - eapply Forall_impl; [exact Ht|]. intros c [? _]. assumption.
  - induction Hts as [|u us [_ Hu] Hus IH]; cbn [map concat]; [constructor|].
    constructor; [reflexivity|]. apply Forall_app. split; [|exact IH].
    eapply Forall_impl; [exact Hu|]. intros c [? _]. assumption.
Qed.

Lemma field_tokens_join toks :
  Forall tok_ok toks -> field_tokens (join_with "," toks) = toks.
Proof.
  intros H. unfold field_tokens. apply vcf_tokens_join; [exact H|].
  assert (Forall (fun t => t <> []) toks) by (eapply Forall_impl; [exact H|]; intros t [? _]; assumption).
  pose proof (join_with_length "," toks H0). lia.
Qed.

Lemma join_nonempty toks : Forall tok_ok toks -> toks <> [] -> join_with "," toks <> [].
Proof.
  intros H Hne. destruct H as [|t toks [Ht _] _]; [congruence|].
  cbn [join_with]. destruct t; [congruence|]. discriminate.
Qed.

Lemma blank_space c : is_blank_char c = true -> is_space c = true.
Proof.
  unfold is_blank_char. cbn [existsb]. intros H.
  repeat (apply orb_true_iff in H as [H|H]; [apply Ascii.eqb_eq in H; subst; reflexivity|]).
  discriminate.
Qed.

End VcfFacts.

Module VcfProps.
Import Scan RefText VcfReader TextFacts VcfFacts Notions.

(** A VCF data line [chr<TAB>pos<TAB>id<TAB>refs<TAB>alts] followed by
    nothing or by white space and more fields, where [pos] is an optional
    sign and decimal digits, [chr] and [id] are words that do not start
    with ['#'] resp. hold no white space, and [refs] and [alts] are non-empty
    comma-separated lists of non-empty tokens without white space, gives one
    variant per reference token and alternative token, reference-major, each
    with the line's chromosome and position; the position is the value
    [%d] stores in an [int] ([store_int]: clamped to [long], then wrapped to
    32 bits), for any number of digits. *)
Theorem read_vcf_line_record chr sg ds id refs alts tail
  (Hchr : chr <> [] /\ Forall (fun c => is_space c = false) chr /\ hd " "%char chr <> "#"%char)
  (Hds : ds <> [] /\ Forall (fun c => is_digit_in 10 c = true) ds)
  (Hid : id <> [] /\ Forall (fun c => is_space c = false) id)
  (Hrefs : refs <> [] /\
           Forall (fun t => t <> [] /\ Forall (fun c => is_space c = false /\ is_comma c = false) t) refs)
  (Halts : alts <> [] /\
           Forall (fun t => t <> [] /\ Forall (fun c => is_space c = false /\ is_comma c = false) t) alts)
  (Htail : match tail with [] => True | c :: _ => is_space c = true end) :
  read_vcf_line (chr ++ "009"%char :: sign_text sg ++ ds ++ "009"%char :: id ++ "009"%char ::
                 join_with "," refs ++ "009"%char :: join_with "," alts ++ tail) =
  VRecs (concat (map (fun r =>
           map (fun a => mkVariant (string_of_list_ascii chr) (store_int (apply_sign sg (numeral 10 ds)))
                                   (string_of_list_ascii r) (string_of_list_ascii a)) alts) refs)).
Proof.
  destruct Hchr as (Hcne & Hcs & Hc0). destruct Hds as [Hdne Hdd]. destruct Hid as [Hine His].
  destruct Hrefs as [Hrne Hrt]. destruct Halts as [Hane Hat].
  destruct chr as [|c0 chr']; [congruence|]. simpl in Hc0.
  unfold read_vcf_line.
  replace (forallb is_blank_char _) with false.
  2:{ symmetry. cbn [app forallb]. apply andb_false_intro1.
      destruct (is_blank_char c0) eqn:E; [|reflexivity].
      apply blank_space in E. rewrite (Forall_inv Hcs) in E. discriminate. }
  cbn [app]. replace (Ascii.eqb c0 "#") with false by (symmetry; apply Ascii.eqb_neq; exact Hc0).
  rewrite (app_comm_cons chr' _ c0).
  set (chr := c0 :: chr') in *.
  unfold vcf_record, scan_vcf_fields.
  rewrite <- (app_nil_l (chr ++ _)).
  rewrite (scan_string_app [] chr _ ltac:(constructor) Hcne Hcs) by reflexivity.
  rewrite scan_int_space by reflexivity.
  assert (Hnd : is_digit_in 10 "009" = false) by reflexivity.
  rewrite (scan_int_numeral sg ds ("009"%char :: _) Hdne Hdd Hnd).
  assert (Hid0 : match id with [] => True | c :: _ => is_space c = false end)
    by (destruct id; [exact I | exact (Forall_inv His)]).
  replace (skip_spaces ("009"%char :: id ++ _)) with (id ++ "009"%char :: join_with "," refs ++
             "009"%char :: join_with "," alts ++ tail)
    by (cbn [skip_spaces]; change (is_space "009") with true; cbn iota;
        symmetry; apply skip_spaces_nonspace; destruct id; [congruence | exact Hid0]).
  assert (Hit : Forall (fun c => is_tab_or_space c = false) id).
  { eapply Forall_impl; [exact His|]. intros c Hc.
    destruct (is_tab_or_space c) eqn:E; [|reflexivity]. apply space_of_blank in E. congruence. }
  rewrite (span_until_app is_tab_or_space id _ Hit) by reflexivity.
  destruct id as [|i0 id']; [congruence|]. cbn iota.
  rewrite <- (app_nil_l (join_with "," refs ++ _)).
  rewrite (app_comm_cons []).
  change ("009"%char :: [] ++ join_with "," refs ++ ?r) with (["009"%char] ++ join_with "," refs ++ r).
  rewrite (scan_string_app ["009"%char] (join_with "," refs) _ ltac:(repeat constructor)
             (join_nonempty refs Hrt Hrne) (join_nonspace refs Hrt)) by reflexivity.
  change ("009"%char :: join_with "," alts ++ tail) with (["009"%char] ++ join_with "," alts ++ tail).
  rewrite (scan_string_app ["009"%char] (join_with "," alts) tail ltac:(repeat constructor)
             (join_nonempty alts Hat Hane) (join_nonspace alts Hat) Htail).
  rewrite (field_tokens_join refs Hrt), (field_tokens_join alts Hat).
  reflexivity.
Qed.

End VcfProps.

Module OptionFacts.
Import CommandLine Notions.


Lemma apply_option_flags o it o' :
  flags_ok o -> apply_option o it = Run o' -> flags_ok o'.
Proof.
  intros Ho H. destruct o as [v a r out t n m mv b pa d]. unfold flags_ok in *; simpl in *.
  destruct it as [c arg | f].
  - unfold apply_option in H.
    destruct (is_one_of c _).
    + injection H as <-. unfold set_file.
      destruct (Ascii.eqb c "v"); [|destruct (Ascii.eqb c "a"); [|destruct (Ascii.eqb c "r")]]; exact Ho.
    + destruct (is_one_of c _); [|discriminate].
      destruct (parse_num arg); try discriminate.
      injection H as <-. unfold set_num.
      destruct (Ascii.eqb c "t"); [|destruct (Ascii.eqb c "n"); [|destruct (Ascii.eqb c "b")]]; exact Ho.
  - injection H as <-. destruct f; simpl; intuition.
Qed.

Lemma parse_options_flags items o o' :
  flags_ok o -> parse_options o items = Run o' -> flags_ok o'.
Proof.
  revert o. induction items as [|it rest IH]; intros o Ho H; simpl in H.
  - injection H as <-. exact Ho.
  - destruct (apply_option o it) as [o1| | |] eqn:E; try discriminate.
    exact (IH o1 (apply_option_flags o it o1 Ho E) H).
Qed.

End OptionFacts.

Module OptionProps.
Import CommandLine OptionFacts Notions.

(** When the option handling of [main] goes on to run, the VCF, BAM and
    FASTA file names are all given, [numproc] is at least 1, [distlim] and
    [maxh] are not negative, [hetbias] lies in [0, 1], and [mvh], [pao] and
    [debug] are each 0 or 1, whatever the options were. *)
Theorem main_options_run items o (H : main_options items = Run o) :
  vcf_file o <> None /\ bam_file o <> None /\ fa_file o <> None /\
  (1 <= numproc o)%Z /\ (0 <= distlim o)%Z /\ (0 <= maxh o)%Z /\
  (0 <= hetbias o <= 1)%Q /\
  (mvh o = 0 \/ mvh o = 1)%Z /\ (pao o = 0 \/ pao o = 1)%Z /\ (debug o = 0 \/ debug o = 1)%Z.
Proof.
  unfold main_options in H.
  destruct (parse_options default_options items) as [o1| | |] eqn:E; try discriminate.
  assert (Hf : flags_ok o1)
    by (apply (parse_options_flags items default_options); [unfold flags_ok; simpl; lia | exact E]).
  destruct o1 as [v a r out t n m mv b pa d]. unfold flags_ok in Hf; simpl in Hf.
  unfold finish_options in H.
  destruct v as [v|]; [|discriminate]. destruct a as [a|]; [|discriminate].
  destruct r as [r|]; [|discriminate].
  injection H as <-. simpl.
  split; [discriminate|]. split; [discriminate|]. split; [discriminate|].
  split; [destruct (t <? 1)%Z eqn:Et; [lia | apply Z.ltb_ge in Et; lia]|].
  split; [destruct (n <? 0)%Z eqn:En; [lia | apply Z.ltb_ge in En; lia]|].
  split; [destruct (m <? 0)%Z eqn:Em; [lia | apply Z.ltb_ge in Em; lia]|].
  split; [|exact Hf].
  destruct (Qle_bool 0 b) eqn:E0; destruct (Qle_bool b 1) eqn:E1; simpl;
    try (split; vm_compute; discriminate).
  apply Qle_bool_iff in E0, E1. split; assumption.
Qed.

End OptionProps.

Module VectorFacts.
Import Containers.

Section Facts.
Context {A : Type}.

Lemma vec_map_seq_ext (f g : nat -> option A) n L :
  (forall k, n <= k < n + L -> f k = g k) -> map f (seq n L) = map g (seq n L).
Proof.
  revert n. induction L as [|L IH]; intros n H; simpl; [reflexivity|].
  rewrite H by lia. f_equal. apply IH. intros k Hk. apply H. lia.
Qed.

Lemma map_seq_shift (f : nat -> option A) n L :
  map f (seq (S n) L) = map (fun k => f (S k)) (seq n L).
Proof. rewrite <- seq_shift, map_map. reflexivity. Qed.

Lemma contents_length (a : Vector A) : length (contents a) = v_size a.
Proof. unfold contents. rewrite length_map, length_seq. reflexivity. Qed.

Lemma delete_map_seq (f : nat -> option A) i n L :
  i < L -> delete i (map f (seq n L)) = map f (seq n i) ++ map f (seq (S (n + i)) (L - S i)).
Proof.
  revert n L. induction i as [|i IH]; intros n L H; destruct L as [|L]; try lia; simpl.
  - rewrite Nat.add_0_r, Nat.sub_0_r. reflexivity.
  - rewrite IH by lia. rewrite Nat.add_succ_r. reflexivity.
Qed.

Lemma vector_del_contents_gen (a : Vector A) i :
  i < v_size a -> contents (vector_del a i) = delete i (contents a).
Proof.
  intros Hi. unfold contents, vector_del.
  rewrite (delete_map_seq _ i 0 (v_size a) Hi). simpl.
  destruct (Nat.eqb i (v_size a - 1)) eqn:E1; simpl.
  - apply Nat.eqb_eq in E1. replace (v_size a - S i) with 0 by lia. rewrite app_nil_r.
    rewrite <- E1. apply vec_map_seq_ext. intros k Hk.
    destruct (Nat.eqb k i) eqn:E; [apply Nat.eqb_eq in E; lia | reflexivity].
  - apply Nat.eqb_neq in E1.
    destruct (Nat.eqb i 0 && (0 <? v_size a - 1))%bool eqn:E2; simpl.
    + apply andb_true_iff in E2 as [E2 _]. apply Nat.eqb_eq in E2. subst i. simpl.
      rewrite map_seq_shift. replace (v_size a - 1) with (v_size a - 1) by lia.
      apply vec_map_seq_ext. intros k Hk.
      destruct (k <? v_size a - 1)%nat eqn:E; [|apply Nat.ltb_ge in E; lia]. reflexivity.
    + replace (v_size a - 1) with (i + (v_size a - S i)) at 1 by lia.
      rewrite seq_app, map_app. f_equal.
      * apply vec_map_seq_ext. intros k Hk.
        destruct (k <? i)%nat eqn:E; [|apply Nat.ltb_ge in E; lia].
        destruct (Nat.eqb k i) eqn:E'; [apply Nat.eqb_eq in E'; lia | reflexivity].
      * simpl. rewrite map_seq_shift. apply vec_map_seq_ext. intros k Hk.
        destruct (k <? i)%nat eqn:E; [apply Nat.ltb_lt in E; lia|].
        destruct (k <? v_size a - 1)%nat eqn:E'; [|apply Nat.ltb_ge in E'; lia].
        assert (Hs : Nat.eqb (S k) i = false) by (apply Nat.eqb_neq; lia). simpl in Hs. rewrite Hs. reflexivity.
Qed.

Lemma vector_dup_contents (a : Vector A) : contents (vector_dup a) = contents a.
Proof.
  unfold contents, vector_dup. simpl. apply vec_map_seq_ext. intros k Hk.
  destruct (k <? v_size a)%nat eqn:E; [reflexivity | apply Nat.ltb_ge in E; lia].
Qed.

Lemma vector_add_contents_gen (a : Vector A) e : contents (vector_add a e) = contents a ++ [Some e].
Proof.
  unfold contents, vector_add. cbn [v_size v_data]. rewrite seq_S, map_app. cbn [map].
  rewrite Nat.eqb_refl. f_equal. apply vec_map_seq_ext. intros k Hk.
  destruct (Nat.eqb k (v_size a)) eqn:E; [apply Nat.eqb_eq in E; lia | reflexivity].
Qed.

End Facts.
End VectorFacts.

Module VectorProps.
Import Containers VectorFacts.

(** [vector_add] appends its entry after the [size] cells, and a
    [vector_pop] right after it returns that entry and leaves the cells as
    they were before the [vector_add]. *)
Theorem vector_add_pop {A} (a : Vector A) (e : A) :
  contents (vector_add a e) = contents a ++ [Some e] /\
  snd (vector_pop (vector_add a e)) = Some e /\
  contents (fst (vector_pop (vector_add a e))) = contents a.
Proof.
  split; [apply vector_add_contents_gen|].
  unfold vector_pop, vector_add. cbn [v_size v_data v_capacity].
  split; [cbn; rewrite Nat.eqb_refl; reflexivity|].
  unfold contents. cbn [fst v_size v_data]. apply vec_map_seq_ext. intros k Hk.
  destruct (Nat.eqb k (v_size a)) eqn:E; [apply Nat.eqb_eq in E; lia|]. reflexivity.
Qed.

(** The split of [process_variants] at positions [j] and [j + 1]: after
    [dup = vector_dup(v)], [vector_del(v, j)] leaves the cells of [v]
    without the [j]-th and [vector_del(dup, j + 1)] leaves them without the
    [(j+1)]-th; both keep the capacity. *)
Theorem vector_split_del {A} (a : Vector A) (j : nat) (Hj : S j < v_size a) :
  contents (vector_del a j) = delete j (contents a) /\
  contents (vector_del (vector_dup a) (S j)) = delete (S j) (contents a) /\
  v_capacity (vector_del a j) = v_capacity a /\
  v_capacity (vector_del (vector_dup a) (S j)) = v_capacity a.
Proof.
  split; [apply vector_del_contents_gen; lia|].
  split; [rewrite vector_del_contents_gen by (simpl; lia); apply f_equal, vector_dup_contents|].
  unfold vector_del. split;
    repeat match goal with |- context [if ?b then _ else _] => destruct b end; reflexivity.
Qed.

(** Starting from [vector_init n] with [n >= 1], [vector_add],
    [vector_del] (at an index below [size]), [vector_pop] and [vector_dup]
    keep [size <= capacity] and [capacity >= 1], so [vector_add] always
    writes inside the array. *)
Theorem vector_capacity_invariant {A} (n : nat) (Hn : 1 <= n) :
  let inv (a : Vector A) := v_size a <= v_capacity a /\ 1 <= v_capacity a in
  inv (vector_init n) /\
  (forall a e, inv a -> v_size a < v_capacity (vector_add a e) /\ inv (vector_add a e)) /\
  (forall a i, inv a -> i < v_size a -> inv (vector_del a i)) /\
  (forall a, inv a -> inv (fst (vector_pop a))) /\
  (forall a, inv a -> inv (vector_dup a)).
Proof.
  intros inv. unfold inv. split; [simpl; lia|].
  split; [|split; [|split]].
  - intros a e [H1 H2]. unfold vector_add. cbn [v_size v_capacity].
    destruct (v_capacity a <=? v_size a)%nat eqn:E;
      [apply Nat.leb_le in E | apply Nat.leb_gt in E]; lia.
  - intros a i [H1 H2] Hi. unfold vector_del.
    repeat match goal with |- context [if ?b then _ else _] => destruct b end; simpl; lia.
  - intros a [H1 H2]. unfold vector_pop. destruct (v_size a) eqn:E; simpl; lia.
  - intros a [H1 H2]. simpl. lia.
Qed.

End VectorProps.

Module SamePosFacts.
Import Evaluator Grouper GrouperFacts Notions.

Section SamePos.

Variable varlist : list Variant.
Variable p : Z.


Lemma weight_app l1 l2 : weight (l1 ++ l2) = weight l1 + weight l2.
Proof. unfold weight. rewrite map_app, list_sum_app. reflexivity. Qed.

Lemma weight_cons s l : weight (s :: l) = 2 ^ (length s - 1) + weight l.
Proof. reflexivity. Qed.

Lemma length_delete_lt (s : list nat) i : i < length s -> length (delete i s) = length s - 1.
Proof. intros H. apply length_delete. apply lookup_lt_is_Some_2. lia. Qed.

Lemma at_p_delete s i : 1 < length s -> i < length s -> at_p varlist p s -> at_p varlist p (delete i s).
Proof.
  intros H1 H2 [_ Hs]. split.
  - intros E. pose proof (length_delete_lt s i H2) as L. rewrite E in L. simpl in L. lia.
  - apply Forall_delete. exact Hs.
Qed.

Lemma split_scan_weight fuel j s :
  at_p varlist p s ->
  2 ^ (length (fst (split_scan varlist j fuel s)) - 1) + weight (snd (split_scan varlist j fuel s)) =
  2 ^ (length s - 1) /\
  Forall (at_p varlist p) (fst (split_scan varlist j fuel s) :: snd (split_scan varlist j fuel s)).
Proof.
  revert j s. induction fuel as [|f IH]; intros j s Hs; simpl.
  - split; [unfold weight; simpl; lia|]. constructor; [exact Hs|constructor].
  - destruct (S j <? length s)%nat eqn:El; [|simpl; split; [unfold weight; simpl; lia|constructor; [exact Hs|constructor]]].
    apply Nat.ltb_lt in El.
    destruct (_ =? _)%Z; [|apply IH, Hs].
    assert (Hd : at_p varlist p (delete j s)) by (apply at_p_delete; [lia|lia|exact Hs]).
    assert (Hd' : at_p varlist p (delete (S j) s)) by (apply at_p_delete; [lia|lia|exact Hs]).
    destruct (IH (S j) (delete j s) Hd) as [W1 F1].
    destruct (split_scan varlist (S j) f (delete j s)) as [s' ds]. simpl in *.
    rewrite weight_cons.
    rewrite (length_delete_lt s j) in W1 by lia. rewrite (length_delete_lt s (S j)) by lia.
    split.
    + assert (E : 2 ^ (length s - 1) = 2 * 2 ^ (length s - 1 - 1)).
      { rewrite <- Nat.pow_succ_r'. f_equal. lia. }
      lia.
    + inversion F1; subst. constructor; [assumption|]. constructor; assumption.
Qed.

Lemma split_set_weight s :
  at_p varlist p s ->
  2 ^ (length (fst (split_set varlist s)) - 1) + weight (snd (split_set varlist s)) = 2 ^ (length s - 1) /\
  Forall (at_p varlist p) (fst (split_set varlist s) :: snd (split_set varlist s)).
Proof.
  intros Hs. unfold split_set. destruct (length s =? 1)%nat.
  - simpl. split; [unfold weight; simpl; lia|]. constructor; [exact Hs|constructor].
  - apply split_scan_weight, Hs.
Qed.

Lemma split_pass_weight sets :
  Forall (at_p varlist p) sets ->
  weight (fst (split_pass varlist sets)) = weight sets /\ Forall (at_p varlist p) (fst (split_pass varlist sets)).
Proof.
  unfold split_pass. simpl. intros H.
  rewrite weight_app, Forall_app.
  induction H as [|s sets Hs Hr IH]; [simpl; split; [reflexivity|split; constructor]|].
  destruct (split_set_weight s Hs) as [W F].
  inversion F as [|? ? F1 F2]; subst.
  destruct IH as [IW [IF1 IF2]].
  cbn [map concat]. rewrite weight_cons, weight_app, weight_cons.
  split; [lia|]. split.
  - constructor; assumption.
  - apply Forall_app. split; assumption.
Qed.

Lemma split_loop_weight fuel sets :
  Forall (at_p varlist p) sets ->
  weight (split_loop varlist fuel sets) = weight sets /\ Forall (at_p varlist p) (split_loop varlist fuel sets).
Proof.
  revert sets. induction fuel as [|f IH]; intros sets H; cbn [split_loop]; [split; [reflexivity|exact H]|].
  destruct (split_pass_weight sets H) as [W F].
  destruct (split_pass varlist sets) as [sets' flag]. simpl in W, F.
  destruct flag.
  - destruct (IH sets' F) as [W' F']. split; [lia|exact F'].
  - split; [exact W|exact F].
Qed.

Lemma at_p_no_eq_adj s : at_p varlist p s -> has_eq_adj varlist s = false -> length s = 1.
Proof.
  intros [Hne Hs] Hn. destruct s as [|x [|y t]]; [congruence|reflexivity|].
  exfalso. simpl in Hn. apply orb_false_iff in Hn as [Hn _].
  apply Z.eqb_neq in Hn. inversion Hs as [|? ? Hx Ht]; subst. inversion Ht; subst. congruence.
Qed.

Lemma weight_singletons sets : Forall (fun s => length s = 1) sets -> weight sets = length sets.
Proof.
  induction 1 as [|s sets Hs Hr IH]; [reflexivity|].
  rewrite weight_cons, Hs, IH. simpl. lia.
Qed.

End SamePos.

Lemma var_at_in varlist k : k < length varlist -> In (var_at varlist k) varlist.
Proof. intros H. apply nth_In. exact H. Qed.

Lemma group_extend_all varlist distlim c p fuel j :
  (0 < distlim)%Z -> Forall (fun v => chr v = c /\ pos v = p) varlist ->
  1 <= j <= length varlist -> length varlist - j <= fuel ->
  group_extend varlist distlim j fuel = (seq j (length varlist - j), length varlist).
Proof.
  intros Hd Hs. rewrite List.Forall_forall in Hs. revert j.
  induction fuel as [|f IH]; intros j Hj Hf; simpl.
  - replace (length varlist - j) with 0 by lia. replace j with (length varlist) by lia. reflexivity.
  - destruct (j <? length varlist)%nat eqn:Ej.
    + apply Nat.ltb_lt in Ej.
      destruct (Hs _ (var_at_in varlist j Ej)) as [C1 P1].
      destruct (Hs _ (var_at_in varlist (j - 1) ltac:(lia))) as [C2 P2].
      rewrite C1, C2, P1, P2, String.eqb_refl, Z.sub_diag. simpl.
      replace (0 <? distlim)%Z with true by (symmetry; apply Z.ltb_lt; lia).
      replace (Z.abs 0 <=? distlim)%Z with true by (symmetry; apply Z.leb_le; simpl; lia). simpl.
      rewrite IH by lia.
      replace (length varlist - j) with (S (length varlist - S j)) by lia. reflexivity.
    + apply Nat.ltb_ge in Ej. rewrite andb_false_r, !andb_false_l.
      replace j with (length varlist) by lia. rewrite Nat.sub_diag. reflexivity.
Qed.

Lemma pow_gt_double n : 5 <= n -> 2 * n < 2 ^ (n - 1).
Proof.
  induction 1 as [|n Hn IH]; [simpl; lia|].
  replace (S n - 1) with (S (n - 1)) by lia. rewrite Nat.pow_succ_r'. lia.
Qed.

End SamePosFacts.

Module SamePosProps.
Import Evaluator Grouper GrouperFacts SamePosFacts Notions.

(** When all [n >= 1] variants share one chromosome and one position and
    [distlim > 0], the grouping and splitting of [process_variants] create
    [2 ^ (n - 1)] hypothesis sets, each holding a single variant (so the
    same variant is evaluated several times once [n >= 3]); from [n = 5] on
    this is more than the [2 * n] sets the [var_set] array has room for, so
    the splitting writes past the array. *)
Theorem same_position_sets varlist distlim c p
  (Hne : varlist <> [])
  (Hd : (0 < distlim)%Z)
  (Hsame : Forall (fun v => chr v = c /\ pos v = p) varlist) :
  Forall (fun s => length s = 1%nat) (split_sets varlist distlim) /\
  length (split_sets varlist distlim) = (2 ^ (length varlist - 1))%nat /\
  ((5 <= length varlist)%nat ->
   (2 * length varlist < length (split_sets varlist distlim))%nat /\
   hypothesis_sets varlist distlim = None).
Proof.
  assert (Hn : (1 <= length varlist)%nat) by (destruct varlist; [congruence|simpl; lia]).
  assert (Hg : group_sets varlist distlim 0 (length varlist) = [seq 0 (length varlist)]).
  { pose proof (group_extend_all varlist distlim c p (length varlist) 1 Hd Hsame ltac:(lia) ltac:(lia)) as E.
    destruct (length varlist) as [|m] eqn:En; [lia|].
    cbn [group_sets]. rewrite En. cbn [Nat.ltb Nat.leb]. rewrite E.
    destruct m as [|m']; [reflexivity|].
    cbn [group_sets]. rewrite En. rewrite (proj2 (Nat.ltb_ge (S (S m')) (S (S m'))) (le_n _)).
    reflexivity. }
  set (n := length varlist) in *.
  assert (Hp0 : at_p varlist p (seq 0 n)).
  { split; [destruct n; [lia|discriminate]|].
    apply List.Forall_forall. intros i Hi. apply in_seq in Hi.
    rewrite List.Forall_forall in Hsame. apply (Hsame _ (var_at_in varlist i ltac:(subst n; lia))). }
  assert (Hh : forall r, hypothesis_sets varlist distlim = Some r -> r = split_sets varlist distlim /\
                (length r <= 2 * n)%nat) by (intros r; apply hypothesis_sets_split).
  unfold split_sets in *. fold n in Hh |- *. rewrite Hg in Hh |- *.
  destruct (split_loop_weight varlist p (S n) [seq 0 n] ltac:(constructor; [exact Hp0|constructor]))
    as [W F].
  assert (Hdone := split_loop_done varlist (S n) [seq 0 n]).
  assert (Hm : (split_measure varlist [seq 0 n] < S n)%nat).
  { unfold split_measure. simpl. rewrite length_seq. destruct (has_eq_adj _ _); lia. }
  specialize (Hdone Hm).
  assert (Hs1 : Forall (fun s => length s = 1%nat) (split_loop varlist (S n) [seq 0 n])).
  { apply List.Forall_forall. intros s Hs.
    rewrite List.Forall_forall in F, Hdone. apply (at_p_no_eq_adj varlist p); [apply F|apply Hdone]; exact Hs. }
  split; [exact Hs1|].
  assert (Hlen : length (split_loop varlist (S n) [seq 0 n]) = (2 ^ (n - 1))%nat).
  { rewrite <- (weight_singletons _ Hs1), W. unfold weight. simpl. rewrite length_seq. lia. }
  split; [exact Hlen|].
  intros H5. pose proof (pow_gt_double n H5) as Hgt. rewrite Hlen. split; [exact Hgt|].
  destruct (hypothesis_sets varlist distlim) as [r|]; [|reflexivity].
  destruct (Hh r eq_refl) as [-> Hb]. lia.
Qed.

End SamePosProps.

Module RefCacheFacts.
Import RefCache Notions.

Section Facts.
Variable fai_fetch : string -> option (list ascii).


Lemma fetch_refseq_direct h name :
  cache_ok fai_fetch h ->
  option_map fst (fetch_refseq fai_fetch h name) = load_fasta name <$> fai_fetch name /\
  (forall f h', fetch_refseq fai_fetch h name = Some (f, h') -> cache_ok fai_fetch h').
Proof.
  intros Hh. unfold fetch_refseq.
  destruct (h !! name) as [node|] eqn:E.
  - destruct (Hh name node E) as [seq [Hf ->]]. rewrite Hf. cbn.
    rewrite String.eqb_refl. split; [reflexivity|].
    intros f h' H. injection H as _ <-. exact Hh.
  - destruct (fai_fetch name) as [seq|] eqn:Hf; cbn; [|split; [reflexivity|discriminate]].
    split; [reflexivity|].
    intros f h' H. injection H as <- <-.
    intros k fs Hk. destruct (decide (k = name)) as [->|Hne].
    + rewrite lookup_insert_eq in Hk. injection Hk as <-. exists seq. split; [exact Hf|reflexivity].
    + rewrite lookup_insert_ne in Hk by congruence. apply Hh, Hk.
Qed.

End Facts.
End RefCacheFacts.

Module RefCacheProps.
Import RefCache RefCacheFacts.

(** The reference cache is transparent: from a hash whose every entry is
    the upper-cased sequence [fai_fetch] gives for its name (the empty hash
    of [main] included), a run of [fetch_refseq] calls returns for each name
    what loading it afresh would ([exit_err] exactly when a name is missing
    from the index). *)
Theorem fetch_all_transparent fai_fetch h names
  (Hh : forall k fs, h !! k = Some fs -> exists seq, fai_fetch k = Some seq /\ fs = [load_fasta k seq]) :
  fetch_all fai_fetch h names = mapM (fun name => load_fasta name <$> fai_fetch name) names.
Proof.
  revert h Hh. induction names as [|name rest IH]; intros h Hh; [reflexivity|].
  cbn [fetch_all mapM].
  destruct (fetch_refseq_direct fai_fetch h name Hh) as [D Ok].
  destruct (fetch_refseq fai_fetch h name) as [[f h']|] eqn:E; cbn in D.
  - destruct (fai_fetch name) as [seq|]; cbn in D |- *; [|discriminate].
    injection D as <-. rewrite (IH h' (Ok f h' eq_refl)).
    destruct (mapM _ rest); reflexivity.
  - destruct (fai_fetch name); cbn in D |- *; [discriminate|reflexivity].
Qed.

End RefCacheProps.

Module ReadProbWitness.
Import Evaluator ReadProbProps MoreSamples.
Lemma read_calc_prob_nonpos_witness :
  Forall (fun q => (q <= 0)%R) (r_qual r_lowq) /\
  calc_prob (set_prob_matrix (r_qseq r_lowq) (Z.to_nat (r_length r_lowq)) (read_is_match r_lowq) (read_no_match r_lowq))
    (r_length r_lowq) ["A"%char] 1 5 0 = 0%R.
Proof.
  assert (Hq : Forall (fun q => (q <= 0)%R) (r_qual r_lowq)) by (repeat constructor; simpl; lra).
  split; [exact Hq|].
  apply (proj2 (read_calc_prob_nonpos r_lowq ["A"%char] 1 5 0 Hq
                  ltac:(split; [repeat constructor|split; reflexivity])
                  ltac:(split; [repeat constructor|reflexivity]))). left. lia.
Defined.
End ReadProbWitness.

Module ElsewhereWitness.
Import Evaluator ElsewhereProps MoreSamples.
Lemma elsewhere_closed_form_witness :
  Forall (fun q => (q <= 0)%R) (r_qual r_lowq) /\ r_qual r_lowq <> [] /\
  (elsewhere_of r_lowq =
  ln (fold_right Rmult 1 (map (fun q => 1 - exp (qual_fix q * M_1_LOG10E)) (r_qual r_lowq)) *
      (1 + sum (map (fun q => exp (qual_fix q * M_1_LOG10E) / 3 / (1 - exp (qual_fix q * M_1_LOG10E))) (r_qual r_lowq))))
  - LGALPHA * IZR (r_length r_lowq - r_inferred_length r_lowq))%R.
Proof.
  assert (Hq : Forall (fun q => (q <= 0)%R) (r_qual r_lowq)) by (repeat constructor; simpl; lra).
  split; [exact Hq|]. split; [discriminate|].
  exact (elsewhere_closed_form r_lowq Hq ltac:(discriminate)).
Defined.
End ElsewhereWitness.

Module FlagWitness.
Import Scan RefText Evaluator FlagProps MoreSamples.
Lemma read_flags_tokens_witness :
  read_flags r_flags = (false, true, true).
Proof.
  rewrite (read_flags_tokens r_flags
             [list_ascii_of_string "PAIRED"; list_ascii_of_string "REVERSE"; list_ascii_of_string "SECONDARY"]).
  - reflexivity.
  - repeat constructor; vm_compute; try discriminate; lia.
  - reflexivity.
Defined.
End FlagWitness.

Module XaWitness.
Import Scan RefText Evaluator XaProps MoreSamples.
Lemma read_xa_entries_witness :
  read_xa "Zchr2,+500,1M,0;chr3,-7,2M1I,1;" =
  [(list_ascii_of_string "chr2", 500%Z); (list_ascii_of_string "chr3", (-7)%Z)].
Proof.
  refine (eq_trans (read_xa_entries
    [(list_ascii_of_string "chr2", Some false, list_ascii_of_string "500", list_ascii_of_string "1M,0");
     (list_ascii_of_string "chr3", Some true, list_ascii_of_string "7", list_ascii_of_string "2M1I,1")] _) _).
  - repeat constructor; vm_compute; try discriminate; lia.
  - reflexivity.
Defined.
End XaWitness.

Module ParseNumWitness.
Import Scan RefText CommandLine ParseNumProps MoreSamples.
Lemma parse_num_literal_witness :
  parse_num (Some "010") = PNum 8 /\ parse_num (Some "-12") = PNum (-12).
Proof.
  split.
  - exact (parse_num_literal None (list_ascii_of_string "010") ltac:(discriminate)
             ltac:(repeat constructor) ltac:(vm_compute; split; [discriminate|reflexivity])).
  - exact (parse_num_literal (Some true) (list_ascii_of_string "12") ltac:(discriminate)
             ltac:(repeat constructor) ltac:(vm_compute; split; [discriminate|reflexivity])).
Defined.

Lemma parse_num_octal_trap_witness : parse_num (Some "08") = PErr.
Proof.
  exact (parse_num_octal_trap None [] "8"%char [] ltac:(constructor) ltac:(left; reflexivity)).
Defined.
End ParseNumWitness.

Module VcfWitness.
Import Scan RefText VcfReader VcfProps MoreSamples.
Lemma read_vcf_line_record_witness :
  read_vcf_line (list_ascii_of_string "chr1" ++ "009"%char :: list_ascii_of_string "100" ++
                 "009"%char :: list_ascii_of_string "rs1" ++ "009"%char :: list_ascii_of_string "A" ++
                 "009"%char :: list_ascii_of_string "G,T" ++ ["010"%char]) =
  VRecs [mkVariant "chr1" 100 "A" "G"; mkVariant "chr1" 100 "A" "T"].
Proof.
  refine (eq_trans (read_vcf_line_record (list_ascii_of_string "chr1") None (list_ascii_of_string "100")
            (list_ascii_of_string "rs1") [list_ascii_of_string "A"]
            [list_ascii_of_string "G"; list_ascii_of_string "T"] ["010"%char] _ _ _ _ _ _) _).
  - split; [discriminate|]. split; [repeat constructor|]. vm_compute. discriminate.
  - split; [discriminate|repeat constructor].
  - split; [discriminate|repeat constructor].
  - split; [discriminate|repeat constructor; discriminate].
  - split; [discriminate|repeat constructor; discriminate].
  - reflexivity.
  - reflexivity.
Defined.
End VcfWitness.

Module OptionWitness.
Import CommandLine OptionProps MoreSamples.
Lemma main_options_run_witness :
  main_options ex_items =
    Run (mkOptions (Some "in.vcf") (Some "in.bam") (Some "ref.fa") None 1 10 1024 1 (1 # 2) 0 0) /\
  (1 <= numproc (mkOptions (Some "in.vcf") (Some "in.bam") (Some "ref.fa") None 1 10 1024 1 (1 # 2) 0 0))%Z.
Proof.
  assert (H : main_options ex_items =
    Run (mkOptions (Some "in.vcf") (Some "in.bam") (Some "ref.fa") None 1 10 1024 1 (1 # 2) 0 0))
    by (vm_compute; reflexivity).
  split; [exact H|].
  exact (proj1 (proj2 (proj2 (proj2 (main_options_run ex_items _ H))))).
Defined.
End OptionWitness.

Module VectorWitness.
Import Containers VectorProps MoreSamples.
Lemma vector_split_del_witness :
  contents (vector_del v3 0) = [Some 11; Some 12] /\
  contents (vector_del (vector_dup v3) 1) = [Some 10; Some 12].
Proof.
  destruct (vector_split_del v3 0 ltac:(simpl; lia)) as [H1 [H2 _]].
  split; [rewrite H1|rewrite H2]; reflexivity.
Defined.

Lemma vector_capacity_invariant_witness :
  v_size v3 <= v_capacity v3 /\ 1 <= v_capacity v3.
Proof.
  destruct (vector_capacity_invariant (A:=nat) 8 ltac:(lia)) as [H0 [Hadd _]].
  unfold v3. apply Hadd, Hadd, Hadd, H0.
Defined.
End VectorWitness.

Module SamePosWitness.
Import Evaluator Grouper SamePosProps MoreSamples.
Lemma same_position_sets_witness :
  length (split_sets vl_same 10) = 16%nat /\ hypothesis_sets vl_same 10 = None.
Proof.
  destruct (same_position_sets vl_same 10 "chr1" 100 ltac:(discriminate) ltac:(lia)
              ltac:(repeat constructor)) as [_ [Hl H5]].
  split; [rewrite Hl; reflexivity | apply H5; simpl; lia].
Defined.
End SamePosWitness.

Module RefCacheWitness.
Import RefCache RefCacheProps MoreSamples.
Lemma fetch_all_transparent_witness :
  fetch_all fai0 ∅ ["chr1"; "chr1"]%string =
  Some [load_fasta "chr1" (list_ascii_of_string "acgtN"); load_fasta "chr1" (list_ascii_of_string "acgtN")] /\
  fetch_all fai0 ∅ ["chr1"; "chr2"]%string = None.
Proof.
  split; (rewrite (fetch_all_transparent fai0 ∅);
          [reflexivity | intros k fs Hk; rewrite lookup_empty in Hk; discriminate]).
Defined.
End RefCacheWitness.

Module NatSortFacts.
Import Scan RefText CommandLine NatSort TextFacts ParseNumFacts.

Lemma digit_classes c : is_digit_in 10 c = true ->
  is_space c = false /\ c_isalpha c = false /\ c_ispunct c = false.
Proof. destruct c as [[] [] [] [] [] [] [] []]; vm_compute; intros H; try discriminate; auto. Qed.

Lemma punct_not_sign c : c_ispunct c = false -> Ascii.eqb c "-" = false /\ Ascii.eqb c "+" = false.
Proof.
  intros H. split; apply Ascii.eqb_neq; intros ->; vm_compute in H; discriminate.
Qed.

Lemma cmp3_refl x : cmp3 x x = 0%Z.
Proof. unfold cmp3. rewrite Z.gtb_ltb, Z.ltb_irrefl. reflexivity. Qed.

Lemma c_strcmp_refl s : c_strcmp s s = 0%Z.
Proof. induction s as [|c s IH]; simpl; [reflexivity|]. rewrite cmp3_refl. exact IH. Qed.

Lemma cmp_loop_exit f c s1 s2 : c <> 0%Z -> cmp_loop (S f) c s1 s2 = Some c.
Proof. intros Hc. destruct c; [congruence| |]; reflexivity. Qed.

Lemma numeral_nonneg ds : Forall (fun c => is_digit_in 10 c = true) ds -> (0 <= numeral 10 ds)%Z.
Proof.
  unfold numeral. assert (G : forall acc, (0 <= acc)%Z -> Forall (fun c => is_digit_in 10 c = true) ds ->
    (0 <= fold_left (fun acc c => (acc * 10 + match digit_value c with Some d => d | None => 0 end)%Z) ds acc)%Z).
  { induction ds as [|c ds IH]; intros acc Ha Hf; simpl; [exact Ha|].
    apply Forall_cons_1 in Hf. destruct Hf as [Hc Hf]. apply IH; [|exact Hf].
    rewrite (digit_value_dec c Hc). pose proof (digit_range c Hc). lia. }
  intros H. apply G; [lia|exact H].
Qed.

(** The loop walks over a common prefix of white space, letters and
    punctuation one character per iteration. *)
Lemma cmp_loop_prefix p x y fuel :
  Forall (fun c => is_space c || c_isalpha c || c_ispunct c = true) p ->
  cmp_loop fuel 0%Z (p ++ x) (p ++ y) =
  if (length p <=? fuel)%nat then cmp_loop (fuel - length p) 0%Z x y else None.
Proof.
  revert fuel. induction p as [|c p IH]; intros fuel Hp.
  - simpl. rewrite Nat.sub_0_r. reflexivity.
  - apply Forall_cons_1 in Hp. destruct Hp as [Hc Hp].
    destruct fuel as [|f]; [reflexivity|].
    cbn [app cmp_loop length].
    destruct (is_space c) eqn:Es; cbn [andb].
    + rewrite IH by exact Hp. reflexivity.
    + destruct (c_isalpha c) eqn:Ea; destruct (c_ispunct c) eqn:Ep; cbn [andb orb];
        try (rewrite cmp3_refl, IH by exact Hp; reflexivity).
      simpl in Hc. discriminate.
Qed.

(** One iteration on two runs of decimal digits: [%d] reads each run whole
    and the loop goes on after them when their values agree. *)
Lemma cmp_loop_digits f ds1 ds2 x y :
  ds1 <> [] -> ds2 <> [] ->
  Forall (fun c => is_digit_in 10 c = true) ds1 -> Forall (fun c => is_digit_in 10 c = true) ds2 ->
  match x with [] => True | c :: _ => is_digit_in 10 c = false end ->
  match y with [] => True | c :: _ => is_digit_in 10 c = false end ->
  cmp_loop (S f) 0%Z (ds1 ++ x) (ds2 ++ y) =
  let c := cmp3 (to_int (Z.max LONG_MIN (Z.min LONG_MAX (numeral 10 ds1))))
                (to_int (Z.max LONG_MIN (Z.min LONG_MAX (numeral 10 ds2)))) in
  if (c =? 0)%Z then cmp_loop f c x y else cmp_loop f c (ds1 ++ x) (ds2 ++ y).
Proof.
  intros Hn1 Hn2 Hd1 Hd2 Hx Hy.
  assert (S1 : scan_number (ds1 ++ x) = Some (to_int (Z.max LONG_MIN (Z.min LONG_MAX (numeral 10 ds1))), x)).
  { unfold scan_number, scan_d. pose proof (scan_int_numeral None ds1 x Hn1 Hd1 Hx) as E. cbn [sign_text app apply_sign] in E. rewrite E. reflexivity. }
  assert (S2 : scan_number (ds2 ++ y) = Some (to_int (Z.max LONG_MIN (Z.min LONG_MAX (numeral 10 ds2))), y)).
  { unfold scan_number, scan_d. pose proof (scan_int_numeral None ds2 y Hn2 Hd2 Hy) as E. cbn [sign_text app apply_sign] in E. rewrite E. reflexivity. }
  destruct ds1 as [|c1 t1]; [congruence|]. destruct ds2 as [|c2 t2]; [congruence|].
  pose proof (digit_classes c1 (Forall_inv Hd1)) as [Hs1 [Ha1 Hp1]].
  pose proof (digit_classes c2 (Forall_inv Hd2)) as [Hs2 [Ha2 Hp2]].
  cbn [app] in S1, S2 |- *. cbn [cmp_loop].
  rewrite Hs1, Ha1, Hp1. cbn [andb orb]. rewrite S1, S2. reflexivity.
Qed.

(** A string with no digit, whose first character is neither white space,
    a letter nor punctuation: compared with itself, [strcmp] gives 0 and
    nothing moves. *)
Lemma cmp_loop_stuck s fuel :
  match s with c :: _ => is_space c = false /\ c_isalpha c = false /\ c_ispunct c = false | [] => False end ->
  Forall (fun c => is_digit_in 10 c = false) s ->
  cmp_loop fuel 0%Z s s = None.
Proof.
  intros Hh Hd. destruct s as [|c t]; [contradiction|]. destruct Hh as [Hs [Ha Hp]].
  assert (Hc : is_digit_in 10 c = false) by exact (Forall_inv Hd).
  destruct (punct_not_sign c Hp) as [Hm Hpl].
  assert (N : scan_number (c :: t) = None).
  { unfold scan_number, scan_d_after_nondigits, scan_d, scan_int. cbn [skip_spaces].
    rewrite Hs, Hm, Hpl, Hc. cbn iota.
    pose proof (span_until_app (is_digit_in 10) (c :: t) [] Hd I) as E.
    rewrite app_nil_r in E. rewrite E. reflexivity. }
  induction fuel as [|f IH]; [reflexivity|].
  cbn [cmp_loop]. rewrite Hs, Ha, Hp. cbn [andb orb]. rewrite N, c_strcmp_refl. exact IH.
Qed.

(** [span_until] splits a list at its first stop character. *)
Lemma span_until_split (stop : ascii -> bool) s w r :
  span_until stop s = (w, r) ->
  s = w ++ r /\ Forall (fun c => stop c = false) w /\
  match r with [] => True | c :: _ => stop c = true end.
Proof.
  revert w r. induction s as [|c s IH]; intros w r E; simpl in E.
  - injection E as <- <-. repeat split; constructor.
  - destruct (stop c) eqn:Ec.
    + injection E as <- <-. split; [reflexivity|]. split; [constructor|exact Ec].
    + destruct (span_until stop s) as [w' r'] eqn:E'. injection E as <- <-.
      destruct (IH w' r' eq_refl) as [-> [Hw Hr]].
      split; [reflexivity|]. split; [constructor; assumption|exact Hr].
Qed.

(** Over a prefix of white space, letters, punctuation and digits, the
    loop reaches the end of the shorter string with [cmp == 0]. *)
Lemma cmp_loop_prefix_end p q fuel :
  Forall (fun c => is_space c || c_isalpha c || c_ispunct c || is_digit_in 10 c = true) p ->
  match q with [] => True | c :: _ => is_digit_in 10 c = false end ->
  (length p + 1 <= fuel)%nat ->
  cmp_loop fuel 0%Z p (p ++ q) = Some 0%Z /\ cmp_loop fuel 0%Z (p ++ q) p = Some 0%Z.
Proof.
  intros Hp Hq. revert fuel.
  assert (G : forall n p, (length p <= n)%nat ->
    Forall (fun c => is_space c || c_isalpha c || c_ispunct c || is_digit_in 10 c = true) p ->
    forall fuel, (length p + 1 <= fuel)%nat ->
    cmp_loop fuel 0%Z p (p ++ q) = Some 0%Z /\ cmp_loop fuel 0%Z (p ++ q) p = Some 0%Z).
  2: { intros fuel Hf. exact (G (length p) p (le_n _) Hp fuel Hf). }
  clear p Hp. induction n as [|n IH]; intros p Hl Hp fuel Hf.
  - destruct p; [|simpl in Hl; lia]. destruct fuel as [|f]; [lia|].
    simpl. destruct q; split; reflexivity.
  - destruct p as [|c p'].
    + destruct fuel as [|f]; [lia|]. simpl. destruct q; split; reflexivity.
    + destruct (is_digit_in 10 c) eqn:Ed.
      * destruct (span_until (fun c => negb (is_digit_in 10 c)) (c :: p')) as [ds rest] eqn:Esp.
        destruct (span_until_split _ _ _ _ Esp) as [Heq [Hds Hrest]].
        assert (Hds' : Forall (fun c => is_digit_in 10 c = true) ds).
        { eapply Forall_impl; [exact Hds|]. intros a Ha. apply negb_false_iff; exact Ha. }
        assert (Hne : ds <> []).
        { intros ->. simpl in Heq. subst rest. simpl in Hrest. rewrite Ed in Hrest. discriminate. }
        assert (Hr : match rest with [] => True | a :: _ => is_digit_in 10 a = false end).
        { destruct rest as [|a r]; [exact I|]. destruct (is_digit_in 10 a); [discriminate|reflexivity]. }
        assert (Hrq : match rest ++ q with [] => True | a :: _ => is_digit_in 10 a = false end).
        { destruct rest as [|a r]; [exact Hq|exact Hr]. }
        rewrite Heq in Hp, Hl, Hf |- *.
        apply Forall_app in Hp. destruct Hp as [_ Hp].
        rewrite length_app in Hl, Hf.
        assert (Hl1 : (1 <= length ds)%nat) by (destruct ds; [congruence|simpl; lia]).
        destruct fuel as [|f]; [lia|].
        rewrite <- app_assoc.
        rewrite (cmp_loop_digits f ds ds rest (rest ++ q) Hne Hne Hds' Hds' Hr Hrq).
        rewrite (cmp_loop_digits f ds ds (rest ++ q) rest Hne Hne Hds' Hds' Hrq Hr).
        cbn zeta. rewrite cmp3_refl. cbn.
        apply IH; [lia|exact Hp|lia].
      * apply Forall_cons_1 in Hp. destruct Hp as [Hc Hp].
        rewrite Ed, orb_false_r in Hc.
        destruct fuel as [|f]; [lia|]. simpl in Hl, Hf.
        destruct (IH p' ltac:(lia) Hp f ltac:(lia)) as [IH1 IH2].
        assert (Step : forall x y, cmp_loop (S f) 0%Z (c :: x) (c :: y) = cmp_loop f 0%Z x y).
        { intros x y. cbn [cmp_loop].
          destruct (is_space c) eqn:Es; cbn [andb]; [reflexivity|].
          destruct (c_isalpha c) eqn:Ea; destruct (c_ispunct c) eqn:Ep; cbn [andb orb];
            try (rewrite cmp3_refl; reflexivity).
          simpl in Hc. discriminate. }
        cbn [app]. rewrite !Step. split; assumption.
Qed.

End NatSortFacts.

Module NatSortProps.
Import Scan RefText CommandLine NatSort TextFacts ParseNumFacts NatSortFacts.

(** Natural order: two strings that share a prefix of white space, letters
    and punctuation, followed by runs of decimal digits of different values
    below [2^31] (each run ended by a non-digit or the end), compare by
    those values whatever follows: ["chr2"] sorts before ["chr10"]. *)
Theorem nat_sort_str_numeric p ds1 ds2 q1 q2
    (Hp : Forall (fun c => is_space c || c_isalpha c || c_ispunct c = true) p)
    (Hn1 : ds1 <> []) (Hn2 : ds2 <> [])
    (Hd1 : Forall (fun c => is_digit_in 10 c = true) ds1)
    (Hd2 : Forall (fun c => is_digit_in 10 c = true) ds2)
    (Hq1 : match q1 with [] => True | c :: _ => is_digit_in 10 c = false end)
    (Hq2 : match q2 with [] => True | c :: _ => is_digit_in 10 c = false end)
    (Hb1 : (numeral 10 ds1 < 2 ^ 31)%Z) (Hb2 : (numeral 10 ds2 < 2 ^ 31)%Z)
    (Hne : numeral 10 ds1 <> numeral 10 ds2) :
  forall fuel, (length p + 2 <= fuel)%nat ->
  nat_sort_str fuel (string_of_list_ascii (p ++ ds1 ++ q1)) (string_of_list_ascii (p ++ ds2 ++ q2)) =
  Some (if (numeral 10 ds1 <? numeral 10 ds2)%Z then (-1)%Z else 1%Z).
Proof.
  intros fuel Hf. unfold nat_sort_str. rewrite !list_ascii_of_string_of_list_ascii.
  rewrite cmp_loop_prefix by exact Hp.
  replace (length p <=? fuel)%nat with true by (symmetry; apply Nat.leb_le; lia).
  destruct (fuel - length p)%nat as [|f] eqn:Ef; [lia|].
  rewrite (cmp_loop_digits f ds1 ds2 q1 q2 Hn1 Hn2 Hd1 Hd2 Hq1 Hq2).
  pose proof (numeral_nonneg ds1 Hd1). pose proof (numeral_nonneg ds2 Hd2).
  rewrite !clamp_small, !to_int_small by lia.
  destruct f as [|f']; [lia|].
  cbn zeta. unfold cmp3.
  destruct (Z.ltb_spec (numeral 10 ds1) (numeral 10 ds2)); destruct (Z.gtb_spec (numeral 10 ds1) (numeral 10 ds2));
    try lia; cbn; reflexivity.
Qed.

(** A string of white space, letters, punctuation and digits compares
    equal (0) to its extension by any text that does not start with a
    digit, in both orders; so a variant on chromosome ["chr1"] and one on
    ["chr1_random"] compare equal whatever their positions. *)
Theorem nat_sort_prefix_equal p q
    (Hp : Forall (fun c => is_space c || c_isalpha c || c_ispunct c || is_digit_in 10 c = true) p)
    (Hq : match q with [] => True | c :: _ => is_digit_in 10 c = false end) :
  (forall fuel, (length p + 1 <= fuel)%nat ->
     nat_sort_str fuel (string_of_list_ascii p) (string_of_list_ascii (p ++ q)) = Some 0%Z /\
     nat_sort_str fuel (string_of_list_ascii (p ++ q)) (string_of_list_ascii p) = Some 0%Z) /\
  (q <> [] -> forall v1 v2 fuel, (length p + 1 <= fuel)%nat ->
     chr v1 = string_of_list_ascii p -> chr v2 = string_of_list_ascii (p ++ q) ->
     nat_sort_var fuel v1 v2 = Some 0%Z).
Proof.
  split.
  - intros fuel Hf. unfold nat_sort_str. rewrite !list_ascii_of_string_of_list_ascii.
    exact (cmp_loop_prefix_end p q fuel Hp Hq Hf).
  - intros Hqn v1 v2 fuel Hf H1 H2. unfold nat_sort_var, strcasecmp_eq.
    rewrite H1, H2, !list_ascii_of_string_of_list_ascii.
    rewrite bool_decide_false.
    + exact (proj1 (cmp_loop_prefix_end p q fuel Hp Hq Hf)).
    + intros E. apply (f_equal length) in E. rewrite !length_map, length_app in E.
      destruct q; [congruence|simpl in E; lia].
Qed.

(** [nat_sort_var] never returns on two variants whose chromosome names
    are a common prefix of white space, letters and punctuation, then two
    digit runs of different lengths and equal value, then a common tail
    without digits that starts with a control or non-ASCII character:
    after the digits [strcmp] of the equal tails gives 0 and the loop no
    longer moves ("chr01" and "chr1", each followed by a byte 200). *)
Theorem nat_sort_var_diverges p ds1 ds2 s v1 v2
    (Hp : Forall (fun c => is_space c || c_isalpha c || c_ispunct c = true) p)
    (Hn1 : ds1 <> []) (Hn2 : ds2 <> [])
    (Hd1 : Forall (fun c => is_digit_in 10 c = true) ds1)
    (Hd2 : Forall (fun c => is_digit_in 10 c = true) ds2)
    (Hlen : length ds1 <> length ds2) (Hval : numeral 10 ds1 = numeral 10 ds2)
    (Hs : match s with c :: _ => is_space c = false /\ c_isalpha c = false /\ c_ispunct c = false | [] => False end)
    (Hsd : Forall (fun c => is_digit_in 10 c = false) s)
    (H1 : chr v1 = string_of_list_ascii (p ++ ds1 ++ s))
    (H2 : chr v2 = string_of_list_ascii (p ++ ds2 ++ s)) :
  forall fuel, nat_sort_var fuel v1 v2 = None.
Proof.
  intros fuel. unfold nat_sort_var, strcasecmp_eq.
  rewrite H1, H2, !list_ascii_of_string_of_list_ascii.
  rewrite bool_decide_false.
  2: { intros E. apply (f_equal length) in E. rewrite !length_map, !length_app in E. lia. }
  assert (Hs0 : match s with [] => True | c :: _ => is_digit_in 10 c = false end)
    by (destruct s; [exact I|exact (Forall_inv Hsd)]).
  rewrite cmp_loop_prefix by exact Hp.
  destruct (length p <=? fuel)%nat; [|reflexivity].
  destruct (fuel - length p)%nat as [|f]; [reflexivity|].
  rewrite (cmp_loop_digits f ds1 ds2 s s Hn1 Hn2 Hd1 Hd2 Hs0 Hs0).
  rewrite Hval. cbn zeta. rewrite cmp3_refl. cbn [Z.eqb].
  exact (cmp_loop_stuck s f Hs Hsd).
Qed.

End NatSortProps.

Module NatSortWitness.
Import Scan RefText NatSort NatSortProps.

Lemma nat_sort_str_numeric_witness :
  nat_sort_str 10 "chr2" "chr10" = Some (-1)%Z.
Proof.
  exact (nat_sort_str_numeric (list_ascii_of_string "chr") ["2"%char] ["1"%char; "0"%char] [] []
           ltac:(repeat constructor) ltac:(discriminate) ltac:(discriminate)
           ltac:(repeat constructor) ltac:(repeat constructor) I I
           ltac:(vm_compute; reflexivity) ltac:(vm_compute; reflexivity) ltac:(vm_compute; discriminate)
           10 ltac:(simpl; lia)).
Defined.

Lemma nat_sort_prefix_equal_witness :
  nat_sort_str 10 "chr1" "chr1_random" = Some 0%Z /\
  nat_sort_var 10 (mkVariant "chr1" 500 "A" "C") (mkVariant "chr1_random" 7 "G" "T") = Some 0%Z.
Proof.
  destruct (nat_sort_prefix_equal (list_ascii_of_string "chr1") (list_ascii_of_string "_random")
              ltac:(repeat constructor) ltac:(vm_compute; reflexivity)) as [Hs Hv].
  split.
  - exact (proj1 (Hs 10 ltac:(simpl; lia))).
  - exact (Hv ltac:(discriminate) (mkVariant "chr1" 500 "A" "C") (mkVariant "chr1_random" 7 "G" "T")
             10 ltac:(simpl; lia) eq_refl eq_refl).
Defined.

Lemma nat_sort_var_diverges_witness :
  nat_sort_var 1000
    (mkVariant (string_of_list_ascii (list_ascii_of_string "chr01" ++ [ascii_of_nat 200])) 5 "A" "C")
    (mkVariant (string_of_list_ascii (list_ascii_of_string "chr1" ++ [ascii_of_nat 200])) 5 "A" "C") = None.
Proof.
  exact (nat_sort_var_diverges (list_ascii_of_string "chr") ["0"%char; "1"%char] ["1"%char] [ascii_of_nat 200]
           (mkVariant (string_of_list_ascii (list_ascii_of_string "chr01" ++ [ascii_of_nat 200])) 5 "A" "C")
           (mkVariant (string_of_list_ascii (list_ascii_of_string "chr1" ++ [ascii_of_nat 200])) 5 "A" "C")
           ltac:(repeat constructor) ltac:(discriminate) ltac:(discriminate)
           ltac:(repeat constructor) ltac:(repeat constructor) ltac:(discriminate)
           ltac:(vm_compute; reflexivity) ltac:(vm_compute; repeat split)
           ltac:(repeat constructor) eq_refl eq_refl 1000).
Defined.

End NatSortWitness.
